(** * python-mcts: a shallow embedding of the TicTacToe game and of the
    Monte-Carlo tree search engine, with the properties of its specification.

    The two Python modules are modelled the way they are written:
    - [tictactoe.py]: the board is a list of rows of cells ([None] or a
      token), indexed the way numpy indexes (negative indices count from the
      end); methods that mutate [self] or raise run in a state-and-exception
      monad over the [TicTacToe] record;
    - [mcts.py]: [Node] objects live in a store (a list indexed by object
      identity), so that [parent] back-references and the [next_nodes] lists
      alias the same objects as in Python; [random.choice] reads a tape of
      draws; the [float] counter [accumulated_reward] is a binary64 float.
      A numpy array is given by what it reads: the engine writes into the
      array of its own game only, of which it hands out copies; the one
      array a state holds that the engine does not own is the array a root
      state was built around, and the writes of its owner between two calls
      are a transition of the store ([array_written]). *)

From Stdlib Require Import ZArith Floats.
From stdpp Require Import base option list gmap strings.

Open Scope Z_scope.

(** ** Python outcomes: a state monad with exceptions *)

(** The exceptions the two modules can raise. *)
Inductive exn :=
| GameError (msg : string)
| IndexError
| AttributeError
| ZeroDivisionError
| OverflowError
| FileNotFoundError.

(** Outcome of a call: a value, a raised exception, or a loop that was cut
    by the iteration bound of the model. *)
Inductive res (A : Type) :=
| Ok (a : A)
| Raise (e : exn)
| OutOfFuel.
Arguments Ok {A} a.
Arguments Raise {A} e.
Arguments OutOfFuel {A}.

(** A method over a mutable object of type [S]: the object after the call
    (also when the call raises) and the outcome. *)
Definition M (S A : Type) : Type := S → S * res A.

Definition ret {S A} (a : A) : M S A := λ s, (s, Ok a).

Definition bind {S A B} (f : A → M S B) (m : M S A) : M S B :=
  λ s, match m s with
       | (s', Ok a) => f a s'
       | (s', Raise e) => (s', Raise e)
       | (s', OutOfFuel) => (s', OutOfFuel)
       end.

#[global] Instance M_ret {S} : MRet (M S) := @ret S.
#[global] Instance M_bind {S} : MBind (M S) := @bind S.
#[global] Instance M_fmap {S} : FMap (M S) :=
  λ A B f m, bind (λ a, ret (f a)) m.

Definition raise {S A} (e : exn) : M S A := λ s, (s, Raise e).
Definition out_of_fuel {S A} : M S A := λ s, (s, OutOfFuel).
Definition get {S} : M S S := λ s, (s, Ok s).
Definition put {S} (s : S) : M S unit := λ _, (s, Ok tt).
Definition modify {S} (f : S → S) : M S unit := λ s, (f s, Ok tt).

(** [try_index o]: the value of a subscript that raises [IndexError] when
    out of range. *)
Definition try_index {S A} (o : option A) : M S A :=
  match o with Some a => ret a | None => raise IndexError end.

(** [try_attr o]: attribute access on a reference that may be [None]. *)
Definition try_attr {S A} (o : option A) : M S A :=
  match o with Some a => ret a | None => raise AttributeError end.

(** [preserves proj m]: whatever its outcome, the call [m] leaves the part
    [proj] of the object as it was. *)
Definition preserves {S A B} (proj : S → B) (m : M S A) : Prop :=
  ∀ s s' r, m s = (s', r) → proj s' = proj s.

(** [never_game_error m]: the call [m] does not raise [GameError]. *)
Definition never_game_error {S A} (m : M S A) : Prop :=
  ∀ s s' msg, m s ≠ (s', Raise (GameError msg)).

(** ** numpy indexing *)

(** [a[i]] for a Python integer [i], on an axis of length [n]: the position
    it denotes, or the exception numpy raises. Indices [-n .. -1] count from
    the end. Outside [-n .. n-1], an integer in [2**63 .. 2**64-1] does not
    fit the signed index type but fits an unsigned 64-bit scalar, whose
    conversion to an index raises [OverflowError]; every other integer is
    an [IndexError]. (An axis has fewer than [2**63] entries, so an integer
    that overflows is never in range.) *)
Definition np_norm_index (n : nat) (i : Z) : res nat :=
  if (0 <=? i) && (i <? Z.of_nat n) then Ok (Z.to_nat i)
  else if (- Z.of_nat n <=? i) && (i <? 0) then Ok (Z.to_nat (Z.of_nat n + i))
  else if (2 ^ 63 <=? i) && (i <? 2 ^ 64) then Raise OverflowError
  else Raise IndexError.

Definition np_getitem {A} (a : list A) (i : Z) : res A :=
  match np_norm_index (length a) i with
  | Ok k => match a !! k with Some x => Ok x | None => Raise IndexError end
  | Raise e => Raise e
  | OutOfFuel => OutOfFuel
  end.

(** [a[i][j]]: the row first, then the entry of the row. *)
Definition np_getitem2 {A} (a : list (list A)) (i j : Z) : res A :=
  match np_getitem a i with
  | Ok row => np_getitem row j
  | Raise e => Raise e
  | OutOfFuel => OutOfFuel
  end.

(** [a[i][j] = v] on an array whose subscript [a[i][j]] is in range. *)
Definition np_setitem2 {A} (a : list (list A)) (i j : Z) (v : A) : list (list A) :=
  match np_norm_index (length a) i with
  | Ok r =>
      match a !! r with
      | Some row =>
          match np_norm_index (length row) j with
          | Ok c => <[r := <[c := v]> row]> a
          | _ => a
          end
      | None => a
      end
  | _ => a
  end.

(** ** tictactoe.py *)

Module TicTacToe.

(** A cell of the board: [None] or a player's token. *)
Definition cell : Type := option string.
Definition board : Type := list (list cell).

(** The values an object array holds once [state] has rewritten it. *)
Inductive pyval :=
| PyNone
| PyStr (s : string)
| PyInt (z : Z).

#[global] Instance pyval_eq_dec : EqDecision pyval.
Proof. solve_decision. Defined.

Definition of_cell (c : cell) : pyval :=
  match c with None => PyNone | Some s => PyStr s end.

(** [bool(c)] for a cell: [None] and the empty string are false. *)
Definition truthy (c : cell) : bool :=
  match c with None => false | Some s => negb (String.eqb s "") end.

(** The instance attributes of a [TicTacToe] object. [self.players] is
    assigned once, to the literal list, and is a constant here;
    [action_space] is never read by the methods modelled. *)
Record TicTacToe := mkTicTacToe {
  size : nat;
  current_player : option string;
  observation_space : board
}.

Definition players : list string := ["X"; "O"]%string.

Definition set_observation (b : board) (g : TicTacToe) : TicTacToe :=
  mkTicTacToe (size g) (current_player g) b.
Definition set_current (p : option string) (g : TicTacToe) : TicTacToe :=
  mkTicTacToe (size g) p (observation_space g).

(** [np.full((size, size), None)] *)
Definition np_full (n : nat) : board := replicate n (replicate n None).

(** [reset(custom_current_player, custom_start)] *)
Definition reset (custom_current_player : option string)
    (custom_start : option board) : M TicTacToe board :=
  self ← get;
  let obs := match custom_start with
             | Some b => b
             | None => np_full (size self)
             end in
  put (mkTicTacToe (size self) custom_current_player obs);;
  mret obs.

(** [__init__(size)]: [reset()], then the two attribute assignments. *)
Definition init (n : nat) : TicTacToe := mkTicTacToe n None (np_full n).

(** [clone()]: a deep copy; values are immutable here. *)
Definition clone (g : TicTacToe) : TicTacToe := g.

(** [_switch_player(player)]: the first of the players that differs. *)
Definition _switch_player (player : option string) : string :=
  default "X"%string
    (head (filter (λ p, Some p ≠ player) players)).

(** [None not in self.observation_space] *)
Definition board_finished (b : board) : bool :=
  forallb (forallb (λ c : cell, bool_decide (c ≠ None))) b.
Definition is_finished (g : TicTacToe) : bool :=
  board_finished (observation_space g).

(** [check(array, token)]: [np.count_nonzero(array == token) == self.size] *)
Definition check (n : nat) (array : list cell) (token : string) : bool :=
  bool_decide (length (filter (λ c, c = Some token) array) = n).

(** [a[:, i]] *)
Definition column (b : board) (i : nat) : option (list cell) :=
  mapM (λ row : list cell, row !! i) b.

(** [a.diagonal()]: the cells [a[k][k]] that exist. *)
Fixpoint diagonal_from (k : nat) (b : board) : list cell :=
  match b with
  | [] => []
  | row :: rest =>
      match row !! k with
      | Some c => c :: diagonal_from (S k) rest
      | None => []
      end
  end.
Definition diagonal (b : board) : list cell := diagonal_from 0 b.

(** The [for i in range(self.size)] loop of [is_winner]. *)
Fixpoint is_winner_rows (n : nat) (b : board) (token : string)
    (range : list nat) : res bool :=
  match range with
  | [] => Ok false
  | i :: range' =>
      match b !! i with
      | None => Raise IndexError
      | Some row =>
          if check n row token then Ok true
          else match column b i with
               | None => Raise IndexError
               | Some col =>
                   if check n col token then Ok true
                   else is_winner_rows n b token range'
               end
      end
  end.

Definition is_winner (token : string) : M TicTacToe bool :=
  self ← get;
  let b := observation_space self in
  let n := size self in
  match is_winner_rows n b token (seq 0 n) with
  | Ok true => mret true
  | Ok false =>
      if check n (diagonal b) token then mret true
      else if check n (diagonal (map (@rev cell) b)) token then mret true
      else mret false
  | Raise e => raise e
  | OutOfFuel => out_of_fuel
  end.

Definition tuple4 : Type := board * Z * bool * option string.

(** The three branches that follow the write in [step]:
    [(done, reward, info)]. *)
Definition verdict (player : string) (won finished : bool)
    : bool * Z * option string :=
  if won then (true, 1, Some player)
  else if finished then (true, 0, None)
  else (false, 0, Some (_switch_player (Some player))).

(** The tail of [step], after the cell was written. *)
Definition step_outcome (player : string) : M TicTacToe tuple4 :=
  won ← is_winner player;
  self ← get;
  let v := verdict player won (is_finished self) in
  modify (set_current v.2);;
  self ← get;
  mret (observation_space self, v.1.2, v.1.1, v.2).

(** [step(player, move)]. The [except IndexError] clause turns the
    [IndexError] of the subscript into a [GameError]; another exception of
    the subscript (numpy's [OverflowError]) passes through it. *)
Definition step (player : option string) (move : option (list Z))
    : M TicTacToe tuple4 :=
  self ← get;
  match player with
  | None => raise (GameError "Players must either be `X` or `O`.")
  | Some p =>
      if negb (bool_decide (p ∈ players))
      then raise (GameError "Players must either be `X` or `O`.")
      else if bool_decide (current_player self ≠ None
                           ∧ player ≠ current_player self)
      then raise (GameError ("This is not the turn of " +:+ p +:+ "."))
      else match move with
           | Some [i; j] =>
               match np_getitem2 (observation_space self) i j with
               | Raise IndexError => raise (GameError "Invalid movement.")
               | Raise e => raise e
               | OutOfFuel => out_of_fuel
               | Ok c =>
                   if truthy c
                   then raise (GameError "This movement has already been made.")
                   else
                     modify (set_observation
                               (np_setitem2 (observation_space self) i j (Some p)));;
                     step_outcome p
               end
           | _ => raise (GameError (p +:+ " made an invalid play."))
           end
  end.

(** [state(observation, player)].  [state[state == v] = w] rewrites every
    entry equal to [v]; the digest of the rewritten array is the key. *)
Definition mask_assign (v w : pyval) (a : list (list pyval)) : list (list pyval) :=
  map (map (λ c, if decide (c = v) then w else c)) a.

Definition player_val (p : option string) : pyval :=
  match p with None => PyNone | Some s => PyStr s end.

Definition normalize (observation : board) (player : option string)
    : list (list pyval) :=
  let state := map (map of_cell) observation in
  let state := mask_assign (player_val player) (PyInt 1) state in
  let state := mask_assign (PyStr (_switch_player player)) (PyInt (-1)) state in
  mask_assign PyNone (PyInt 0) state.

Section Digest.
(** [xxhash.xxh64().update(a).intdigest()]: the library's hash, a function of
    the array's entries. *)
Variable xxh64 : list (list pyval) → Z.

Definition state (observation : board) (player : option string) : Z :=
  xxh64 (normalize observation player).
End Digest.

(** [actions(observation)]: the coordinates of the [None] cells, in the
    row-major order of [np.where]. *)
Definition row_where (i : nat) (row : list cell) : list (list Z) :=
  omap (λ '(j, c), match c with
                   | None => Some [Z.of_nat i; Z.of_nat j]
                   | Some _ => None
                   end) (imap pair row).
Definition actions (observation : board) : list (list Z) :=
  concat (imap row_where observation).

(** The three classes the specification asks for, for a mover and an
    opponent: the mover's cells are 1, the opponent's -1, the empty ones 0
    (a cell with any other token keeps it). *)
Definition three_classes (mover opponent : string) (c : cell) : pyval :=
  match c with
  | None => PyInt 0
  | Some s => if decide (s = mover) then PyInt 1
              else if decide (s = opponent) then PyInt (-1) else PyStr s
  end.

(** The observation with the tokens [p] and [q] exchanged. *)
Definition swap_cell (p q : string) (c : cell) : cell :=
  match c with
  | None => None
  | Some s => if decide (s = p) then Some q
              else if decide (s = q) then Some p else Some s
  end.
Definition swap_tokens (p q : string) (obs : board) : board :=
  map (map (swap_cell p q)) obs.

(** A stand-in for the hash on concrete runs: the positional code of the
    rewritten array (distinct arrays of 1, -1 and 0 get distinct codes). *)
Definition positional_code (v : pyval) : Z :=
  match v with PyInt 0 => 0 | PyInt 1 => 1 | PyInt (-1) => 2 | _ => 3 end.
Definition positional_digest (a : list (list pyval)) : Z :=
  fold_left (λ acc v, 4 * acc + positional_code v) (concat a) 1.

(** A board of the game's size: [size] rows of [size] cells. *)
Definition square (g : TicTacToe) : Prop :=
  length (observation_space g) = size g
  ∧ Forall (λ row, length row = size g) (observation_space g).

(** The moves that [step] refuses: a player that is not one of the two, a
    player out of turn, a move that is not a pair, a pair for which the
    subscript raises [IndexError], a cell that holds a token. *)
Definition illegal (g : TicTacToe) (player : option string)
    (move : option (list Z)) : Prop :=
  (∀ p, player = Some p → p ∉ players)
  ∨ (current_player g ≠ None ∧ player ≠ current_player g)
  ∨ (∀ i j, move ≠ Some [i; j])
  ∨ (∃ i j, move = Some [i; j]
        ∧ np_getitem2 (observation_space g) i j = Raise IndexError)
  ∨ (∃ i j c, move = Some [i; j]
        ∧ np_getitem2 (observation_space g) i j = Ok c ∧ truthy c = true).

(** An index of an axis of length [n]: in [-n .. n-1]. *)
Definition in_range (n : nat) (i : Z) : Prop := - Z.of_nat n ≤ i < Z.of_nat n.

(** A pair that the subscript cannot convert: the first index that is not
    in range (the row index, or the column index when the row exists) is an
    integer of [2**63 .. 2**64-1]. *)
Definition unconvertible (g : TicTacToe) (move : option (list Z)) : Prop :=
  ∃ i j, move = Some [i; j]
    ∧ ((¬ in_range (length (observation_space g)) i ∧ 2 ^ 63 ≤ i < 2 ^ 64)
       ∨ (in_range (length (observation_space g)) i
          ∧ ¬ in_range (size g) j ∧ 2 ^ 63 ≤ j < 2 ^ 64)).

(** The number of empty cells of a board, and the number of zeros of an
    array that [state] has rewritten. *)
Definition count_none (b : board) : nat :=
  length (filter (λ c : cell, c = None) (concat b)).
Definition zeros (a : list (list pyval)) : nat :=
  length (filter (λ v, v = PyInt 0) (concat a)).

(** The cell in row [i] and column [j], when the board has one. *)
Definition cell_at (b : board) (i j : nat) : option cell := b !! i ≫= (.!! j).

(** [token] holds a complete line of a board of size [n]: a row, a column,
    the diagonal or the anti-diagonal. *)
Definition has_line (n : nat) (b : board) (token : string) : Prop :=
  (∃ i, (i < n)%nat ∧ ∀ j, (j < n)%nat → cell_at b i j = Some (Some token))
  ∨ (∃ j, (j < n)%nat ∧ ∀ i, (i < n)%nat → cell_at b i j = Some (Some token))
  ∨ (∀ k, (k < n)%nat → cell_at b k k = Some (Some token))
  ∨ (∀ k, (k < n)%nat → cell_at b k (n - 1 - k)%nat = Some (Some token)).

(** A result [(winner, reward)] that the board of [g] justifies: a player
    with a complete line and reward 1, or nobody on a full board and
    reward 0. *)
Definition settled (g : TicTacToe) (winner : option string) (reward : Z) : Prop :=
  (∃ p, winner = Some p ∧ reward = 1 ∧ p ∈ players
        ∧ has_line (size g) (observation_space g) p)
  ∨ (winner = None ∧ reward = 0 ∧ is_finished g = true).

(** [FixedTupleSpace(size, depth)]: the attribute [space], [size] times the
    list [range(depth)]. [reset] builds [FixedTupleSpace(2, self.size)]. *)
Definition FixedTupleSpace_init (size depth : nat) : list (list Z) :=
  replicate size (Z.of_nat <$> seq 0 depth).

End TicTacToe.

(** ** mcts.py *)

Module MCTS.

Import TicTacToe.

(** *** The Game the engine is given

    The engine calls the game through six operations only; [TicTacToe] is one
    implementation. *)
Class GameAdapter (G : Type) := {
  g_clone : G → G;
  g_state : G → board → option string → Z;
  g_actions : G → board → list (list Z);
  g_reset : option string → option board → M G board;
  g_step : option string → option (list Z) → M G tuple4;
  g_players : G → list string
}.

Definition tictactoe_adapter (xxh64 : list (list pyval) → Z)
    : GameAdapter TicTacToe := {|
  g_clone := clone;
  g_state := λ _, state xxh64;
  g_actions := λ _, actions;
  g_reset := reset;
  g_step := step;
  g_players := λ _, players
|}.

(** *** Objects *)

(** A [State] object. Its [next_nodes] list holds references to [Node]
    objects of the store. A state belongs to the one node it is bound to and
    the engine never assigns to its attributes, so it is stored inside that
    node.

    [observation] is a reference to a numpy array ([State.__init__] keeps
    the array it is given, mcts.py:15); the record holds what the array
    reads. The engine never writes into an array that a state refers to:
    [reset] and [step] work on the game's own array, which [reset] makes
    with [np.copy] or [np.full] and of which [step] returns a copy. So the
    array of a state that [expansion] builds, the copy that [step] returned,
    is referred to by that state only and reads the same for ever. The
    array of a root state that [act] builds is the caller's: it reads the
    same during the call, and the caller can write into it afterwards
    ([array_written] below). *)
Record State := mkState {
  identifier : Z;
  observation : board;
  reward : Z;
  done : bool;
  player : option string;
  next_nodes : list nat
}.

(** A [Node] object; [parent] is a reference into the store. *)
Record Node := mkNode {
  action : option (list Z);
  state : option State;
  parent : option nat;
  visit_count : Z;
  accumulated_reward : float
}.

(** [int] to [float], as Python converts the integer operand of a float
    operation (round to nearest). *)
Definition float_of_Z (z : Z) : float :=
  SF2Prim (binary_normalize prec emax z 0 false).

(** The closed form of the score as the specification writes it:
    [reward / visits + c * sqrt (ln parent_visits / visits)], in binary64. *)
Definition ucb1_score (np_log : float → float) (accumulated_reward : float)
    (visit_count parent_visit_count : Z) (c : float) : float :=
  (accumulated_reward / float_of_Z visit_count
   + c * PrimFloat.sqrt (np_log (float_of_Z parent_visit_count)
                         / float_of_Z visit_count))%float.

(** [Node(action, state, parent)] *)
Definition Node_init (action : option (list Z)) (state : option State)
    (parent : option nat) : Node :=
  mkNode action state parent 1 0%float.

Definition set_counters (v : Z) (a : float) (n : Node) : Node :=
  mkNode (action n) (state n) (parent n) v a.
Definition set_state_parent (s : State) (p : option nat) (n : Node) : Node :=
  mkNode (action n) (Some s) p (visit_count n) (accumulated_reward n).

(** [is_evaluated]: [bool(self.state)]; a [State] object is always true. *)
Definition is_evaluated (n : Node) : bool := bool_decide (is_Some (state n)).

(** *** The path that [backpropagation] walks

    [climbs h root node path]: following the [parent] references from
    [node] in the store [h] reaches the node [root]; [path] lists the nodes
    met before it, [node] first. Each of them is evaluated and differs from
    the root for [Node.__eq__] (its state has another identifier). *)
Inductive climbs (h : list Node) (root : nat) : nat → list nat → Prop :=
| climbs_root r t :
    h !! root = Some r → state r = Some t →
    climbs h root root []
| climbs_step node n s r t p pn ps path :
    h !! node = Some n → state n = Some s →
    h !! root = Some r → state r = Some t →
    identifier s ≠ identifier t →
    parent n = Some p → h !! p = Some pn → state pn = Some ps →
    climbs h root p path →
    climbs h root node (node :: path).

(** [node.parent.state.player] *)
Definition parent_player (h : list Node) (n : Node) : option string :=
  (parent n ≫= λ p, h !! p ≫= state) ≫= player.

(** What the specification asks of a node on the path: one more visit, and
    the reward added when the player to move at its parent is the winner,
    subtracted otherwise. *)
Definition credit (winner : string) (reward : Z) (mover : option string)
    (n : Node) : Node :=
  set_counters (visit_count n + 1)
    (if bool_decide (mover = Some winner)
     then accumulated_reward n + float_of_Z reward
     else accumulated_reward n - float_of_Z reward)%float n.

(** [drawn tape l]: the element of [l] at the index that the next draw of the
    tape gives (no draw left counts as 0). *)
Definition drawn {A} (tape : list nat) (l : list A) : option A :=
  l !! (default 0%nat (head tape) `mod` length l)%nat.

(** Two stores with the same links: the same objects with the same
    [action], [state] and [parent], whatever the counters. *)
Definition same_links (h h' : list Node) : Prop :=
  Forall2 (λ n n', action n = action n' ∧ state n = state n'
                   ∧ parent n = parent n') h h'.

(** *** The shape of the store

    [kids h i]: the [next_nodes] of the state of node [i], empty while [i]
    is not evaluated. *)
Definition kids (h : list Node) (i : nat) : list nat :=
  default [] (next_nodes <$> (h !! i ≫= state)).

(** [ident h i]: the identifier of the state of node [i]. *)
Definition ident (h : list Node) (i : nat) : option Z :=
  identifier <$> (h !! i ≫= state).

(** [visits h i]: [visit_count] of node [i]. *)
Definition visits (h : list Node) (i : nat) : Z :=
  default 0 (visit_count <$> h !! i).

(** The sum over the children [cs] of [visit_count - 1]. *)
Definition children_sum (h : list Node) (cs : list nat) : Z :=
  foldr (λ c acc, (visits h c - 1) + acc) 0 cs.

(** What the constructors establish and every phase keeps: the children of
    a state are objects of the store, all different, no node is a child of
    two states, and an evaluated child points back to the node whose state
    lists it. *)
Record wf_heap (h : list Node) : Prop := mk_wf_heap {
  wf_bound : ∀ i c, c ∈ kids h i → (c < length h)%nat;
  wf_nodup : ∀ i, NoDup (kids h i);
  wf_owner : ∀ i j c, c ∈ kids h i → c ∈ kids h j → i = j;
  wf_parent : ∀ i c n,
    c ∈ kids h i → h !! c = Some n → is_Some (state n) → parent n = Some i
}.

(** [lineage h root d path]: [d] is reached from [root] through
    [next_nodes] lists; [path] lists the nodes below the root, [d] first. *)
Inductive lineage (h : list Node) (root : nat) : nat → list nat → Prop :=
| lineage_root : lineage h root root []
| lineage_kid n c path :
    lineage h root n path → c ∈ kids h n → lineage h root c (c :: path).

(** No node below the root has a state with the root's identifier (the
    hash does not collide on them): [Node.__eq__] tells them from the root. *)
Definition no_collision (h : list Node) (root : nat) : Prop :=
  ∀ d path, lineage h root d (d :: path) → ident h d ≠ ident h root.

(** The evaluated nodes of [h] are in [h'] with the same state. *)
Definition grows (h h' : list Node) : Prop :=
  ∀ i n s, h !! i = Some n → state n = Some s →
           ∃ n', h' !! i = Some n' ∧ state n' = Some s.

(** The nodes of [h] are in [h'] with the same [action]. *)
Definition keeps_actions (h h' : list Node) : Prop :=
  ∀ i n, h !! i = Some n → ∃ n', h' !! i = Some n' ∧ action n' = action n.

(** How many of the iterations listed in [picks] went through the child
    [x] of the root. *)
Definition times (x : nat) (picks : list nat) : nat :=
  length (filter (λ y, y = x) picks).

(** A check that implies [no_collision]: the root has a state, it is in no
    [next_nodes] list, and no other node of the store has its identifier. *)
Definition no_collision_check (h : list Node) (root : nat) : bool :=
  bool_decide (is_Some (ident h root))
  && forallb (λ i, bool_decide (root ∉ kids h i)
                   && bool_decide (i = root ∨ ident h i ≠ ident h root))
             (seq 0 (length h)).

(** What the states that the engine builds on a TicTacToe of size [n] have
    in common, for as long as the arrays they hold read what they read when
    the states were built: the observation is a board of that size, a state
    that is not terminal has one of the two players to move, and the
    children that are not evaluated yet carry the valid actions of the
    observation. *)
Definition playable (n : nat) (h : list Node) : Prop :=
  ∀ i nd s, h !! i = Some nd → state nd = Some s →
    (length (observation s) = n ∧ Forall (λ row, length row = n) (observation s))
    ∧ (done s = false → ∃ p, player s = Some p ∧ p ∈ players)
    ∧ ∀ c cn, c ∈ next_nodes s → h !! c = Some cn → state cn = None →
        ∃ a, action cn = Some a ∧ a ∈ actions (observation s).

(** On TicTacToe with the hash [xxh64]: the identifier of a state is the key
    of its observation and player, and an evaluated child has fewer empty
    cells than the state that lists it, which has a player to move. *)
Definition descending (xxh64 : list (list pyval) → Z) (h : list Node) : Prop :=
  ∀ i nd s, h !! i = Some nd → state nd = Some s →
    identifier s = xxh64 (normalize (observation s) (player s))
    ∧ ∀ c cn cs, c ∈ next_nodes s → h !! c = Some cn → state cn = Some cs →
        is_Some (player s)
        ∧ (count_none (observation cs) < count_none (observation s))%nat.

(** [rank] decreases from an evaluated node to its evaluated children. On
    TicTacToe the number of empty cells of the observation is such a rank
    in a store that is [descending]. *)
Definition ranked (rank : State → nat) (h : list Node) : Prop :=
  ∀ i nd s c cn cs, h !! i = Some nd → state nd = Some s → c ∈ next_nodes s →
    h !! c = Some cn → state cn = Some cs → (rank cs < rank s)%nat.

(** The number of empty cells of the observation of a state. *)
Definition empty_cells (s : State) : nat := count_none (observation s).

(** Every node has been visited: [Node.__init__] starts [visit_count] at 1
    and [backpropagation] only adds to it. *)
Definition positive (h : list Node) : Prop :=
  ∀ i n, h !! i = Some n → 0 < visit_count n.

(** *** randomax

    The [for element in elements] loop of [randomax], for a [key] that is
    given: the candidates it has collected when it ends. [gt] and [eq] are
    [value > best_value] and [value == best_value] on the key's values. *)

Section Randomax.
Context {S A V : Type}.
Variable gt : V → V → bool.
Variable eq : V → V → bool.
Variable key : A → M S V.

Fixpoint randomax_loop (elements candidates : list A) (best_value : option V)
    : M S (list A) :=
  match elements with
  | [] => mret candidates
  | element :: elements' =>
      value ← key element;
      let best0 := default value best_value in
      let best1 := if gt value best0 then value else best0 in
      let cands1 := if gt value best0 then [element] else candidates in
      let cands2 := if eq value best1 then cands1 ++ [element] else cands1 in
      randomax_loop elements' cands2 (Some best1)
  end.
End Randomax.

(** The greatest of [b] and the keys of [elements]. *)
Definition key_max {A} (key : A → Z) (b : Z) (elements : list A) : Z :=
  foldl (λ m x, Z.max m (key x)) b elements.

Section Engine.

Context {G : Type} `{GameAdapter G}.

(** The [MCTS] object ([game], [player], [tree]), the store of the [Node]
    objects it can reach, and the tape that [random.choice] reads.  The
    budget is wall-clock time: the number of iterations it allows is an
    argument of [act]. *)
Record World := mkWorld {
  game : G;
  self_player : option string;
  tree : gmap Z nat;
  heap : list Node;
  tape : list nat
}.

Definition set_game (g : G) (w : World) : World :=
  mkWorld g (self_player w) (tree w) (heap w) (tape w).
Definition set_tree (t : gmap Z nat) (w : World) : World :=
  mkWorld (game w) (self_player w) t (heap w) (tape w).
Definition set_heap (h : list Node) (w : World) : World :=
  mkWorld (game w) (self_player w) (tree w) h (tape w).
Definition set_tape (t : list nat) (w : World) : World :=
  mkWorld (game w) (self_player w) (tree w) (heap w) t.

(** [MCTS.__init__(game, player, budget)] *)
Definition MCTS_init (g : G) (player : option string) (tape : list nat) : World :=
  mkWorld (g_clone g) player ∅ [] tape.

(** A call of a method of [self.game]. *)
Definition with_game {A} (m : M G A) : M World A :=
  λ w, let '(g', r) := m (game w) in (set_game g' w, r).

(** Dereference of a node. Every reference the engine holds comes from an
    allocation, so the lookup succeeds; a reference to no object is reported
    as [AttributeError]. *)
Definition read (i : nat) : M World Node :=
  w ← get; try_attr (heap w !! i).

Definition write (i : nat) (n : Node) : M World unit :=
  modify (λ w, set_heap (<[i := n]> (heap w)) w).

(** Allocation of a new object: its reference is the next free index. *)
Definition alloc (n : Node) : M World nat :=
  w ← get;
  put (set_heap (heap w ++ [n]) w);;
  mret (length (heap w)).

(** [random.choice(seq)]: [IndexError] on an empty sequence, else the element
    at the index drawn from the tape. *)
Definition random_choice {A} (l : list A) : M World A :=
  w ← get;
  match l with
  | [] => raise IndexError
  | _ =>
      put (set_tape (tail (tape w)) w);;
      try_index (drawn (tape w) l)
  end.

(** [[f(x) for x in l]] *)
Fixpoint for_each {A B} (f : A → M World B) (l : list A) : M World (list B) :=
  match l with
  | [] => mret []
  | x :: l' => y ← f x; ys ← for_each f l'; mret (y :: ys)
  end.

(** [FixedTupleSpace.sample()] of tictactoe.py, on the attribute [space]:
    one [random.choice] for each component. It draws from the random
    generator of the process, the one the engine draws from. *)
Definition sample (space : list (list Z)) : M World (list Z) :=
  for_each random_choice space.

(** The player that [backpropagation] credits: the winner it is given, or
    for a draw the player that [random.choice] draws. *)
Definition credited_player (w : World) (winner : option string) : option string :=
  match winner with
  | Some p => Some p
  | None => drawn (tape w) (g_players (game w))
  end.

(** [State(game, observation, reward, done, player)]. The identifier and
    the children are computed from what the array reads at the call; the
    state keeps the array. *)
Definition State_init (observation : board) (reward : Z) (done : bool)
    (player : option string) : M World State :=
  w ← get;
  let identifier := g_state (game w) observation player in
  next_nodes ← for_each (λ a, alloc (Node_init (Some a) None None))
                        (g_actions (game w) observation);
  mret (mkState identifier observation reward done player next_nodes).

(** A write of the caller into an array it has passed to [act]. The states
    of the roots that [act] built around that array (the nodes [holders])
    refer to it, so they now read the array's new content [b]; their
    [identifier] and their [next_nodes], which [__init__] computed from the
    old content, are what they were, and so is the tree. In run.py the
    array is the one [TicTacToe.reset()] returns, the game's own
    [observation_space] (tictactoe.py:48), and the writes are those of
    [TicTacToe.step] (tictactoe.py:71). *)
Definition set_array (b : board) (n : Node) : Node :=
  mkNode (action n)
         ((λ s, mkState (identifier s) b (reward s) (done s) (player s)
                        (next_nodes s)) <$> state n)
         (parent n) (visit_count n) (accumulated_reward n).
Definition array_written (holders : list nat) (b : board) (w : World) : World :=
  set_heap (imap (λ i n, if decide (i ∈ holders) then set_array b n else n)
                 (heap w)) w.

(** [register(node)] *)
Definition register (node : nat) : M World unit :=
  n ← read node;
  s ← try_attr (state n);
  modify (λ w, set_tree
                 (<[g_state (game w) (observation s) (player s) := node]> (tree w)) w).

(** Every key of the tree leads to a node whose state has the key as its
    identifier. *)
Definition tree_keyed (w : World) : Prop :=
  ∀ k i, tree w !! k = Some i → ident (heap w) i = Some k.

(** [randomax(elements, key)]: the candidates, then [random.choice]. *)
Definition randomax {A V} (gt eq : V → V → bool) (key : A → M World V)
    (elements : list A) : M World A :=
  candidates ← randomax_loop gt eq key elements [] None;
  random_choice candidates.

(** *** The four phases *)

Section Search.
(** [np.log], the platform's natural logarithm on binary64. *)
Variable np_log : float → float.

(** [UCB1(node, c)] *)
Definition UCB1 (c : float) (node : nat) : M World float :=
  n ← read node;
  (if visit_count n =? 0 then raise ZeroDivisionError else mret tt);;
  let exploit := (accumulated_reward n / float_of_Z (visit_count n))%float in
  p ← try_attr (parent n);
  pn ← read p;
  mret (exploit
        + c * PrimFloat.sqrt (np_log (float_of_Z (visit_count pn))
                              / float_of_Z (visit_count n)))%float.

(** The default of the parameter [c]. *)
Definition c_default : float := 0x1.68f5c28f5c28fp+0%float.

(** [node.is_expanded] *)
Definition is_expanded (node : nat) : M World bool :=
  n ← read node;
  s ← try_attr (state n);
  evaluated ← for_each (λ a, is_evaluated <$> read a) (next_nodes s);
  mret (forallb id evaluated).

(** The [while] loop of [selection]; [fuel] bounds its iterations. *)
Fixpoint selection_loop (fuel : nat) (node : nat) : M World nat :=
  match fuel with
  | O => out_of_fuel
  | S fuel' =>
      n ← read node;
      s ← try_attr (state n);
      if done s then mret node
      else
        expanded ← is_expanded node;
        if (expanded : bool) then
          node' ← randomax (λ value best, PrimFloat.ltb best value)
                           PrimFloat.eqb (UCB1 c_default) (next_nodes s);
          selection_loop fuel' node'
        else mret node
  end.

(** [selection(node)] *)
Definition selection (fuel : nat) (node : nat) : M World (option nat * nat) :=
  node ← selection_loop fuel node;
  n ← read node;
  s ← try_attr (state n);
  if done s then mret (parent n, node)
  else
    flags ← for_each (λ a, (λ x, (a, is_evaluated x)) <$> read a) (next_nodes s);
    child ← random_choice (fst <$> filter (λ af, af.2 = false) flags);
    mret (Some node, child).

(** [expansion(node, next_node)] *)
Definition expansion (node : option nat) (next_node : nat) : M World nat :=
  nn ← read next_node;
  match state nn with
  | Some _ => mret next_node
  | None =>
      p ← try_attr node;
      pn ← read p;
      ps ← try_attr (state pn);
      with_game (g_reset (player ps) (Some (observation ps)));;
      '(observation, reward, done, player) ←
        with_game (g_step (player ps) (action nn));
      s ← State_init observation reward done player;
      nn ← read next_node;
      write next_node (set_state_parent s node nn);;
      register next_node;;
      mret next_node
  end.

(** The [while not done] loop of [simulation]. *)
Fixpoint simulation_loop (fuel : nat) (observation : board) (reward : Z)
    (done : bool) (player : option string) : M World (option string * Z) :=
  if done then mret (player, reward)
  else match fuel with
       | O => out_of_fuel
       | S fuel' =>
           w ← get;
           a ← random_choice (g_actions (game w) observation);
           '(observation, reward, done, player) ←
             with_game (g_step player (Some a));
           simulation_loop fuel' observation reward done player
       end.

(** [simulation(node)] *)
Definition simulation (fuel : nat) (node : nat) : M World (option string * Z) :=
  n ← read node;
  s ← try_attr (state n);
  simulation_loop fuel (observation s) (reward s) (done s) (player s).

(** [node != root_node]: [Node.__eq__] compares the states, [State.__eq__]
    their identifiers; comparing a state with [None] reads [None.identifier]. *)
Definition node_ne (node root_node : nat) : M World bool :=
  n ← read node;
  r ← read root_node;
  match state n, state r with
  | Some s, Some t => mret (negb (identifier s =? identifier t))
  | None, None => mret false
  | _, _ => raise AttributeError
  end.

(** The [while node != root_node] loop of [backpropagation]. *)
Fixpoint backpropagation_loop (fuel : nat) (node root_node : nat)
    (winner : string) (reward : Z) : M World unit :=
  match fuel with
  | O => out_of_fuel
  | S fuel' =>
      ne ← node_ne node root_node;
      if (ne : bool) then
        n ← read node;
        write node (set_counters (visit_count n + 1) (accumulated_reward n) n);;
        n ← read node;
        p ← try_attr (parent n);
        pn ← read p;
        ps ← try_attr (state pn);
        n ← read node;
        (if bool_decide (player ps = Some winner)
         then write node (set_counters (visit_count n)
                            (accumulated_reward n + float_of_Z reward)%float n)
         else write node (set_counters (visit_count n)
                            (accumulated_reward n - float_of_Z reward)%float n));;
        n ← read node;
        p ← try_attr (parent n);
        backpropagation_loop fuel' p root_node winner reward
      else mret tt
  end.

(** [backpropagation(node, root_node, winner, reward)] *)
Definition backpropagation (fuel : nat) (node root_node : nat)
    (winner : option string) (reward : Z) : M World unit :=
  winner ← match winner with
           | None => w ← get; random_choice (g_players (game w))
           | Some p => mret p
           end;
  backpropagation_loop fuel node root_node winner reward.

(** [run(root_node, observation)] *)
Definition run (fuel : nat) (root_node : nat) : M World unit :=
  '(parent_node, selected_node) ← selection fuel root_node;
  expansion parent_node selected_node;;
  '(winner, reward) ← simulation fuel selected_node;
  backpropagation fuel selected_node root_node winner reward.

(** [play(root_node)] *)
Definition play (root_node : nat) : M World (option (list Z)) :=
  r ← read root_node;
  s ← try_attr (state r);
  next_node ← randomax Z.gtb Z.eqb (λ x, visit_count <$> read x) (next_nodes s);
  action <$> read next_node.

(** The [while] loop of [act]: the clock lets [iterations] rounds start. *)
Fixpoint run_n (iterations fuel : nat) (root_node : nat) : M World unit :=
  match iterations with
  | O => mret tt
  | S k => run fuel root_node;; run_n k fuel root_node
  end.

(** The first half of [act]: the root node for an observation. *)
Definition root_for (observation : board) : M World nat :=
  w ← get;
  root_state ← State_init observation 0 false (self_player w);
  w ← get;
  match tree w !! g_state (game w) (observation) (self_player w) with
  | Some root_node => mret root_node
  | None =>
      root_node ← alloc (Node_init None (Some root_state) None);
      register root_node;;
      mret root_node
  end.

(** [act(observation)] *)
Definition act (iterations fuel : nat) (observation : board)
    : M World (option (list Z)) :=
  root_node ← root_for observation;
  run_n iterations fuel root_node;;
  play root_node.

End Search.

(** *** dumps and loads *)

(** Modelled from the spec: the persisted form that [pickle.dump] writes and
    [pickle.load] reads. [pickle] is the Python library's, not this
    repository's. The specification asks of the persisted form that it
    keeps the mapping from keys to nodes with their nested states and
    children, and that references between nodes, the cyclic [parent] ones
    included, are representable, for instance by index: here it is the
    mapping together with the objects of the store, references being
    indices into it (pickle writes the reachable objects only; the others
    cannot be seen from the mapping). *)
Record pickled := mkPickled {
  p_tree : gmap Z nat;
  p_heap : list Node
}.

(** Modelled from the spec: the reference to the copy that loading makes of
    object [i], when the copies are allocated behind [off] objects. *)
Definition relocate (off : nat) (i : nat) : nat := (off + i)%nat.

(** Modelled from the spec: the copy of a state, with the references to its
    children moved. *)
Definition relocate_state (off : nat) (s : State) : State :=
  mkState (identifier s) (observation s) (reward s) (done s) (player s)
          (relocate off <$> next_nodes s).

(** Modelled from the spec: the copy of a node, with the same counters and
    the references to its parent and children moved. *)
Definition relocate_node (off : nat) (n : Node) : Node :=
  mkNode (action n) (relocate_state off <$> state n) (relocate off <$> parent n)
         (visit_count n) (accumulated_reward n).

(** Modelled from the spec: [pickle.dump(tree, file)]. *)
Definition pickle_dump (t : gmap Z nat) (h : list Node) : pickled :=
  mkPickled t h.

(** Modelled from the spec: [pickle.load(file)] in a process that holds
    [off] objects: a copy of every saved object is allocated behind them. *)
Definition pickle_load (p : pickled) (off : nat) : gmap Z nat * list Node :=
  (relocate off <$> p_tree p, relocate_node off <$> p_heap p).

(** [dumps(filename)]: the file system after the call. *)
Definition dumps (filename : string) (w : World) (disk : gmap string pickled)
    : gmap string pickled :=
  <[filename := pickle_dump (tree w) (heap w)]> disk.

(** [loads(filename)] *)
Definition loads (filename : string) (disk : gmap string pickled) : M World unit :=
  λ w, match disk !! filename with
       | None => (w, Raise FileNotFoundError)
       | Some p =>
           let '(t, h) := pickle_load p (length (heap w)) in
           (set_tree t (set_heap (heap w ++ h) w), Ok tt)
       end.

End Engine.
End MCTS.

(** ** players.py *)

Module Players.

Import TicTacToe MCTS.

(** The strategies read the observation only; the attributes of
    [BasePlayer] ([game], [token], [score]) are not read by [act]. The
    [MCTS] player hands the observation to [MCTS.act]. *)

(** [observation.shape] of a two-dimensional array. *)
Definition shape (observation : board) : nat * nat :=
  (length observation, default 0%nat (length <$> head observation)).

(** [Iterate.act], the loop [for j in range(observation.shape[1])] for a
    row [i]: the first empty cell of the row, [None] when the loop ends
    without a [return]. *)
Fixpoint Iterate_row (observation : board) (i : nat) (js : list nat)
    : res (option (list Z)) :=
  match js with
  | [] => Ok None
  | j :: js' =>
      match np_getitem2 observation (Z.of_nat i) (Z.of_nat j) with
      | Ok None => Ok (Some [Z.of_nat i; Z.of_nat j])
      | Ok (Some _) => Iterate_row observation i js'
      | Raise e => Raise e
      | OutOfFuel => OutOfFuel
      end
  end.

(** The loop [for i in range(observation.shape[0])]. *)
Fixpoint Iterate_rows (observation : board) (rows js : list nat)
    : res (option (list Z)) :=
  match rows with
  | [] => Ok None
  | i :: rows' =>
      match Iterate_row observation i js with
      | Ok None => Iterate_rows observation rows' js
      | r => r
      end
  end.

(** [Iterate.act(observation)]; a function that ends without [return]
    gives [None]. *)
Definition Iterate_act (observation : board) : res (option (list Z)) :=
  Iterate_rows observation (seq 0 (shape observation).1)
                           (seq 0 (shape observation).2).

(** [Random.act(observation)]: [random.choice] among the coordinates that
    [np.where(observation == None)] lists, the list that
    [TicTacToe.actions] builds. *)
Definition Random_act {G} (observation : board) : M (@World G) (list Z) :=
  random_choice (actions observation).

End Players.

(** ** Concrete runs

    The engine on a 2 x 2 board, with [positional_digest] for the hash, a
    fixed tape of draws, and a stand-in for the logarithm (its first-order
    expansion at 1): the statements proved below hold for every choice of
    these three; the concrete ones serve to run the model. *)

Module Demo.
Import TicTacToe MCTS.

Definition demo_log (x : float) : float := (x - 1)%float.
Definition demo_game : GameAdapter TicTacToe :=
  tictactoe_adapter positional_digest.
Definition demo_tape : list nat :=
  [3; 1; 4; 1; 5; 9; 2; 6; 5; 3; 5; 8; 9; 7; 9; 3; 2; 3; 8; 4; 6]%nat.
Definition demo_world : @World TicTacToe :=
  @MCTS_init _ demo_game (init 2) (Some "X"%string) demo_tape.

(** The world after [act] ran six iterations from the empty board. *)
Definition searched_world : @World TicTacToe :=
  Eval vm_compute in (@act _ demo_game demo_log 6 50 (np_full 2) demo_world).1.

(** Two of its nodes: the first child of the root, and the root. *)
Definition first_child : Node :=
  Eval vm_compute in
    default (Node_init None None None) (heap searched_world !! 0%nat).
Definition searched_root : Node :=
  Eval vm_compute in
    default (Node_init None None None) (heap searched_world !! 4%nat).

(** The world in which [act] has built the root for the empty board, and
    the world after six iterations from that root. *)
Definition rooted_world : @World TicTacToe :=
  Eval vm_compute in (@root_for _ demo_game (np_full 2) demo_world).1.
Definition rooted_root : Node :=
  Eval vm_compute in
    default (Node_init None None None) (heap rooted_world !! 4%nat).
Definition rooted_state : State :=
  Eval vm_compute in default (mkState 0 [] 0 false None []) (state rooted_root).
Definition iterated_world : @World TicTacToe :=
  Eval vm_compute in (@run_n _ demo_game demo_log 6 50 4 rooted_world).1.

(** The world after thirty iterations from the empty board: the search has
    reached won positions. [won_board] is the observation of one of them
    (node 17), a win of "X", the engine's own player. *)
Definition late_world : @World TicTacToe :=
  Eval vm_compute in (@act _ demo_game demo_log 30 50 (np_full 2) demo_world).1.
Definition won_board : board :=
  [[Some "X"; Some "X"]; [Some "O"; None]]%string.
Definition won_node : Node :=
  Eval vm_compute in
    default (Node_init None None None) (heap late_world !! 17%nat).
Definition won_state : State :=
  Eval vm_compute in default (mkState 0 [] 0 false None []) (state won_node).

(** On the 3 x 3 board: a position where "X", to move, wins at [(0, 2)];
    the world after [act] searched it for five iterations (every child of
    the root is evaluated, the winning one is node 0); the won position;
    the world after a second [act] has looked up its root for the won
    position, and after one iteration from that root. *)
Definition near_win_board : board :=
  [[Some "X"; Some "X"; None]; [Some "O"; Some "O"; None];
   [None; None; None]]%string.
Definition won_board3 : board :=
  [[Some "X"; Some "X"; Some "X"]; [Some "O"; Some "O"; None];
   [None; None; None]]%string.
Definition first_search : @World TicTacToe :=
  Eval vm_compute in
    (@act _ demo_game demo_log 5 50 near_win_board
       (@MCTS_init _ demo_game (init 3) (Some "X"%string) demo_tape)).1.
Definition second_root : @World TicTacToe :=
  Eval vm_compute in (@root_for _ demo_game won_board3 first_search).1.
Definition second_iteration : @World TicTacToe :=
  Eval vm_compute in (@run _ demo_game demo_log 50 0 second_root).1.

(** A board with no empty cell, and the world in which [act] has built the
    root node for it: not terminal ([done] is [False] for every root) and
    without children. *)
Definition full_board : board :=
  [[Some "X"; Some "O"]; [Some "O"; Some "X"]]%string.
Definition degenerate_world : @World TicTacToe :=
  Eval vm_compute in (@root_for _ demo_game full_board demo_world).1.

(** A hash with one collision: the array of the board on which ["X"] has
    played [(0, 0)], seen by ["O"], gets the digest of the array of the
    empty board. With it, the world after [act] ran four iterations from
    the empty board (the root is node 4; its child node 0, the move
    [(0, 0)], has a state with the root's identifier) and [expansion] has
    given a state to node 11, a child of node 0. *)
Definition colliding_digest (a : list (list pyval)) : Z :=
  if decide (a = [[PyInt (-1); PyInt 0]; [PyInt 0; PyInt 0]])
  then positional_digest [[PyInt 0; PyInt 0]; [PyInt 0; PyInt 0]]
  else positional_digest a.
Definition collided_world : @World TicTacToe :=
  Eval vm_compute in
    (@expansion _ (tictactoe_adapter colliding_digest) (Some 0%nat) 11
       (@act _ (tictactoe_adapter colliding_digest) demo_log 4 50 (np_full 2)
          (@MCTS_init _ (tictactoe_adapter colliding_digest) (init 2)
             (Some "X"%string) demo_tape)).1).1.

(** The world after a first [act] of three iterations on the array of the
    empty board: the root is node 4, and its child node 2, the move
    [(1, 0)], is not evaluated. [act] returns the move [(0, 0)].
    [episode_board] is what the array reads at the end of the episode in
    which ["X"] plays [(0, 0)], ["O"] plays [(1, 0)] and ["X"] plays
    [(0, 1)]. *)
Definition first_episode_world : @World TicTacToe :=
  Eval vm_compute in (@act _ demo_game demo_log 3 50 (np_full 2) demo_world).1.
Definition episode_board : board :=
  [[Some "X"; Some "X"]; [Some "O"; None]]%string.

(** The state of the root after the six iterations, and a board on which
    ["X"] holds the diagonal. *)
Definition searched_state : State :=
  Eval vm_compute in default (mkState 0 [] 0 false None []) (state searched_root).
Definition diagonal_board : board :=
  [[Some "X"; Some "O"; None]; [None; Some "X"; Some "O"]; [None; None; Some "X"]]%string.

End Demo.

(** * Properties *)

Import TicTacToe MCTS Players Demo.

Ltac munfold :=
  unfold mbind, mret, fmap, M_bind, M_ret, M_fmap, bind, ret, get, put, modify,
    raise, out_of_fuel, try_index, try_attr in *.

(** ** The monad *)

Section MonadFacts.
Context {S : Type}.

Lemma bind_run {A B} (m : M S A) (f : A → M S B) s :
  (m ≫= f) s = match m s with
               | (s', Ok a) => f a s'
               | (s', Raise e) => (s', Raise e)
               | (s', OutOfFuel) => (s', OutOfFuel)
               end.
Proof. reflexivity. Qed.

Lemma bind_ok {A B} (m : M S A) (f : A → M S B) s s' b :
  (m ≫= f) s = (s', Ok b) → ∃ s1 a, m s = (s1, Ok a) ∧ f a s1 = (s', Ok b).
Proof.
  rewrite bind_run. destruct (m s) as [s1 [a|e|]]; [eauto|done|done].
Qed.

Lemma fmap_ok {A B} (g : A → B) (m : M S A) s s' b :
  (g <$> m) s = (s', Ok b) → ∃ a, m s = (s', Ok a) ∧ b = g a.
Proof.
  unfold fmap, M_fmap, bind, ret. destruct (m s) as [s1 [a|e|]]; [|done|done].
  intros [= -> <-]. eauto.
Qed.

Lemma try_attr_ok {A} (o : option A) (s s' : S) a :
  try_attr o s = (s', Ok a) → s' = s ∧ o = Some a.
Proof. destruct o; unfold try_attr, ret, raise; [by intros [= -> ->]|done]. Qed.

Lemma try_index_ok {A} (o : option A) (s s' : S) a :
  try_index o s = (s', Ok a) → s' = s ∧ o = Some a.
Proof. destruct o; unfold try_index, ret, raise; [by intros [= -> ->]|done]. Qed.
End MonadFacts.

(** ** TicTacToe.step *)

Section StepFacts.

(** [is_winner] reads the board only, and the one exception it can raise is
    the [IndexError] of a board smaller than [size]. *)
Lemma is_winner_frame token g :
  ∃ r, is_winner token g = (g, r) ∧ ∀ msg, r ≠ Raise (GameError msg).
Proof.
  unfold is_winner. munfold. simpl.
  assert (Hrows : ∀ n b l msg, is_winner_rows n b token l ≠ Raise (GameError msg)).
  { intros n b l msg. induction l as [|i l IH]; simpl; [done|].
    repeat case_match; try done. }
  destruct (is_winner_rows _ _ _ _) as [[]|e|] eqn:E; simpl.
  - eexists; split; [done|done].
  - repeat case_match; eexists; (split; [done|done]).
  - eexists; split; [done|]. intros msg [= ->]. by eapply Hrows.
  - eexists; split; [done|done].
Qed.

Lemma step_outcome_no_game_error p g g' msg :
  step_outcome p g ≠ (g', Raise (GameError msg)).
Proof.
  unfold step_outcome. munfold.
  destruct (is_winner_frame p g) as (r & -> & Hr).
  destruct r as [won|e|]; simpl; try done.
  intros [= _ ->]. by eapply Hr.
Qed.

(** C10. Whenever [step(player, move)] raises a [GameError], the game object
    (its board and its [current_player]) is exactly as it was before the
    call: every check that raises one comes before the write to the board. *)
Theorem step_atomic_on_error g player move g' msg :
  step player move g = (g', Raise (GameError msg)) → g' = g.
Proof.
  unfold step. munfold. simpl.
  destruct player as [p|]; [|by intros [= <-]].
  repeat case_match; try (by intros [= <-]); simpl.
  all: intros Hs; by apply step_outcome_no_game_error in Hs.
Qed.

Lemma step_atomic_on_error_witness :
  step (Some "O"%string) (Some [1; 1])
       (mkTicTacToe 3 (Some "O"%string)
          [[None; None; None]; [None; Some "X"%string; None]; [None; None; None]])
  = (mkTicTacToe 3 (Some "O"%string)
          [[None; None; None]; [None; Some "X"%string; None]; [None; None; None]],
     Raise (GameError "This movement has already been made."))
  ∧ mkTicTacToe 3 (Some "O"%string)
          [[None; None; None]; [None; Some "X"%string; None]; [None; None; None]]
    = mkTicTacToe 3 (Some "O"%string)
          [[None; None; None]; [None; Some "X"%string; None]; [None; None; None]].
Proof.
  split; [reflexivity|].
  apply (step_atomic_on_error _ (Some "O"%string) (Some [1; 1]) _
           "This movement has already been made.").
  reflexivity.
Defined.

(** C5, at the input where the code departs from it. The move [(-1, -1)]
    is outside the board's range [0..2], yet numpy reads a negative index
    from the end, so no [IndexError] is raised: [step] writes the token into
    cell [(2, 2)] and returns normally. *)
Theorem step_accepts_negative_index :
  step (Some "X"%string) (Some [-1; -1]) (init 3)
  = (mkTicTacToe 3 (Some "O"%string)
       [[None; None; None]; [None; None; None]; [None; None; Some "X"%string]],
     Ok ([[None; None; None]; [None; None; None]; [None; None; Some "X"%string]],
         0, false, Some "O"%string)).
Proof. reflexivity. Qed.

End StepFacts.

(** *** The moves that [step] refuses, and the others *)

Section StepCharacterized.

Lemma np_setitem2_length {A} (a : list (list A)) i j v :
  length (np_setitem2 a i j v) = length a.
Proof. unfold np_setitem2. repeat case_match; by rewrite ?length_insert. Qed.

Lemma np_setitem2_rows {A} (a : list (list A)) i j v n :
  Forall (λ row, length row = n) a →
  Forall (λ row, length row = n) (np_setitem2 a i j v).
Proof.
  intros Ha. unfold np_setitem2.
  destruct (np_norm_index (length a) i) as [r|e|]; [|done..].
  destruct (a !! r) as [row|] eqn:Hrow; [|done].
  destruct (np_norm_index (length row) j) as [c|e|]; [|done..].
  apply Forall_insert; [done|]. rewrite length_insert.
  by apply (Forall_lookup_1 (λ row, length row = n) a r row).
Qed.

Lemma column_square (b : board) n i :
  Forall (λ row, length row = n) b → (i < n)%nat → is_Some (column b i).
Proof.
  intros Hb Hi. unfold column. induction Hb as [|row b Hrow Hb IH]; [by eexists|].
  destruct IH as [col Hcol].
  destruct (lookup_lt_is_Some_2 row i) as [c Hc]; [lia|].
  exists (c :: col). simpl. rewrite Hc. simpl. by rewrite Hcol.
Qed.

Lemma is_winner_rows_square n (b : board) token l :
  length b = n → Forall (λ row, length row = n) b →
  Forall (λ i, (i < n)%nat) l →
  ∃ r, is_winner_rows n b token l = Ok r.
Proof.
  intros Hlen Hb. induction 1 as [|i l Hi _ IH]; cbn [is_winner_rows]; [by eexists|].
  destruct (b !! i) as [row|] eqn:Hrow; [|apply lookup_ge_None in Hrow; lia].
  destruct (check n row token); [by eexists|].
  destruct (column_square b n i Hb Hi) as [col ->].
  destruct (check n col token); [by eexists|done].
Qed.

Lemma is_winner_square token g :
  square g → ∃ won, is_winner token g = (g, Ok won).
Proof.
  intros [Hlen Hrows]. unfold is_winner. rewrite bind_run. cbn [get].
  destruct (is_winner_rows_square (size g) (observation_space g) token (seq 0 (size g)))
    as [r ->]; [done..| |].
  { apply Forall_forall. intros i ?%elem_of_seq. lia. }
  destruct r; [by eexists|]. repeat case_match; by eexists.
Qed.

Lemma step_outcome_square p g :
  square g → ∃ g' r, step_outcome p g = (g', Ok r).
Proof.
  intros Hsq. unfold step_outcome. rewrite bind_run.
  destruct (is_winner_square p g Hsq) as [won ->]. by eexists _, _.
Qed.

Lemma np_norm_index_cases n i :
  (in_range n i ∧ ∃ r, np_norm_index n i = Ok r ∧ (r < n)%nat)
  ∨ (¬ in_range n i ∧ 2 ^ 63 ≤ i < 2 ^ 64 ∧ np_norm_index n i = Raise OverflowError)
  ∨ (¬ in_range n i ∧ ¬ 2 ^ 63 ≤ i < 2 ^ 64 ∧ np_norm_index n i = Raise IndexError).
Proof.
  unfold np_norm_index, in_range.
  destruct ((0 <=? i) && (i <? Z.of_nat n)) eqn:E1.
  { apply andb_true_iff in E1 as [?%Z.leb_le ?%Z.ltb_lt].
    left. split; [lia|]. eexists. split; [done|]. lia. }
  destruct ((- Z.of_nat n <=? i) && (i <? 0)) eqn:E2.
  { apply andb_true_iff in E2 as [?%Z.leb_le ?%Z.ltb_lt].
    left. split; [lia|]. eexists. split; [done|]. lia. }
  assert (Hout : ¬ (- Z.of_nat n ≤ i < Z.of_nat n)).
  { apply andb_false_iff in E1 as [?%Z.leb_gt|?%Z.ltb_ge];
      apply andb_false_iff in E2 as [?%Z.leb_gt|?%Z.ltb_ge]; lia. }
  destruct ((2 ^ 63 <=? i) && (i <? 2 ^ 64)) eqn:E3.
  - apply andb_true_iff in E3 as [?%Z.leb_le ?%Z.ltb_lt]. right. left. done.
  - right. right. split; [done|]. split; [|done].
    apply andb_false_iff in E3 as [?%Z.leb_gt|?%Z.ltb_ge]; lia.
Qed.

Lemma np_getitem_cases {A} (a : list A) i :
  (in_range (length a) i ∧ ∃ x, np_getitem a i = Ok x ∧ x ∈ a)
  ∨ (¬ in_range (length a) i ∧ 2 ^ 63 ≤ i < 2 ^ 64
     ∧ np_getitem a i = Raise OverflowError)
  ∨ (¬ in_range (length a) i ∧ ¬ 2 ^ 63 ≤ i < 2 ^ 64
     ∧ np_getitem a i = Raise IndexError).
Proof.
  unfold np_getitem.
  destruct (np_norm_index_cases (length a) i)
    as [(Hin & r & -> & Hr)|[(Hout & Hov & ->)|(Hout & Hov & ->)]]; [|by auto..].
  left. split; [done|]. destruct (lookup_lt_is_Some_2 a r Hr) as [x Hx].
  exists x. rewrite Hx. split; [done|]. by eapply list_elem_of_lookup_2.
Qed.

(** X1. [step] on a board of the game's size: a [GameError], with the game
    untouched, exactly for the illegal moves; for a move that is not
    illegal, the [OverflowError] of numpy, with the game untouched, exactly
    when the subscript cannot convert an index; a result for the others. *)
Theorem step_outcome_characterized g player move :
  square g →
  (illegal g player move → ∃ msg, step player move g = (g, Raise (GameError msg)))
  ∧ (¬ illegal g player move → unconvertible g move →
     step player move g = (g, Raise OverflowError))
  ∧ (¬ illegal g player move → ¬ unconvertible g move →
     ∃ g' r, step player move g = (g', Ok r)).
Proof.
  intros Hsq. unfold step. rewrite bind_run. cbn [get].
  destruct player as [p|]; [|split; [by eexists|split; intros []; by left]].
  destruct (bool_decide (p ∈ players)) eqn:Hp; simpl;
    [apply bool_decide_eq_true in Hp|apply bool_decide_eq_false in Hp].
  2:{ split; [by eexists|]. split; intros []; left; by intros ? [= <-]. }
  destruct (bool_decide (current_player g ≠ None ∧ Some p ≠ current_player g)) eqn:Ht;
    [apply bool_decide_eq_true in Ht|apply bool_decide_eq_false in Ht].
  { split; [by eexists|]. split; intros []; right; by left. }
  destruct move as [[|i [|j [|k mv]]]|];
    try (split; [by eexists|split; intros []; do 2 right; left; by intros ??]).
  assert (Hearly : illegal g (Some p) (Some [i; j]) →
    (∃ i' j', Some [i; j] = Some [i'; j']
       ∧ np_getitem2 (observation_space g) i' j' = Raise IndexError)
    ∨ (∃ i' j' c, Some [i; j] = Some [i'; j']
       ∧ np_getitem2 (observation_space g) i' j' = Ok c ∧ truthy c = true)).
  { intros [Hill|[Hill|[Hill|Hill]]]; [| |by destruct (Hill i j)|done].
    - by destruct (Hill p).
    - done. }
  destruct Hsq as [Hlen Hrows].
  unfold np_getitem2.
  destruct (np_getitem_cases (observation_space g) i)
    as [(Hi & row & Hrow & Hin)|[(Hi & Hov & Hrow)|(Hi & Hov & Hrow)]].
  - assert (Hrl : length row = size g).
    { by apply (proj1 (Forall_forall _ _) Hrows). }
    destruct (np_getitem_cases row j)
      as [(Hj & c & Hc & _)|[(Hj & Hovj & Hc)|(Hj & Hovj & Hc)]];
      rewrite Hrl in Hj.
    + destruct (truthy c) eqn:Hc'.
      * rewrite Hrow, Hc, Hc'. split; [by eexists|].
        split; intros []; do 4 right; exists i, j, c;
          unfold np_getitem2; by rewrite Hrow, Hc.
      * rewrite Hrow, Hc, Hc'. split; [|split].
        -- intros [(i' & j' & [= <- <-] & Hill)|(i' & j' & c' & [= <- <-] & Hg & Hill)]%Hearly;
             unfold np_getitem2 in *; rewrite Hrow, Hc in *; congruence.
        -- intros _ (i' & j' & [= <- <-] & [[Hno _]|(_ & Hno & _)]); done.
        -- intros _ _. rewrite bind_run. cbn [modify].
           apply step_outcome_square. split; simpl.
           ++ by rewrite np_setitem2_length.
           ++ by apply np_setitem2_rows.
    + rewrite Hrow, Hc. split; [|split].
      * intros [(i' & j' & [= <- <-] & Hill)|(i' & j' & c' & [= <- <-] & Hg & Hill)]%Hearly;
          unfold np_getitem2 in *; rewrite Hrow, Hc in *; congruence.
      * done.
      * intros _ []. exists i, j. split; [done|]. right. done.
    + rewrite Hrow, Hc. split; [by eexists|].
      split; intros []; do 3 right; left; exists i, j;
        unfold np_getitem2; by rewrite Hrow, Hc.
  - rewrite Hrow. split; [|split].
    + intros [(i' & j' & [= <- <-] & Hill)|(i' & j' & c' & [= <- <-] & Hg & Hill)]%Hearly;
        unfold np_getitem2 in *; rewrite Hrow in *; congruence.
    + done.
    + intros _ []. exists i, j. split; [done|]. left. done.
  - rewrite Hrow. split; [by eexists|].
    split; intros []; do 3 right; left; exists i, j;
      unfold np_getitem2; by rewrite Hrow.
Qed.

End StepCharacterized.

Lemma step_outcome_characterized_witness :
  (∃ msg, step (Some "X"%string) (Some [3; 0]) (init 3)
          = (init 3, Raise (GameError msg)))
  ∧ step (Some "X"%string) (Some [2 ^ 63; 0]) (init 3)
    = (init 3, Raise OverflowError)
  ∧ ∃ g' r, step (Some "X"%string) (Some [1; 1]) (init 3) = (g', Ok r).
Proof.
  assert (Hsq : square (init 3)) by (split; [reflexivity|repeat constructor]).
  assert (Hlegal : ∀ i j,
    np_getitem2 (observation_space (init 3)) i j ≠ Raise IndexError →
    (∀ c, np_getitem2 (observation_space (init 3)) i j = Ok c → truthy c = false) →
    ¬ illegal (init 3) (Some "X"%string) (Some [i; j])).
  { intros i j Hne Hfree
      [Hill|[[Hill _]|[Hill|[(i' & j' & [= <- <-] & Hill)|(i' & j' & c & [= <- <-] & Hg & Hill)]]]].
    - apply (Hill "X"%string); [done|]. apply elem_of_cons. by left.
    - by apply Hill.
    - by apply (Hill i j).
    - done.
    - rewrite (Hfree c Hg) in Hill. discriminate Hill. }
  split; [|split].
  - apply (step_outcome_characterized (init 3) (Some "X"%string) (Some [3; 0]) Hsq).
    do 3 right. left. exists 3, 0. split; reflexivity.
  - apply (step_outcome_characterized (init 3) (Some "X"%string) (Some [2 ^ 63; 0]) Hsq).
    + apply Hlegal; [discriminate|]. intros c Hc. discriminate Hc.
    + exists (2 ^ 63), 0. split; [done|]. left. unfold in_range. simpl. lia.
  - apply (step_outcome_characterized (init 3) (Some "X"%string) (Some [1; 1]) Hsq).
    + apply Hlegal; [discriminate|]. by intros c [= <-].
    + intros (i & j & [= <- <-] & [[Hno _]|(_ & Hno & _)]);
        apply Hno; unfold in_range; simpl; lia.
Defined.

(** ** TicTacToe.actions and is_finished *)

Section ActionsFacts.

Lemma empty_cell_in_actions (obs : board) i j row :
  obs !! i = Some row → row !! j = Some None →
  [Z.of_nat i; Z.of_nat j] ∈ actions obs.
Proof.
  intros Hi Hj. unfold actions. apply list_elem_of_In, in_concat.
  exists (row_where i row). split.
  - apply list_elem_of_In. by apply (elem_of_lookup_imap_2 row_where).
  - apply list_elem_of_In. unfold row_where. apply list_elem_of_omap.
    exists (j, None). split; [|done].
    by apply (elem_of_lookup_imap_2 pair).
Qed.

Lemma actions_sound (obs : board) a :
  a ∈ actions obs →
  ∃ i j row, a = [Z.of_nat i; Z.of_nat j] ∧ obs !! i = Some row ∧ row !! j = Some None.
Proof.
  unfold actions. intros Ha. apply list_elem_of_In, in_concat in Ha.
  destruct Ha as (l & Hl & Ha). apply list_elem_of_In in Hl, Ha.
  apply elem_of_lookup_imap_1 in Hl as (i & row & -> & Hi).
  unfold row_where in Ha. apply list_elem_of_omap in Ha as ([j c] & Hjc & Hc).
  apply elem_of_lookup_imap_1 in Hjc as (j' & c' & [= -> ->] & Hj).
  destruct c'; [done|]. injection Hc as <-. eauto 6.
Qed.

Lemma board_finished_spec (b : board) :
  board_finished b = true ↔ ∀ row, row ∈ b → None ∉ row.
Proof.
  unfold board_finished. rewrite forallb_forall. split.
  - intros Hb row Hrow Hin. apply list_elem_of_In in Hrow.
    specialize (Hb row Hrow). rewrite forallb_forall in Hb.
    apply list_elem_of_In in Hin. specialize (Hb None Hin).
    by apply bool_decide_eq_true in Hb.
  - intros Hb row Hrow. apply forallb_forall. intros c Hc.
    apply bool_decide_eq_true. intros ->.
    apply (Hb row); by apply list_elem_of_In.
Qed.

(** C9. If [actions(observation)] is the empty list, then no cell of the
    observation is [None], and a game whose board is that observation
    reports [is_finished]. *)
Theorem actions_empty_only_when_finished (obs : board) :
  actions obs = [] →
  (∀ row, row ∈ obs → None ∉ row)
  ∧ ∀ g, observation_space g = obs → is_finished g = true.
Proof.
  intros Hnil.
  assert (Hfull : ∀ row, row ∈ obs → None ∉ row).
  { intros row Hrow Hnone.
    apply list_elem_of_lookup in Hrow as [i Hi].
    apply list_elem_of_lookup in Hnone as [j Hj].
    pose proof (empty_cell_in_actions obs i j row Hi Hj) as Hin.
    rewrite Hnil in Hin. by apply not_elem_of_nil in Hin. }
  split; [done|]. intros g <-. by apply board_finished_spec.
Qed.

Lemma actions_empty_only_when_finished_witness :
  actions [[Some "X"; Some "O"]; [Some "O"; Some "X"]]%string = []
  ∧ is_finished (mkTicTacToe 2 None
                   [[Some "X"; Some "O"]; [Some "O"; Some "X"]]%string) = true.
Proof.
  split; [reflexivity|].
  apply (actions_empty_only_when_finished
           [[Some "X"; Some "O"]; [Some "O"; Some "X"]]%string);
    reflexivity.
Defined.

End ActionsFacts.

(** ** TicTacToe.state *)

Section StateFacts.

Variable xxh64 : list (list pyval) → Z.

Lemma switch_player_X : _switch_player (Some "X"%string) = "O"%string.
Proof. reflexivity. Qed.
Lemma switch_player_O : _switch_player (Some "O"%string) = "X"%string.
Proof. reflexivity. Qed.

(** The three masked assignments of [state], cell by cell. *)
Lemma normalize_cellwise obs player :
  normalize obs player =
  map (map (λ c : cell,
    let v1 := if decide (of_cell c = player_val player) then PyInt 1 else of_cell c in
    let v2 := if decide (v1 = PyStr (_switch_player player)) then PyInt (-1) else v1 in
    if decide (v2 = PyNone) then PyInt 0 else v2)) obs.
Proof.
  unfold normalize, mask_assign. rewrite !map_map.
  apply map_ext. intros row. by rewrite !map_map.
Qed.

Lemma players_distinct_pair p q :
  p ∈ players → q ∈ players → p ≠ q →
  (p = "X" ∧ q = "O")%string ∨ (p = "O" ∧ q = "X")%string.
Proof.
  unfold players. rewrite !elem_of_cons, !elem_of_nil.
  intros [->|[->|[]]] [->|[->|[]]] Hne; auto; done.
Qed.

(** [state] rewrites the array of a mover [p] with opponent [q] into the
    three classes. *)
Lemma normalize_classes (obs : board) (p q : string) :
  p ∈ players → q ∈ players → p ≠ q →
  normalize obs (Some p) = map (map (three_classes p q)) obs.
Proof.
  intros Hp Hq Hpq. rewrite normalize_cellwise.
  apply map_ext. intros row. apply map_ext. intros c.
  destruct (players_distinct_pair p q Hp Hq Hpq) as [[-> ->]|[-> ->]];
    rewrite ?switch_player_X, ?switch_player_O; unfold three_classes;
    destruct c as [s|]; simpl; [|done| |done];
    repeat case_decide; by simplify_eq/=.
Qed.

Lemma three_classes_swap (p q : string) (c : cell) :
  p ≠ q → three_classes q p (swap_cell p q c) = three_classes p q c.
Proof.
  intros Hpq. unfold three_classes, swap_cell. destruct c as [s|]; [|done].
  repeat case_decide; by simplify_eq/=.
Qed.

(** C6. For two distinct player tokens [p] and [q]: [state] rewrites the
    observation into the three classes (the cells of the mover, of the
    opponent, the empty ones) and the key is the hash of the rewritten
    array; the observation with [p] to move and the observation with the
    two tokens exchanged and [q] to move are rewritten into the same array,
    and so have the same key. *)
Theorem state_perspective (obs : board) (p q : string) :
  p ∈ players → q ∈ players → p ≠ q →
  normalize obs (Some p) = map (map (three_classes p q)) obs
  ∧ normalize (swap_tokens p q obs) (Some q) = map (map (three_classes p q)) obs
  ∧ TicTacToe.state xxh64 obs (Some p) = xxh64 (map (map (three_classes p q)) obs)
  ∧ TicTacToe.state xxh64 obs (Some p)
    = TicTacToe.state xxh64 (swap_tokens p q obs) (Some q).
Proof.
  intros Hp Hq Hpq.
  assert (Hswap : normalize (swap_tokens p q obs) (Some q)
                  = map (map (three_classes p q)) obs).
  { rewrite (normalize_classes _ q p) by done. unfold swap_tokens.
    rewrite map_map. apply map_ext. intros row. rewrite map_map.
    apply map_ext. intros c. by apply three_classes_swap. }
  split; [by apply normalize_classes|]. split; [done|].
  unfold TicTacToe.state. rewrite Hswap, (normalize_classes obs p q) by done. done.
Qed.

End StateFacts.

Lemma state_perspective_witness :
  normalize [[Some "X"; None]; [Some "O"; Some "X"]]%string (Some "X"%string)
  = [[PyInt 1; PyInt 0]; [PyInt (-1); PyInt 1]]
  ∧ normalize (swap_tokens "X" "O" [[Some "X"; None]; [Some "O"; Some "X"]]%string)
      (Some "O"%string)
    = [[PyInt 1; PyInt 0]; [PyInt (-1); PyInt 1]]
  ∧ TicTacToe.state positional_digest
      [[Some "X"; None]; [Some "O"; Some "X"]]%string (Some "X"%string)
    = positional_digest [[PyInt 1; PyInt 0]; [PyInt (-1); PyInt 1]]
  ∧ TicTacToe.state positional_digest
      [[Some "X"; None]; [Some "O"; Some "X"]]%string (Some "X"%string)
    = TicTacToe.state positional_digest
        (swap_tokens "X" "O" [[Some "X"; None]; [Some "O"; Some "X"]]%string)
        (Some "O"%string).
Proof.
  apply (state_perspective positional_digest
           [[Some "X"; None]; [Some "O"; Some "X"]]%string "X" "O").
  - unfold players. apply elem_of_cons. by left.
  - unfold players. apply elem_of_cons. right. apply elem_of_cons. by left.
  - discriminate.
Defined.

(** ** randomax *)

(** C1, at an input where the code departs from it. On the keys 1, 2, 2
    the element that raises the maximum is put in the candidate list by the
    [value > best_value] branch and once more by the [value == best_value]
    test that follows it (an [if], not an [elif]): the list handed to
    [random.choice] holds ["b"] twice and ["c"] once. *)
Theorem randomax_counts_new_maximum_twice :
  randomax_loop Z.gtb Z.eqb (λ x : string * Z, mret x.2)
    [("a", 1); ("b", 2); ("c", 2)]%string [] None tt
  = (tt, Ok [("b", 2); ("b", 2); ("c", 2)]%string).
Proof. reflexivity. Qed.

(** *** The candidates, as a set *)

Section RandomaxFacts.
Context {S A : Type}.
Variable key : A → Z.

Lemma key_max_ge b elements : b ≤ key_max key b elements.
Proof.
  revert b. induction elements as [|e elements IH]; intros b; simpl; [lia|].
  specialize (IH (Z.max b (key e))). lia.
Qed.

Lemma key_max_bound b elements y : y ∈ elements → key y ≤ key_max key b elements.
Proof.
  revert b. induction elements as [|e elements IH]; intros b; simpl.
  - by intros ?%elem_of_nil.
  - intros [->|Hy]%elem_of_cons; [|by apply IH].
    pose proof (key_max_ge (Z.max b (key e)) elements). lia.
Qed.

Lemma key_max_attained b elements :
  key_max key b elements = b ∨ ∃ y, y ∈ elements ∧ key y = key_max key b elements.
Proof.
  revert b. induction elements as [|e elements IH]; intros b; simpl; [by left|].
  destruct (IH (Z.max b (key e))) as [Heq|(y & Hy & Heq)].
  - destruct (Z.max_spec b (key e)) as [[_ Hm]|[_ Hm]].
    + right. exists e. split; [by left|]. unfold key_max in *. simpl. lia.
    + left. unfold key_max in *. lia.
  - right. exists y. split; [by right|done].
Qed.

Lemma randomax_loop_from (s : S) elements : ∀ cands b,
  ∃ out, randomax_loop Z.gtb Z.eqb (λ x, mret (key x)) elements cands (Some b) s
         = (s, Ok out)
    ∧ ∀ x, x ∈ out ↔ (x ∈ cands ∧ b = key_max key b elements)
                     ∨ (x ∈ elements ∧ key x = key_max key b elements).
Proof.
  induction elements as [|e elements IH]; intros cands b.
  - exists cands. split; [done|]. intros x. simpl. rewrite elem_of_nil. tauto.
  - cbn [randomax_loop]. rewrite bind_run. cbn [mret M_ret ret default from_option]. unfold id.
    simpl key_max. pose proof (key_max_ge (Z.max b (key e)) elements) as Hge.
    destruct (Z.gtb_spec (key e) b) as [Hgt|Hle].
    + cbv beta iota zeta. rewrite Z.eqb_refl.
      destruct (IH ([e] ++ [e]) (key e)) as (out & -> & Hout).
      exists out. split; [done|]. intros x. rewrite Hout.
      replace (Z.max b (key e)) with (key e) by lia.
      rewrite !elem_of_cons, elem_of_app, !elem_of_cons, !elem_of_nil.
      replace (Z.max b (key e)) with (key e) in Hge by lia.
      split; [intros [[[[->|[]]|[->|[]]] ?]|[? ?]]; auto|].
      intros [[_ ?]|[[->|?] ?]]; [lia|auto..].
    + cbv beta iota zeta. destruct (Z.eqb_spec (key e) b) as [Heq|Hne].
      * destruct (IH (cands ++ [e]) b) as (out & -> & Hout).
        exists out. split; [done|]. intros x. rewrite Hout.
        replace (Z.max b (key e)) with b by lia.
        rewrite elem_of_app, !elem_of_cons, elem_of_nil.
        split; [intros [[[?|[->|[]]] ?]|[? ?]]; auto; right; split; auto; lia|].
        intros [[? ?]|[[->|?] ?]]; auto. left. split; [auto|lia].
      * destruct (IH cands b) as (out & -> & Hout).
        exists out. split; [done|]. intros x. rewrite Hout.
        replace (Z.max b (key e)) with b by lia.
        replace (Z.max b (key e)) with b in Hge by lia.
        rewrite elem_of_cons. split; [intros [[? ?]|[? ?]]; auto|].
        intros [[? ?]|[[->|?] ?]]; auto. lia.
Qed.

(** X2. What [randomax] hands to [random.choice] for an integer key: the
    elements of greatest key and nothing else (each at least once; an
    element can be there twice). *)
Theorem randomax_candidates_are_maxima (s : S) (elements : list A) :
  ∃ out, randomax_loop Z.gtb Z.eqb (λ x, mret (key x)) elements [] None s
         = (s, Ok out)
    ∧ ∀ x, x ∈ out ↔ x ∈ elements ∧ ∀ y, y ∈ elements → key y ≤ key x.
Proof.
  destruct elements as [|e elements].
  - exists []. split; [done|]. intros x. rewrite elem_of_nil. tauto.
  - cbn [randomax_loop]. rewrite bind_run. cbn [mret M_ret ret default from_option]. unfold id.
    rewrite Z.gtb_ltb, Z.ltb_irrefl, Z.eqb_refl.
    destruct (randomax_loop_from s elements ([] ++ [e]) (key e)) as (out & -> & Hout).
    exists out. split; [done|]. intros x. rewrite Hout. clear Hout.
    pose proof (key_max_ge (key e) elements) as Hge.
    assert (Hb : ∀ y, y ∈ e :: elements → key y ≤ key_max key (key e) elements).
    { intros y [->|Hy]%elem_of_cons; [done|]. by apply key_max_bound. }
    simpl. split.
    + intros [[Hx Hm]|[Hx Hm]].
      * apply list_elem_of_singleton in Hx as ->.
        split; [by left|]. intros y Hy. rewrite Hm. by apply Hb.
      * split; [by right|]. intros y Hy. rewrite Hm. by apply Hb.
    + intros [Hx Hmax].
      assert (Hm : key x = key_max key (key e) elements).
      { apply Z.le_antisymm; [by apply Hb|].
        destruct (key_max_attained (key e) elements) as [->|(y & Hy & <-)].
        - apply Hmax. by left.
        - apply Hmax. by right. }
      apply elem_of_cons in Hx as [->|Hx]; [left|right]; split; try done.
      by apply list_elem_of_singleton.
Qed.

End RandomaxFacts.

(** ** UCB1, and nodes without legal actions *)

Section ScoreFacts.
Context {G : Type} `{GameAdapter G}.
Variable np_log : float → float.

(** C7. For a node with a parent and a non-zero visit count, [UCB1]
    returns the closed form of the specification on the node's
    [accumulated_reward] and [visit_count] and the parent's [visit_count],
    and leaves the world as it is; the default of [c] is the binary64
    number nearest to 1.41. *)
Theorem UCB1_closed_form (w : @World G) (c : float) (node p : nat) (n pn : Node) :
  heap w !! node = Some n → parent n = Some p → heap w !! p = Some pn →
  visit_count n ≠ 0 →
  UCB1 np_log c node w
  = (w, Ok (ucb1_score np_log (accumulated_reward n) (visit_count n)
              (visit_count pn) c))
  ∧ c_default = (141 / 100)%float.
Proof.
  intros Hn Hp Hpn Hv. split; [|reflexivity].
  unfold UCB1, read. munfold. simpl. rewrite Hn. simpl.
  apply Z.eqb_neq in Hv. rewrite Hv. simpl. rewrite Hp. simpl. rewrite Hpn.
  reflexivity.
Qed.

(** C2, as the code has it. A node whose state is not terminal and has no
    child makes [selection] raise [IndexError] ([random.choice] on the empty
    candidate list), and a node whose state is not terminal and for which
    the game lists no action makes [simulation] raise [IndexError]; in both
    cases the world is left as it was. *)
Theorem degenerate_state_raises (w : @World G) (fuel node : nat) (n : Node)
    (s : State) :
  heap w !! node = Some n → state n = Some s → done s = false →
  (next_nodes s = [] →
     selection np_log (S fuel) node w = (w, Raise IndexError))
  ∧ (g_actions (game w) (observation s) = [] →
     simulation (S fuel) node w = (w, Raise IndexError)).
Proof.
  intros Hn Hs Hd. split; intros Hnil.
  - unfold selection. simpl. unfold is_expanded, randomax, random_choice, read.
    munfold. simpl. repeat (rewrite ?Hn, ?Hs, ?Hd, ?Hnil; simpl). reflexivity.
  - unfold simulation, read. munfold. simpl.
    repeat (rewrite ?Hn, ?Hs, ?Hd; simpl).
    unfold random_choice. munfold. simpl. rewrite Hnil. reflexivity.
Qed.

End ScoreFacts.

Lemma UCB1_closed_form_witness :
  @UCB1 TicTacToe demo_log c_default 0 searched_world
  = (searched_world,
     Ok (ucb1_score demo_log (accumulated_reward first_child)
           (visit_count first_child) (visit_count searched_root) c_default))
  ∧ c_default = (141 / 100)%float.
Proof.
  apply (@UCB1_closed_form TicTacToe demo_log searched_world c_default
           0%nat 4%nat first_child searched_root).
  - reflexivity.
  - reflexivity.
  - reflexivity.
  - discriminate.
Defined.

(** C2 fails on the root that [act] builds for a board without empty cell:
    its state is not terminal, it has no child, and [selection] raises. *)
Lemma degenerate_root_selection_raises :
  (done <$> (heap degenerate_world !! 0%nat ≫= state)) = Some false
  ∧ (next_nodes <$> (heap degenerate_world !! 0%nat ≫= state)) = Some []
  ∧ @selection TicTacToe demo_log 10 0 degenerate_world
    = (degenerate_world, Raise IndexError)
  ∧ (@act _ demo_game demo_log 1 10 full_board demo_world).2
    = Raise IndexError.
Proof. repeat split; vm_compute; reflexivity. Qed.

Lemma degenerate_state_raises_witness :
  @selection TicTacToe demo_log 1 0 degenerate_world
  = (degenerate_world, Raise IndexError)
  ∧ @simulation TicTacToe demo_game 1 0 degenerate_world
    = (degenerate_world, Raise IndexError).
Proof.
  destruct (@degenerate_state_raises TicTacToe demo_game demo_log
              degenerate_world 0%nat 0%nat _ _
              eq_refl eq_refl eq_refl) as [Hsel Hsim].
  split; [apply Hsel | apply Hsim]; reflexivity.
Defined.

(** ** The store *)

Section StoreFacts.
Context {G : Type} `{GameAdapter G}.
Implicit Types (w : @World G) (h : list Node).

Lemma read_run w i n : heap w !! i = Some n → read i w = (w, Ok n).
Proof. intros Hn. unfold read. rewrite bind_run. simpl. by rewrite Hn. Qed.

Lemma read_ok w i w' n : read i w = (w', Ok n) → w' = w ∧ heap w !! i = Some n.
Proof.
  unfold read. rewrite bind_run. simpl. intros Hr. by apply try_attr_ok in Hr.
Qed.

Lemma write_run w i n : write i n w = (set_heap (<[i := n]> (heap w)) w, Ok tt).
Proof. reflexivity. Qed.

Lemma same_links_refl h : same_links h h.
Proof. apply Forall_Forall2_diag, Forall_forall. auto. Qed.

Lemma same_links_trans h1 h2 h3 :
  same_links h1 h2 → same_links h2 h3 → same_links h1 h3.
Proof.
  unfold same_links. intros H12 H23. eapply Forall2_trans; [|done..].
  simpl. intros x y z (? & ? & ?) (? & ? & ?). repeat split; congruence.
Qed.

Lemma same_links_lookup h h' i n :
  same_links h h' → h !! i = Some n →
  ∃ n', h' !! i = Some n' ∧ action n = action n' ∧ state n = state n' ∧ parent n = parent n'.
Proof. intros Hl Hn. by eapply Forall2_lookup_l in Hl. Qed.

Lemma same_links_lookup_r h h' i n' :
  same_links h h' → h' !! i = Some n' →
  ∃ n, h !! i = Some n ∧ action n = action n' ∧ state n = state n' ∧ parent n = parent n'.
Proof. intros Hl Hn. by eapply Forall2_lookup_r in Hl. Qed.

Lemma same_links_counters h i n v a :
  h !! i = Some n → same_links h (<[i := set_counters v a n]> h).
Proof.
  intros Hn. unfold same_links.
  rewrite <- (list_insert_id h i n) at 1 by done.
  apply Forall2_insert; [apply same_links_refl|done].
Qed.

Lemma climbs_same_links h h' root node path :
  same_links h h' → climbs h root node path → climbs h' root node path.
Proof.
  intros Hl. induction 1 as [r t Hr Ht|node n s r t p pn ps path Hn Hs Hr Ht Hne Hp Hpn Hps _ IH].
  - destruct (same_links_lookup _ _ _ _ Hl Hr) as (r' & Hr' & _ & Hst & _).
    apply (climbs_root _ _ r' t); [done|congruence].
  - destruct (same_links_lookup _ _ _ _ Hl Hr) as (r' & Hr' & _ & Hst & _).
    destruct (same_links_lookup _ _ _ _ Hl Hn) as (n' & Hn' & _ & Hsn & Hpar).
    destruct (same_links_lookup _ _ _ _ Hl Hpn) as (pn' & Hpn' & _ & Hsp & _).
    apply (climbs_step _ _ node n' s r' t p pn' ps); try done; congruence.
Qed.

Lemma climbs_functional h root node l1 l2 :
  climbs h root node l1 → climbs h root node l2 → l1 = l2.
Proof.
  intros H1. revert l2.
  induction H1 as [r t Hr Ht|node n s r t p pn ps path Hn Hs Hr Ht Hne Hp Hpn Hps _ IH];
    intros l2 H2; inversion H2; simplify_eq; try done.
  f_equal. by apply IH.
Qed.

Lemma climbs_suffix h root node path x :
  climbs h root node path → x ∈ path →
  ∃ l1 l2, path = l1 ++ x :: l2 ∧ climbs h root x (x :: l2).
Proof.
  induction 1 as [|node n s r t p pn ps path Hn Hs Hr Ht Hne Hp Hpn Hps Hc IH].
  - by intros ?%elem_of_nil.
  - intros [->|Hx]%elem_of_cons.
    + exists [], path. split; [done|]. by eapply climbs_step.
    + destruct (IH Hx) as (l1 & l2 & -> & Hc'). by exists (node :: l1), l2.
Qed.

Lemma climbs_NoDup h root node path : climbs h root node path → NoDup path.
Proof.
  induction 1 as [|node n s r t p pn ps path Hn Hs Hr Ht Hne Hp Hpn Hps Hc IH].
  - constructor.
  - constructor; [|done]. intros Hin.
    destruct (climbs_suffix _ _ _ _ _ Hc Hin) as (l1 & l2 & -> & Hc').
    assert (Hc2 : climbs h root node (node :: l1 ++ node :: l2))
      by by eapply climbs_step.
    pose proof (climbs_functional _ _ _ _ _ Hc' Hc2) as Heq.
    apply (f_equal length) in Heq. simpl in Heq. rewrite length_app in Heq.
    simpl in Heq. lia.
Qed.

Lemma climbs_root_not_in h root node path : climbs h root node path → root ∉ path.
Proof.
  intros Hc Hin.
  destruct (climbs_suffix _ _ _ _ _ Hc Hin) as (l1 & l2 & _ & Hc').
  inversion Hc'; simplify_eq.
Qed.

End StoreFacts.

(** ** backpropagation *)

Section BackpropStep.
Context {G : Type} `{GameAdapter G}.
Implicit Types (w : @World G) (h : list Node).

Lemma parent_player_same_links h h' n :
  same_links h h' → parent_player h n = parent_player h' n.
Proof.
  intros Hl. unfold parent_player. destruct (parent n) as [p|]; [|done]. simpl.
  destruct (h !! p) as [pn|] eqn:Hp.
  - destruct (same_links_lookup _ _ _ _ Hl Hp) as (pn' & -> & _ & Hs & _).
    simpl. by rewrite Hs.
  - apply lookup_ge_None in Hp. rewrite (Forall2_length _ _ _ Hl) in Hp.
    apply lookup_ge_None in Hp. by rewrite Hp.
Qed.

Lemma set_heap_heap w : set_heap (heap w) w = w.
Proof. by destruct w. Qed.

Lemma set_heap_set_heap h1 h2 w : set_heap h2 (set_heap h1 w) = set_heap h2 w.
Proof. reflexivity. Qed.

Lemma node_ne_run w node root n r s t :
  heap w !! node = Some n → state n = Some s →
  heap w !! root = Some r → state r = Some t →
  node_ne node root w = (w, Ok (negb (identifier s =? identifier t))).
Proof.
  intros Hn Hs Hr Ht. unfold node_ne.
  rewrite bind_run, (read_run _ _ _ Hn), bind_run, (read_run _ _ _ Hr), Hs, Ht.
  reflexivity.
Qed.

(** One round of the loop on a node that differs from the root. *)
Lemma backpropagation_loop_step fuel w node root winner reward n s r t p pn ps :
  heap w !! node = Some n → state n = Some s →
  heap w !! root = Some r → state r = Some t →
  identifier s ≠ identifier t →
  parent n = Some p → heap w !! p = Some pn → state pn = Some ps →
  backpropagation_loop (S fuel) node root winner reward w
  = backpropagation_loop fuel p root winner reward
      (set_heap (<[node := credit winner reward (player ps) n]> (heap w)) w).
Proof.
  intros Hn Hs Hr Ht Hne Hp Hpn Hps.
  assert (Hlt : (node < length (heap w))%nat) by by eapply lookup_lt_Some.
  cbn [backpropagation_loop].
  rewrite bind_run, (node_ne_run _ _ _ _ _ _ _ Hn Hs Hr Ht).
  apply Z.eqb_neq in Hne. rewrite Hne. cbn [negb].
  rewrite bind_run, (read_run _ _ _ Hn), bind_run, write_run.
  set (n1 := set_counters (visit_count n + 1) (accumulated_reward n) n).
  set (w1 := set_heap (<[node := n1]> (heap w)) w).
  assert (Hn1 : heap w1 !! node = Some n1) by by apply list_lookup_insert_eq.
  assert (∃ pn1, heap w1 !! p = Some pn1 ∧ state pn1 = Some ps) as (pn1 & Hpn1 & Hps1).
  { destruct (decide (p = node)) as [->|Hpn'].
    - exists n1. split; [done|]. simpl. congruence.
    - exists pn. split; [|done]. simpl. by rewrite list_lookup_insert_ne. }
  rewrite bind_run, (read_run _ _ _ Hn1). cbn [parent n1 set_counters].
  rewrite Hp. cbn [try_attr]. rewrite bind_run. cbn [ret].
  rewrite bind_run, (read_run _ _ _ Hpn1), bind_run, Hps1. cbn [try_attr ret].
  rewrite bind_run, (read_run _ _ _ Hn1), bind_run.
  assert (Hw2 : ∀ a, write node (set_counters (visit_count n1) a n1) w1
            = (set_heap (<[node := set_counters (visit_count n + 1) a n]> (heap w)) w, Ok tt)).
  { intros a. rewrite write_run. unfold w1. simpl.
    by rewrite list_insert_insert_eq. }
  unfold credit.
  destruct (bool_decide (player ps = Some winner)); rewrite Hw2;
    rewrite bind_run; erewrite read_run by (by apply list_lookup_insert_eq);
    cbn [parent set_counters]; rewrite Hp; cbn [try_attr]; rewrite bind_run;
    reflexivity.
Qed.
End BackpropStep.

Section BackpropLoop.
Context {G : Type} `{GameAdapter G}.
Implicit Types (w : @World G) (h : list Node).

Lemma backpropagation_loop_climbs winner reward root path :
  ∀ w node fuel, climbs (heap w) root node path → (length path < fuel)%nat →
  ∃ h', backpropagation_loop fuel node root winner reward w = (set_heap h' w, Ok tt)
    ∧ same_links (heap w) h'
    ∧ ∀ i n, heap w !! i = Some n →
        h' !! i = Some (if decide (i ∈ path)
                        then credit winner reward (parent_player (heap w) n) n
                        else n).
Proof.
  induction path as [|node' path IH]; intros w node fuel Hc Hfuel;
    (destruct fuel as [|fuel]; [simpl in Hfuel; lia|]).
  - inversion Hc as [r t Hr Ht|]; subst.
    exists (heap w). split; [|split].
    + cbn [backpropagation_loop].
      rewrite bind_run, (node_ne_run _ _ _ _ _ _ _ Hr Ht Hr Ht), Z.eqb_refl.
      by rewrite set_heap_heap.
    + apply same_links_refl.
    + intros i n Hi. by rewrite decide_False by apply not_elem_of_nil.
  - assert (node = node') as -> by (by inversion Hc).
    pose proof (climbs_NoDup _ _ _ _ Hc) as Hnd.
    inversion Hc as [|? n s r t p pn ps ? Hn Hs Hr Ht Hne Hp Hpn Hps Hc']; subst.
    rewrite (backpropagation_loop_step _ _ _ _ _ _ _ _ _ _ _ _ _
               Hn Hs Hr Ht Hne Hp Hpn Hps).
    set (n2 := credit winner reward (player ps) n).
    set (h2 := <[node' := n2]> (heap w)).
    assert (Hl2 : same_links (heap w) h2) by by apply same_links_counters.
    destruct (IH (set_heap h2 w) p fuel) as (h' & Hrun & Hl' & Hh').
    { simpl. by eapply climbs_same_links. }
    { simpl in Hfuel. lia. }
    exists h'. split; [|split].
    + by rewrite Hrun.
    + by eapply same_links_trans.
    + intros i ni Hi. destruct (decide (i = node')) as [->|Hin].
      * rewrite decide_True by (apply elem_of_cons; by left).
        apply NoDup_cons in Hnd as [Hnot _].
        assert (Hi2 : heap (set_heap h2 w) !! node' = Some n2).
        { apply list_lookup_insert_eq. by eapply lookup_lt_Some. }
        rewrite (Hh' _ _ Hi2), decide_False by done.
        simplify_eq. unfold n2. do 2 f_equal.
        unfold parent_player. rewrite Hp. simpl. rewrite Hpn. simpl. by rewrite Hps.
      * assert (Hi2 : heap (set_heap h2 w) !! i = Some ni)
          by by (simpl; unfold h2; rewrite list_lookup_insert_ne).
        rewrite (Hh' _ _ Hi2). simpl.
        rewrite <- (parent_player_same_links _ _ _ Hl2).
        destruct (decide (i ∈ path)) as [Hp'|Hp'].
        -- rewrite decide_True by (apply elem_of_cons; by right). done.
        -- rewrite decide_False; [done|]. intros [?|?]%elem_of_cons; done.
Qed.
End BackpropLoop.

Section BackpropPath.
Context {G : Type} `{GameAdapter G}.
Implicit Types (w : @World G) (h : list Node).

Lemma random_choice_run {A} (l : list A) w x :
  drawn (tape w) l = Some x →
  random_choice l w = (set_tape (tail (tape w)) w, Ok x).
Proof.
  intros Hx. unfold random_choice. rewrite bind_run. cbn [get].
  destruct l as [|y l]; [done|]. rewrite bind_run. cbn [put]. by rewrite Hx.
Qed.

Lemma random_choice_ok {A} (l : list A) w w' x :
  random_choice l w = (w', Ok x) →
  w' = set_tape (tail (tape w)) w ∧ drawn (tape w) l = Some x.
Proof.
  unfold random_choice. rewrite bind_run. cbn [get].
  destruct l as [|y l]; [done|]. rewrite bind_run. cbn [put].
  intros Hr. by apply try_index_ok in Hr as [-> ->].
Qed.

End BackpropPath.
Lemma searched_world_climbs : climbs (heap searched_world) 4 9 [9; 1]%nat.
Proof.
  eapply climbs_step; [reflexivity|reflexivity|reflexivity|reflexivity|discriminate|reflexivity|reflexivity|reflexivity|].
  eapply climbs_step; [reflexivity|reflexivity|reflexivity|reflexivity|discriminate|reflexivity|reflexivity|reflexivity|].
  eapply climbs_root; reflexivity.
Defined.



(** ** The shape of the store *)

Section ShapeFacts.
Implicit Types (h : list Node) (i c root : nat).

Lemma kids_eq h i n s : h !! i = Some n → state n = Some s → kids h i = next_nodes s.
Proof. intros Hn Hs. unfold kids. rewrite Hn. simpl. by rewrite Hs. Qed.

Lemma kids_elem h i c :
  c ∈ kids h i → ∃ n s, h !! i = Some n ∧ state n = Some s ∧ c ∈ next_nodes s.
Proof.
  unfold kids. destruct (h !! i) as [n|]; simpl; [|by intros ?%elem_of_nil].
  destruct (state n) as [s|] eqn:Hs; simpl; [|by intros ?%elem_of_nil].
  intros Hc. by exists n, s.
Qed.

Lemma kids_unevaluated h i n : h !! i = Some n → state n = None → kids h i = [].
Proof. intros Hn Hs. unfold kids. rewrite Hn. simpl. by rewrite Hs. Qed.

Lemma ident_eq h i n s : h !! i = Some n → state n = Some s → ident h i = Some (identifier s).
Proof. intros Hn Hs. unfold ident. rewrite Hn. simpl. by rewrite Hs. Qed.

Lemma grows_refl h : grows h h.
Proof. intros i n s ??. eauto. Qed.

Lemma grows_trans h1 h2 h3 : grows h1 h2 → grows h2 h3 → grows h1 h3.
Proof.
  intros H12 H23 i n s Hn Hs.
  destruct (H12 _ _ _ Hn Hs) as (n2 & Hn2 & Hs2). eauto.
Qed.

Lemma same_links_grows h h' : same_links h h' → grows h h'.
Proof.
  intros Hl i n s Hn Hs.
  destruct (Forall2_lookup_l _ _ _ _ _ Hl Hn) as (n' & Hn' & _ & Hst & _).
  exists n'. split; [done|congruence].
Qed.

Lemma grows_kids h h' i c : grows h h' → c ∈ kids h i → c ∈ kids h' i.
Proof.
  intros Hg (n & s & Hn & Hs & Hc)%kids_elem.
  destruct (Hg _ _ _ Hn Hs) as (n' & Hn' & Hs'). by rewrite (kids_eq _ _ _ _ Hn' Hs').
Qed.

Lemma grows_ident h h' i z : grows h h' → ident h i = Some z → ident h' i = Some z.
Proof.
  unfold ident. intros Hg Hi.
  destruct (h !! i) as [n|] eqn:Hn; [|done]. simpl in Hi.
  destruct (state n) as [s|] eqn:Hs; [|done]. simpl in Hi.
  destruct (Hg _ _ _ Hn Hs) as (n' & -> & Hs'). simpl. by rewrite Hs'.
Qed.

Lemma grows_lineage h h' root d path :
  grows h h' → lineage h root d path → lineage h' root d path.
Proof.
  intros Hg. induction 1 as [|n c path _ IH Hc]; [constructor|].
  econstructor; [done|]. by eapply grows_kids.
Qed.

(** A collision in an earlier store is a collision in a later one. *)
Lemma grows_no_collision h h' root :
  grows h h' → is_Some (ident h root) → no_collision h' root → no_collision h root.
Proof.
  intros Hg [z Hz] Hnc d path Hl Heq.
  apply (Hnc d path); [by eapply grows_lineage|].
  rewrite Hz in Heq. rewrite (grows_ident _ _ _ _ Hg Hz).
  by apply (grows_ident _ _ _ _ Hg).
Qed.

Lemma lineage_nil h root d : lineage h root d [] → d = root.
Proof. by inversion 1. Qed.

Lemma lineage_head h root d x path : lineage h root d (x :: path) → x = d.
Proof. by inversion 1. Qed.

Lemma lineage_suffix h root d path x :
  lineage h root d path → x ∈ path → ∃ l1 l2, path = l1 ++ x :: l2 ∧ lineage h root x (x :: l2).
Proof.
  induction 1 as [|n c path Hl IH Hc].
  - by intros ?%elem_of_nil.
  - intros [->|Hx]%elem_of_cons.
    + exists [], path. split; [done|]. by econstructor.
    + destruct (IH Hx) as (l1 & l2 & -> & Hl'). by exists (c :: l1), l2.
Qed.

(** Among the nodes of a lineage, all different from the root, the last
    one is a child of the root and no other is. *)
Lemma lineage_root_kid h root d path :
  wf_heap h → (∀ x, x ∈ path → x ≠ root) →
  lineage h root d path → path ≠ [] →
  ∃ c rest, path = rest ++ [c] ∧ c ∈ kids h root ∧ ∀ x, x ∈ rest → x ∉ kids h root.
Proof.
  intros Hwf Hne. induction 1 as [|n c path Hl IH Hc]; [done|]. intros _.
  destruct path as [|y path].
  - apply lineage_nil in Hl as ->. exists c, []. split; [done|]. split; [done|].
    by intros x ?%elem_of_nil.
  - destruct IH as (c0 & rest & Heq & Hc0 & Hrest); [|done|].
    { intros x Hx. apply Hne. by right. }
    exists c0, (c :: rest). rewrite Heq. split; [done|]. split; [done|].
    intros x [->|Hx]%elem_of_cons; [|by apply Hrest].
    intros Hcr. pose proof (wf_owner h Hwf _ _ _ Hc Hcr) as ->.
    apply lineage_head in Hl as ->. apply (Hne root); [|done]. right. by left.
Qed.

(** With the links of a well-formed store and no collision, a lineage of
    evaluated nodes is the path that the parent references climb. *)
Lemma lineage_climbs h root d path r t :
  wf_heap h → h !! root = Some r → state r = Some t →
  (∀ x, x ∈ path → is_Some (ident h x) ∧ ident h x ≠ ident h root) →
  lineage h root d path → climbs h root d path.
Proof.
  intros Hwf Hr Ht Hpath. induction 1 as [|n c path Hl IH Hc].
  - by eapply climbs_root.
  - destruct (Hpath c) as [[z Hz] Hzne]; [by left|].
    unfold ident in Hz. destruct (h !! c) as [cn|] eqn:Hcn; [|done]. simpl in Hz.
    destruct (state cn) as [cs|] eqn:Hcs; [|done].
    pose proof Hc as (pn & ps & Hpn & Hps & _)%kids_elem.
    eapply climbs_step; try done.
    + intros Heq. apply Hzne. rewrite (ident_eq _ _ _ _ Hcn Hcs), (ident_eq _ _ _ _ Hr Ht).
      by f_equal.
    + by eapply (wf_parent h Hwf).
    + apply IH. intros x Hx. apply Hpath. by right.
Qed.

Lemma same_links_kids h h' i : same_links h h' → kids h' i = kids h i.
Proof.
  intros Hl. unfold kids. destruct (h !! i) as [n|] eqn:Hn.
  - destruct (Forall2_lookup_l _ _ _ _ _ Hl Hn) as (n' & -> & _ & Hs & _).
    simpl. by rewrite Hs.
  - apply lookup_ge_None in Hn. rewrite (Forall2_length _ _ _ Hl) in Hn.
    apply lookup_ge_None in Hn. by rewrite Hn.
Qed.

Lemma same_links_wf h h' : same_links h h' → wf_heap h → wf_heap h'.
Proof.
  intros Hl [Hb Hn Ho Hp]. split.
  - intros i c. rewrite (same_links_kids _ _ _ Hl), <- (Forall2_length _ _ _ Hl). apply Hb.
  - intros i. rewrite (same_links_kids _ _ _ Hl). apply Hn.
  - intros i j c. rewrite !(same_links_kids _ _ _ Hl). apply Ho.
  - intros i c n'. rewrite (same_links_kids _ _ _ Hl). intros Hc Hn' Hs.
    destruct (Forall2_lookup_r _ _ _ _ _ Hl Hn') as (n & Hln & _ & Hst & Hpar).
    rewrite <- Hpar. eapply Hp; [done..|]. by rewrite Hst.
Qed.

End ShapeFacts.

(** ** selection *)

Section SelectionFacts.
Context {G : Type} `{GameAdapter G}.
Variable np_log : float → float.
Implicit Types (w : @World G) (h : list Node).

Lemma for_each_ok {A B} (f : A → M (@World G) B) (P : @World G → A → B → Prop)
    l w w' ys :
  (∀ x w w' y, f x w = (w', Ok y) → w' = w ∧ P w x y) →
  for_each f l w = (w', Ok ys) → w' = w ∧ Forall2 (P w) l ys.
Proof.
  intros Hf. revert w w' ys. induction l as [|x l IH]; intros w w' ys; simpl.
  - intros [= <- <-]. by split.
  - intros (w1 & y & Hy & Hrest)%bind_ok.
    apply bind_ok in Hrest as (w2 & ys' & Hys & [= <- <-]).
    apply Hf in Hy as [-> Hy]. apply IH in Hys as [-> Hys]. split; [done|by constructor].
Qed.

Lemma drawn_elem {A} (tape : list nat) (l : list A) x : drawn tape l = Some x → x ∈ l.
Proof. unfold drawn. apply list_elem_of_lookup_2. Qed.

Lemma is_expanded_ok node w w' b :
  is_expanded node w = (w', Ok b) →
  w' = w ∧ ∃ n s, heap w !! node = Some n ∧ state n = Some s.
Proof.
  unfold is_expanded. intros (w1 & n & [-> Hn]%read_ok & Hrest)%bind_ok.
  apply bind_ok in Hrest as (w2 & s & [-> Hs]%try_attr_ok & Hrest).
  apply bind_ok in Hrest as (w3 & ev & Hev & [= <- <-]).
  apply (for_each_ok _ (λ _ _ _, True)) in Hev as [-> _]; [eauto|].
  intros x v v' y (a & [-> _]%read_ok & _)%fmap_ok. done.
Qed.

Lemma UCB1_ok c node w w' v : UCB1 np_log c node w = (w', Ok v) → w' = w.
Proof.
  unfold UCB1. intros (w1 & n & [-> Hn]%read_ok & Hrest)%bind_ok.
  apply bind_ok in Hrest as (w2 & [] & Hz & Hrest).
  assert (w2 = w) as ->.
  { destruct (visit_count n =? 0); [done|]. by injection Hz as <-. }
  apply bind_ok in Hrest as (w3 & p & [-> Hp]%try_attr_ok & Hrest).
  apply bind_ok in Hrest as (w4 & pn & [-> Hpn]%read_ok & [= <- _]). done.
Qed.

Lemma randomax_loop_ok {A V} (gt eq : V → V → bool) (key : A → M (@World G) V)
    elements cands best w w' out :
  (∀ e w w' v, key e w = (w', Ok v) → w' = w) →
  randomax_loop gt eq key elements cands best w = (w', Ok out) →
  w' = w ∧ ∀ x, x ∈ out → x ∈ cands ∨ x ∈ elements.
Proof.
  intros Hkey. revert cands best w w' out.
  induction elements as [|e elements IH]; intros cands best w w' out; simpl.
  - intros [= <- <-]. auto.
  - intros (w1 & v & ->%Hkey & Hrest)%bind_ok.
    apply IH in Hrest as [-> Hout]. split; [done|].
    intros x [Hx|Hx]%Hout; [|right; by right].
    clear IH Hout. revert Hx.
    destruct (gt v (default v best)), (eq v _);
      rewrite ?elem_of_app, ?elem_of_cons, ?elem_of_nil; tauto.
Qed.

Lemma randomax_ok {A V} (gt eq : V → V → bool) (key : A → M (@World G) V)
    elements w w' x :
  (∀ e w w' v, key e w = (w', Ok v) → w' = w) →
  randomax gt eq key elements w = (w', Ok x) →
  heap w' = heap w ∧ x ∈ elements.
Proof.
  intros Hkey. unfold randomax. intros (w1 & cands & Hc & Hx)%bind_ok.
  apply (randomax_loop_ok _ _ _ _ _ _ _ _ _ Hkey) in Hc as [-> Hc].
  apply random_choice_ok in Hx as [-> Hx%drawn_elem]. split; [done|].
  destruct (Hc _ Hx) as [?%elem_of_nil|?]; done.
Qed.

(** The loop of [selection] leaves the store as it is and walks down a
    lineage. *)
Lemma selection_loop_ok root fuel : ∀ node path w w' node',
  lineage (heap w) root node path →
  selection_loop np_log fuel node w = (w', Ok node') →
  heap w' = heap w ∧ ∃ path', lineage (heap w) root node' path'.
Proof.
  induction fuel as [|fuel IH]; intros node path w w' node' Hl; [done|].
  cbn [selection_loop]. intros (w1 & n & [-> Hn]%read_ok & Hrest)%bind_ok.
  apply bind_ok in Hrest as (w2 & s & [-> Hs]%try_attr_ok & Hrest).
  destruct (done s); [injection Hrest as <- <-; eauto|].
  apply bind_ok in Hrest as (w3 & b & [-> _]%is_expanded_ok & Hrest).
  destruct b; [|injection Hrest as <- <-; eauto].
  apply bind_ok in Hrest as (w4 & x & Hx & Hrest).
  apply randomax_ok in Hx as [Hh Hx]; [|apply UCB1_ok].
  assert (Hl' : lineage (heap w4) root x (x :: path)).
  { rewrite Hh. econstructor; [done|]. by rewrite (kids_eq _ _ _ _ Hn Hs). }
  apply (IH _ _ _ _ _ Hl') in Hrest as [Hh' (path' & Hp')].
  rewrite Hh in Hh', Hp'. eauto.
Qed.

(** What [selection] returns: a child of a node of the lineage, either
    evaluated (a terminal node) or not yet, and then with its owner. *)
Lemma selection_ok root fuel w w' pn sel r s :
  heap w !! root = Some r → state r = Some s → done s = false →
  selection np_log fuel root w = (w', Ok (pn, sel)) →
  heap w' = heap w ∧ ∃ path owner,
    lineage (heap w) root owner path ∧ sel ∈ kids (heap w) owner
    ∧ ((∃ n t, heap w !! sel = Some n ∧ state n = Some t)
       ∨ (∃ n, pn = Some owner ∧ heap w !! sel = Some n ∧ state n = None)).
Proof.
  intros Hr Hs Hd. unfold selection. intros (w1 & node & Hloop & Hrest)%bind_ok.
  apply (selection_loop_ok root fuel root [] w w1 node) in Hloop as [Hh (path & Hl)];
    [|constructor].
  apply bind_ok in Hrest as (w2 & n & [-> Hn]%read_ok & Hrest).
  apply bind_ok in Hrest as (w3 & t & [-> Ht]%try_attr_ok & Hrest).
  rewrite Hh in Hn. destruct (done t) eqn:Hdt.
  - injection Hrest as <- <- <-. split; [done|].
    inversion Hl as [|owner ? path' Hl' Hk]; subst.
    + simplify_eq. congruence.
    + exists path', owner. split; [done|]. split; [done|]. eauto.
  - apply bind_ok in Hrest as (w4 & flags & Hflags & Hrest).
    assert (w4 = w1 ∧ Forall2 (λ a af, af.1 = a
              ∧ ∃ x, heap w1 !! a = Some x ∧ af.2 = is_evaluated x) (next_nodes t) flags)
      as [-> Hfl].
    { eapply (for_each_ok _ (λ w a af, af.1 = a
              ∧ ∃ x, heap w !! a = Some x ∧ af.2 = is_evaluated x)); [|exact Hflags].
      intros x v v' y (a & [-> Ha]%read_ok & ->)%fmap_ok. simpl. eauto. }
    apply bind_ok in Hrest as (w5 & child & [-> Hc%drawn_elem]%random_choice_ok & [= <- <- <-]).
    split; [done|]. exists path, node.
    apply list_elem_of_fmap in Hc as ([a b] & -> & Hc). simpl in *.
    apply list_elem_of_filter in Hc as [Hb Hc]. simpl in Hb. subst b.
    apply list_elem_of_lookup in Hc as [k Hk].
    destruct (Forall2_lookup_r _ _ _ _ _ Hfl Hk) as (a' & Ha' & Heq & x & Hx & Hev).
    simpl in Heq, Hev. subst a'. rewrite Hh in Hx.
    assert (a ∈ next_nodes t) by by eapply list_elem_of_lookup_2.
    split; [done|]. split; [by rewrite (kids_eq _ _ _ _ Hn Ht)|].
    right. exists x. repeat split; try done.
    unfold is_evaluated in Hev. symmetry in Hev. apply bool_decide_eq_false in Hev.
    destruct (state x); [|done]. exfalso. apply Hev. eauto.
Qed.

End SelectionFacts.

(** ** expansion *)

Section ExpansionFacts.
Context {G : Type} `{GameAdapter G}.
Implicit Types (w : @World G) (h : list Node).

Lemma alloc_ok n w w' i :
  alloc n w = (w', Ok i) → w' = set_heap (heap w ++ [n]) w ∧ i = length (heap w).
Proof. unfold alloc. rewrite bind_run. cbn. by intros [= <- <-]. Qed.

Lemma for_each_alloc_ok {A} (f : A → Node) l : ∀ w w' ids,
  for_each (λ a, alloc (f a)) l w = (w', Ok ids) →
  w' = set_heap (heap w ++ map f l) w ∧ ids = seq (length (heap w)) (length l).
Proof.
  induction l as [|a l IH]; intros w w' ids; simpl.
  - intros [= <- <-]. by rewrite app_nil_r, set_heap_heap.
  - intros (w1 & i & [-> ->]%alloc_ok & Hrest)%bind_ok.
    apply bind_ok in Hrest as (w2 & ids' & [-> ->]%IH & [= <- <-]).
    simpl. rewrite <- app_assoc, length_app. simpl.
    split; [done|]. do 2 f_equal. lia.
Qed.

Lemma State_init_ok o r d p w w' s :
  State_init o r d p w = (w', Ok s) →
  ∃ fresh, w' = set_heap (heap w ++ fresh) w
    ∧ next_nodes s = seq (length (heap w)) (length fresh)
    ∧ Forall (λ n, state n = None) fresh.
Proof.
  unfold State_init. rewrite bind_run. cbn [get].
  intros (w1 & ids & [-> ->]%for_each_alloc_ok & [= <- <-])%bind_ok.
  eexists. split; [done|]. simpl. rewrite length_map. split; [done|].
  apply Forall_forall. by intros n (a & -> & _)%list_elem_of_fmap.
Qed.

Lemma with_game_ok {A} (m : M G A) w w' a :
  with_game m w = (w', Ok a) → heap w' = heap w.
Proof.
  unfold with_game. destruct (m (game w)) as [g' r]. by intros [= <- _].
Qed.

Lemma register_ok node w w' u : register node w = (w', Ok u) → heap w' = heap w.
Proof.
  unfold register. intros (w1 & n & [-> Hn]%read_ok & Hrest)%bind_ok.
  apply bind_ok in Hrest as (w2 & s & [-> Hs]%try_attr_ok & [= <- _]). done.
Qed.

(** [expansion] of a node that is evaluated leaves the world as it is. *)
Lemma expansion_evaluated pn sel w w' x nn t :
  heap w !! sel = Some nn → state nn = Some t →
  expansion pn sel w = (w', Ok x) → w' = w.
Proof.
  intros Hn Ht. unfold expansion. rewrite bind_run, (read_run _ _ _ Hn), Ht.
  by intros [= <- _].
Qed.

(** [expansion] of an unevaluated node: the children of the new state are
    allocated at the end of the store, and the node gets the state and the
    parent. *)
Lemma expansion_unevaluated owner sel w w' x nn :
  heap w !! sel = Some nn → state nn = None →
  expansion (Some owner) sel w = (w', Ok x) →
  ∃ s fresh,
    heap w' = <[sel := set_state_parent s (Some owner) nn]> (heap w ++ fresh)
    ∧ next_nodes s = seq (length (heap w)) (length fresh)
    ∧ Forall (λ n, state n = None) fresh.
Proof.
  intros Hn Hs. unfold expansion. rewrite bind_run, (read_run _ _ _ Hn), Hs.
  intros (w1 & p & [-> [= <-]]%try_attr_ok & Hrest)%bind_ok.
  apply bind_ok in Hrest as (w2 & pn & [-> Hpn]%read_ok & Hrest).
  apply bind_ok in Hrest as (w3 & ps & [-> Hps]%try_attr_ok & Hrest).
  apply bind_ok in Hrest as (w4 & b & Hreset%with_game_ok & Hrest).
  apply bind_ok in Hrest as (w5 & [[[o r] d] pl] & Hstep%with_game_ok & Hrest).
  apply bind_ok in Hrest as (w6 & s & (fresh & -> & Hnext & Hfresh)%State_init_ok & Hrest).
  rewrite Hstep, Hreset in Hnext.
  apply bind_ok in Hrest as (w7 & nn' & [-> Hnn']%read_ok & Hrest).
  simpl in Hnn'. rewrite Hstep, Hreset in Hnn'.
  rewrite lookup_app_l in Hnn' by by eapply lookup_lt_Some.
  assert (nn' = nn) as -> by congruence.
  apply bind_ok in Hrest as (w8 & [] & Hwrite & Hrest).
  rewrite write_run in Hwrite. injection Hwrite as <-.
  apply bind_ok in Hrest as (w9 & [] & Hreg%register_ok & [= <- _]).
  exists s, fresh. rewrite Hreg. simpl. by rewrite Hstep, Hreset.
Qed.

End ExpansionFacts.

(** The store after an expansion. *)
Section ExpandedStore.
Variables (h fresh : list Node) (sel owner : nat) (nn : Node) (s : State).
Hypothesis Hwf : wf_heap h.
Hypothesis Hsel : h !! sel = Some nn.
Hypothesis Hnone : state nn = None.
Hypothesis Hkid : sel ∈ kids h owner.
Hypothesis Hnext : next_nodes s = seq (length h) (length fresh).
Hypothesis Hfresh : Forall (λ n, state n = None) fresh.

Let h2 : list Node := <[sel := set_state_parent s (Some owner) nn]> (h ++ fresh).

Lemma expanded_sel_lt : (sel < length h)%nat.
Proof. by eapply lookup_lt_Some. Qed.

Lemma expanded_lookup_sel : h2 !! sel = Some (set_state_parent s (Some owner) nn).
Proof.
  apply list_lookup_insert_eq. rewrite length_app. pose proof expanded_sel_lt. lia.
Qed.

Lemma expanded_lookup_old i : i ≠ sel → (i < length h)%nat → h2 !! i = h !! i.
Proof.
  intros Hne Hlt. unfold h2. rewrite list_lookup_insert_ne by done.
  by apply lookup_app_l.
Qed.

Lemma expanded_lookup_fresh i n :
  (length h ≤ i)%nat → h2 !! i = Some n → state n = None.
Proof.
  intros Hge. pose proof expanded_sel_lt. unfold h2.
  rewrite list_lookup_insert_ne by lia. rewrite lookup_app_r by done.
  intros Hn. eapply Forall_lookup_1 in Hfresh; [|exact Hn]. done.
Qed.

Lemma expanded_length : length h2 = (length h + length fresh)%nat.
Proof. unfold h2. by rewrite length_insert, length_app. Qed.

Lemma expanded_kids i : kids h2 i = if decide (i = sel) then next_nodes s else kids h i.
Proof.
  case_decide as Hi.
  - subst i. unfold kids. by rewrite expanded_lookup_sel.
  - destruct (decide (i < length h)%nat) as [Hlt|Hge].
    + unfold kids. by rewrite expanded_lookup_old.
    + unfold kids at 2. rewrite (proj2 (lookup_ge_None h i)) by lia. simpl.
      unfold kids. destruct (h2 !! i) as [n|] eqn:Hn; [|done]. simpl.
      by rewrite (expanded_lookup_fresh i n) by (done || lia).
Qed.

Lemma expanded_grows : grows h h2.
Proof.
  intros i n t Hn Ht. destruct (decide (i = sel)) as [->|Hne]; [congruence|].
  exists n. split; [|done]. rewrite expanded_lookup_old; [done..|]. by eapply lookup_lt_Some.
Qed.

Lemma expanded_visits i : (i < length h)%nat → visits h2 i = visits h i.
Proof.
  intros Hlt. unfold visits. destruct (decide (i = sel)) as [->|Hne].
  - by rewrite expanded_lookup_sel, Hsel.
  - by rewrite expanded_lookup_old.
Qed.

Lemma expanded_wf : wf_heap h2.
Proof.
  pose proof expanded_sel_lt as Hlt. destruct Hwf as [Hb Hn Ho Hp]. split.
  - intros i c. rewrite expanded_kids, expanded_length. case_decide.
    + rewrite Hnext. intros ?%elem_of_seq. lia.
    + intros ?%Hb. lia.
  - intros i. rewrite expanded_kids. case_decide; [|done]. rewrite Hnext. apply NoDup_seq.
  - intros i j c. rewrite !expanded_kids. repeat case_decide; try congruence.
    + rewrite Hnext. intros ?%elem_of_seq ?%Hb. lia.
    + rewrite Hnext. intros ?%Hb ?%elem_of_seq. lia.
    + apply Ho.
  - intros i c n. rewrite expanded_kids. case_decide as Hi.
    + rewrite Hnext. intros ?%elem_of_seq Hc [t Ht].
      rewrite (expanded_lookup_fresh c n) in Ht by (done || lia). done.
    + intros Hc Hcn Hev. destruct (decide (c = sel)) as [->|Hcs].
      * rewrite expanded_lookup_sel in Hcn. injection Hcn as <-. simpl.
        f_equal. by eapply Ho.
      * rewrite expanded_lookup_old in Hcn by (done || by eapply Hb). by eapply Hp.
Qed.

End ExpandedStore.

(** ** One iteration *)

Section RunFacts.
Context {G : Type} `{GameAdapter G}.
Variable np_log : float → float.
Implicit Types (w : @World G) (h : list Node).

Lemma simulation_loop_ok fuel : ∀ o r d p w w' x,
  simulation_loop fuel o r d p w = (w', Ok x) → heap w' = heap w.
Proof.
  induction fuel as [|fuel IH]; intros o r d p w w' x; simpl.
  - destruct d; [by intros [= <- _]|done].
  - destruct d; [by intros [= <- _]|].
    rewrite bind_run. cbn [get].
    intros (w1 & a & [-> _]%random_choice_ok & Hrest)%bind_ok.
    apply bind_ok in Hrest as (w2 & [[[o' r'] d'] p'] & Hstep%with_game_ok & Hrest).
    apply IH in Hrest. by rewrite Hrest, Hstep.
Qed.

Lemma simulation_ok fuel node w w' x :
  simulation fuel node w = (w', Ok x) → heap w' = heap w.
Proof.
  unfold simulation. intros (w1 & n & [-> Hn]%read_ok & Hrest)%bind_ok.
  apply bind_ok in Hrest as (w2 & s & [-> Hs]%try_attr_ok & Hrest).
  by eapply simulation_loop_ok.
Qed.

Lemma write_counters_links w w' i n v a u :
  heap w !! i = Some n →
  write i (set_counters v a n) w = (w', Ok u) → same_links (heap w) (heap w').
Proof. intros Hn [= <- _]. by apply same_links_counters. Qed.

(** The loop of [backpropagation] writes counters only. *)
Lemma backpropagation_loop_links fuel : ∀ node root winner reward w w' u,
  backpropagation_loop fuel node root winner reward w = (w', Ok u) →
  same_links (heap w) (heap w').
Proof.
  induction fuel as [|fuel IH]; intros node root winner reward w w' u; [done|].
  cbn [backpropagation_loop]. intros (w1 & ne & Hne & Hrest)%bind_ok.
  assert (w1 = w) as ->.
  { unfold node_ne in Hne.
    apply bind_ok in Hne as (? & ? & [-> _]%read_ok & Hne).
    apply bind_ok in Hne as (? & ? & [-> _]%read_ok & Hne).
    repeat case_match; cbv [mret M_ret ret raise] in Hne; congruence. }
  destruct ne; [|injection Hrest as <- _; apply same_links_refl].
  apply bind_ok in Hrest as (w2 & n & [-> Hn]%read_ok & Hrest).
  apply bind_ok in Hrest as (w3 & [] & Hl1%(write_counters_links _ _ _ _ _ _ _ Hn) & Hrest).
  apply bind_ok in Hrest as (w4 & n1 & [-> Hn1]%read_ok & Hrest).
  apply bind_ok in Hrest as (w5 & p & [-> Hp]%try_attr_ok & Hrest).
  apply bind_ok in Hrest as (w6 & pn & [-> Hpn]%read_ok & Hrest).
  apply bind_ok in Hrest as (w7 & ps & [-> Hps]%try_attr_ok & Hrest).
  apply bind_ok in Hrest as (w8 & n2 & [-> Hn2]%read_ok & Hrest).
  apply bind_ok in Hrest as (w9 & [] & Hw & Hrest).
  assert (Hl2 : same_links (heap w3) (heap w9)).
  { destruct (bool_decide _); by eapply write_counters_links. }
  apply bind_ok in Hrest as (w10 & n3 & [-> Hn3]%read_ok & Hrest).
  apply bind_ok in Hrest as (w11 & p' & [-> Hp']%try_attr_ok & Hrest).
  apply IH in Hrest. eauto using same_links_trans.
Qed.

Lemma backpropagation_links fuel node root winner reward w w' u :
  backpropagation fuel node root winner reward w = (w', Ok u) →
  same_links (heap w) (heap w').
Proof.
  unfold backpropagation. intros (w1 & p & Hp & Hrest)%bind_ok.
  apply backpropagation_loop_links in Hrest.
  assert (heap w1 = heap w) as <-; [|done].
  destruct winner; [by injection Hp as <- _|].
  rewrite bind_run in Hp. cbn [get] in Hp. by apply random_choice_ok in Hp as [-> _].
Qed.

(** A loop that returns had the fuel to walk the whole path. *)
Lemma backpropagation_loop_fuel winner reward root path : ∀ w w' node fuel u,
  climbs (heap w) root node path →
  backpropagation_loop fuel node root winner reward w = (w', Ok u) →
  (length path < fuel)%nat.
Proof.
  induction path as [|x path IH]; intros w w' node fuel u Hc;
    (destruct fuel as [|fuel]; [done|]); [simpl; lia|].
  inversion Hc as [|? n s r t p pn ps ? Hn Hs Hr Ht Hne Hp Hpn Hps Hc']; subst.
  rewrite (backpropagation_loop_step _ _ _ _ _ _ _ _ _ _ _ _ _
             Hn Hs Hr Ht Hne Hp Hpn Hps).
  intros Hloop. eapply IH in Hloop; [simpl; lia|]. simpl.
  eapply climbs_same_links; [|done]. by apply same_links_counters.
Qed.

(** [backpropagation] that returns, along a path that climbs to the root:
    the nodes of the path have one more visit, the others none. *)
Lemma backpropagation_visits fuel leaf root winner reward w w' u path :
  climbs (heap w) root leaf path →
  backpropagation fuel leaf root winner reward w = (w', Ok u) →
  ∀ i, (i < length (heap w))%nat →
       visits (heap w') i = visits (heap w) i + (if decide (i ∈ path) then 1 else 0).
Proof.
  intros Hc. unfold backpropagation. intros (w1 & p & Hp & Hrest)%bind_ok.
  assert (heap w1 = heap w) as Hh.
  { destruct winner; [by injection Hp as <- _|].
    rewrite bind_run in Hp. cbn [get] in Hp. by apply random_choice_ok in Hp as [-> _]. }
  rewrite <- Hh in Hc.
  pose proof (backpropagation_loop_fuel _ _ _ _ _ _ _ _ _ Hc Hrest) as Hfuel.
  destruct (backpropagation_loop_climbs p reward root path w1 leaf fuel Hc Hfuel)
    as (h' & Hrun & _ & Hh').
  rewrite Hrun in Hrest. injection Hrest as <- _. simpl.
  intros i Hi. rewrite <- Hh in Hi. apply lookup_lt_is_Some in Hi as [n Hn].
  unfold visits. rewrite (Hh' _ _ Hn), <- Hh, Hn. simpl.
  case_decide; simpl; lia.
Qed.

Lemma lineage_tail_evaluated h root d path :
  lineage h root d path → ∀ x, x ∈ tail path → is_Some (ident h x).
Proof.
  induction 1 as [|n c path Hl IH Hc]; simpl; [by intros x ?%elem_of_nil|].
  intros x Hx. destruct path as [|y path]; [by apply elem_of_nil in Hx|].
  apply lineage_head in Hl as Heq. subst y.
  apply elem_of_cons in Hx as [->|Hx]; [|by apply IH].
  apply kids_elem in Hc as (pn & ps & Hpn & Hps & _).
  rewrite (ident_eq _ _ _ _ Hpn Hps). eauto.
Qed.

(** One iteration from a root that is not terminal: the store stays
    well-formed, and exactly one child of the root gets exactly one visit. *)
Lemma run_spec fuel root w w' u r s :
  wf_heap (heap w) → heap w !! root = Some r → state r = Some s → done s = false →
  run np_log fuel root w = (w', Ok u) →
  no_collision (heap w') root →
  wf_heap (heap w') ∧ grows (heap w) (heap w')
  ∧ ∃ c, c ∈ next_nodes s
      ∧ ∀ x, x ∈ next_nodes s →
          visits (heap w') x = visits (heap w) x + (if decide (x = c) then 1 else 0).
Proof.
  intros Hwf Hr Hs Hd Hrun Hnc. unfold run in Hrun.
  apply bind_ok in Hrun as (w1 & [pn sel] & Hsel & Hrun).
  apply (selection_ok _ _ _ _ _ _ _ _ _ Hr Hs Hd) in Hsel
    as (Hh1 & path & owner & Hown & Hkid & Hcase).
  apply bind_ok in Hrun as (w2 & x & Hexp & Hrun).
  apply bind_ok in Hrun as (w3 & [winner reward] & Hsim%simulation_ok & Hback).
  pose proof (backpropagation_links _ _ _ _ _ _ _ _ Hback) as Hl3.
  rewrite Hsim in Hl3.
  (* the store after the expansion *)
  assert (wf_heap (heap w2) ∧ grows (heap w) (heap w2)
          ∧ is_Some (ident (heap w2) sel)
          ∧ (length (heap w) ≤ length (heap w2))%nat
          ∧ ∀ i, (i < length (heap w))%nat → visits (heap w2) i = visits (heap w) i)
    as (Hwf2 & Hg2 & Hsel2 & Hlen2 & Hv2).
  { destruct Hcase as [(n & t & Hn & Ht)|(n & -> & Hn & Ht)]; rewrite <- Hh1 in Hn.
    - apply (expansion_evaluated _ _ _ _ _ _ _ Hn Ht) in Hexp as ->.
      rewrite Hh1. rewrite Hh1 in Hn. split; [done|]. split; [apply grows_refl|].
      split; [rewrite (ident_eq _ _ _ _ Hn Ht); eauto|]. split; [lia|done].
    - apply (expansion_unevaluated _ _ _ _ _ _ Hn Ht) in Hexp
        as (t & fresh & -> & Hnext & Hfresh).
      rewrite Hh1 in Hn, Hnext |- *.
      split; [by eapply expanded_wf|]. split; [by eapply expanded_grows|].
      split.
      { erewrite ident_eq; [eauto|by eapply expanded_lookup_sel|done]. }
      split; [rewrite expanded_length by done; lia|].
      intros i Hi. by eapply expanded_visits. }
  assert (Hg3 : grows (heap w2) (heap w')) by by apply same_links_grows.
  destruct (Hg2 _ _ _ Hr Hs) as (r2 & Hr2 & Hs2).
  assert (Hnc2 : no_collision (heap w2) root).
  { eapply grows_no_collision; [done| |done]. rewrite (ident_eq _ _ _ _ Hr2 Hs2). eauto. }
  assert (Hlin : lineage (heap w2) root sel (sel :: path)).
  { eapply grows_lineage; [done|]. by econstructor. }
  assert (Hpath : ∀ y, y ∈ sel :: path →
            is_Some (ident (heap w2) y) ∧ ident (heap w2) y ≠ ident (heap w2) root).
  { intros y Hy. split.
    - apply elem_of_cons in Hy as [->|Hy]; [done|].
      by eapply (lineage_tail_evaluated _ _ _ _ Hlin).
    - destruct (lineage_suffix _ _ _ _ _ Hlin Hy) as (l1 & l2 & _ & Hl').
      by eapply Hnc2. }
  assert (Hclimb : climbs (heap w2) root sel (sel :: path))
    by by eapply lineage_climbs.
  rewrite <- Hsim in Hclimb.
  pose proof (backpropagation_visits _ _ _ _ _ _ _ _ _ Hclimb Hback) as Hv3.
  rewrite Hsim in Hv3.
  assert (Hnr : ∀ y, y ∈ sel :: path → y ≠ root).
  { intros y Hy ->. by apply (Hpath root Hy). }
  destruct (lineage_root_kid _ _ _ _ Hwf2 Hnr Hlin) as (c & rest & Heq & Hc & Hrest);
    [done|].
  rewrite (kids_eq _ _ _ _ Hr2 Hs2) in Hc.
  split; [by eapply same_links_wf|]. split; [by eapply grows_trans|].
  exists c. split; [done|]. intros y Hy.
  assert (Hylt : (y < length (heap w))%nat).
  { apply (wf_bound _ Hwf root). by rewrite (kids_eq _ _ _ _ Hr Hs). }
  rewrite Hv3, Hv2 by lia. f_equal. rewrite Heq.
  destruct (decide (y = c)) as [->|Hyc].
  - rewrite decide_True; [done|]. apply elem_of_app. right. by left.
  - rewrite decide_False; [done|].
    intros [Hin|Hin%list_elem_of_singleton]%elem_of_app; [|done].
    apply (Hrest _ Hin). by rewrite (kids_eq _ _ _ _ Hr2 Hs2).
Qed.

End RunFacts.

(** ** Iterations *)

Section IterationFacts.
Context {G : Type} `{GameAdapter G}.
Variable np_log : float → float.
Implicit Types (w : @World G) (h : list Node).

Lemma selection_heap fuel node w w' x :
  selection np_log fuel node w = (w', Ok x) → heap w' = heap w.
Proof.
  unfold selection. intros (w1 & n1 & Hloop & Hrest)%bind_ok.
  apply (selection_loop_ok np_log node fuel node [] w w1 n1) in Hloop as [Hh _];
    [|constructor].
  apply bind_ok in Hrest as (w2 & n & [-> Hn]%read_ok & Hrest).
  apply bind_ok in Hrest as (w3 & t & [-> Ht]%try_attr_ok & Hrest).
  destruct (done t); [by injection Hrest as <- _|].
  apply bind_ok in Hrest as (w4 & flags & Hflags & Hrest).
  apply (for_each_ok _ (λ _ _ _, True)) in Hflags as [-> _].
  - by apply bind_ok in Hrest as (w5 & c & [-> _]%random_choice_ok & [= <- _]).
  - by intros a v v' y (b & [-> _]%read_ok & _)%fmap_ok.
Qed.

Lemma expansion_grows pn sel w w' x :
  expansion pn sel w = (w', Ok x) → grows (heap w) (heap w').
Proof.
  intros Hexp. pose proof Hexp as Hexp'. unfold expansion in Hexp'.
  apply bind_ok in Hexp' as (w1 & nn & [-> Hn]%read_ok & Hrest).
  destruct (state nn) as [t|] eqn:Ht.
  - rewrite (expansion_evaluated _ _ _ _ _ _ _ Hn Ht Hexp). apply grows_refl.
  - apply bind_ok in Hrest as (w2 & owner & Hpn & _).
    apply try_attr_ok in Hpn as [_ Hpn]. subst pn.
    destruct (expansion_unevaluated _ _ _ _ _ _ Hn Ht Hexp) as (t & fresh & Hh & _).
    rewrite Hh. by eapply expanded_grows.
Qed.

Lemma run_grows fuel root w w' u :
  run np_log fuel root w = (w', Ok u) → grows (heap w) (heap w').
Proof.
  unfold run. intros (w1 & [pn sel] & Hsel%selection_heap & Hrun)%bind_ok.
  apply bind_ok in Hrun as (w2 & x & Hexp%expansion_grows & Hrun).
  apply bind_ok in Hrun as (w3 & [winner reward] & Hsim%simulation_ok & Hback).
  apply backpropagation_links, same_links_grows in Hback.
  rewrite Hsel in Hexp. rewrite Hsim in Hback. by eapply grows_trans.
Qed.

Lemma run_n_grows k fuel root : ∀ w w' u,
  run_n np_log k fuel root w = (w', Ok u) → grows (heap w) (heap w').
Proof.
  induction k as [|k IH]; intros w w' u; simpl.
  - intros [= <- _]. apply grows_refl.
  - intros (w1 & [] & Hrun%run_grows & Hrest%IH)%bind_ok. by eapply grows_trans.
Qed.

Lemma times_cons x c picks :
  Z.of_nat (times x (c :: picks))
  = (if decide (x = c) then 1 else 0) + Z.of_nat (times x picks).
Proof.
  unfold times. rewrite filter_cons.
  destruct (decide (c = x)) as [->|Hne].
  - rewrite decide_True by done. simpl. lia.
  - rewrite decide_False by done. lia.
Qed.

(** The iterations, one child of the root each. *)
Lemma run_n_spec k fuel root r s : ∀ w w' u,
  wf_heap (heap w) → heap w !! root = Some r → state r = Some s → done s = false →
  run_n np_log k fuel root w = (w', Ok u) →
  no_collision (heap w') root →
  ∃ picks, length picks = k
    ∧ (∀ c, c ∈ picks → c ∈ next_nodes s)
    ∧ ∀ x, x ∈ next_nodes s →
        visits (heap w') x = visits (heap w) x + Z.of_nat (times x picks).
Proof.
  revert r. induction k as [|k IH]; intros r w w' u Hwf Hr Hs Hd; simpl.
  - intros [= <- _] _. exists []. split; [done|]. split; [by intros c ?%elem_of_nil|].
    intros x _. unfold times. simpl. lia.
  - intros (w1 & [] & Hrun & Hrest)%bind_ok Hnc.
    pose proof (run_grows _ _ _ _ _ Hrun) as Hg1.
    pose proof (run_n_grows _ _ _ _ _ _ Hrest) as Hg2.
    destruct (Hg1 _ _ _ Hr Hs) as (r1 & Hr1 & Hs1).
    assert (Hnc1 : no_collision (heap w1) root).
    { eapply grows_no_collision; [done| |done]. rewrite (ident_eq _ _ _ _ Hr1 Hs1). eauto. }
    destruct (run_spec np_log _ _ _ _ _ _ _ Hwf Hr Hs Hd Hrun Hnc1)
      as (Hwf1 & _ & c & Hc & Hv1).
    destruct (IH r1 w1 w' u Hwf1 Hr1 Hs1 Hd Hrest Hnc) as (picks & Hlen & Hpicks & Hv).
    exists (c :: picks). split; [simpl; by rewrite Hlen|]. split.
    + intros y [->|Hy]%elem_of_cons; auto.
    + intros x Hx. rewrite (Hv x Hx), (Hv1 x Hx), times_cons. lia.
Qed.

Lemma indicator_sum (c : nat) (cs : list nat) :
  NoDup cs → c ∈ cs →
  foldr (λ x acc, (if decide (x = c) then 1 else 0) + acc) 0 cs = 1.
Proof.
  induction 1 as [|y cs Hy Hnd IH]; [by intros ?%elem_of_nil|]. simpl.
  intros [->|Hc]%elem_of_cons.
  - rewrite decide_True by done.
    assert (foldr (λ x acc, (if decide (x = y) then 1 else 0) + acc) 0 cs = 0) as ->; [|done].
    clear IH Hnd. induction cs as [|z cs IH]; [done|]. simpl.
    rewrite decide_False by (intros ->; apply Hy; by left).
    rewrite IH; [done|]. intros ?. apply Hy. by right.
  - rewrite decide_False by (intros ->; done). rewrite IH by done. done.
Qed.

Lemma times_sum (cs picks : list nat) :
  NoDup cs → (∀ c, c ∈ picks → c ∈ cs) →
  foldr (λ x acc, Z.of_nat (times x picks) + acc) 0 cs = Z.of_nat (length picks).
Proof.
  intros Hnd. induction picks as [|c picks IH]; intros Hsub.
  - clear Hnd Hsub. induction cs as [|y cs IHcs]; simpl; [done|].
    rewrite IHcs. reflexivity.
  - assert (Hsplit : ∀ l : list nat,
        foldr (λ x acc, Z.of_nat (times x (c :: picks)) + acc) 0 l
        = foldr (λ x acc, (if decide (x = c) then 1 else 0) + acc) 0 l
          + foldr (λ x acc, Z.of_nat (times x picks) + acc) 0 l).
    { induction l as [|y l IHl]; [done|]. simpl. rewrite IHl, times_cons. lia. }
    rewrite Hsplit, IH, indicator_sum; [simpl; lia|done|..].
    + apply Hsub. by left.
    + intros y Hy. apply Hsub. by right.
Qed.

Lemma children_sum_picks h h' (cs picks : list nat) :
  NoDup cs → (∀ c, c ∈ picks → c ∈ cs) →
  (∀ x, x ∈ cs → visits h' x = visits h x + Z.of_nat (times x picks)) →
  children_sum h' cs = children_sum h cs + Z.of_nat (length picks).
Proof.
  intros Hnd Hsub Hv. rewrite <- (times_sum cs picks Hnd Hsub).
  clear Hnd Hsub. unfold children_sum.
  induction cs as [|y cs IH]; [done|]. simpl.
  rewrite IH, (Hv y) by (intros; apply Hv || idtac; by (left || right)). lia.
Qed.

Lemma children_sum_fresh h (cs : list nat) :
  (∀ x, x ∈ cs → visits h x = 1) → children_sum h cs = 0.
Proof.
  unfold children_sum. induction cs as [|y cs IH]; [done|]. simpl. intros Hv.
  rewrite IH, (Hv y) by (intros; apply Hv || idtac; by (left || right)). done.
Qed.

(** C4, for a root that is not terminal. In a well-formed store, the
    iterations that [act] completes each add one visit to exactly one child
    of the root ([picks] lists that child for each iteration), so the sum
    over the root's children of [visit_count - 1] grows by the number of
    completed iterations: it equals that number when the children were new
    (all at 1), and never decreases. On the resulting store no node below
    the root may share the root's state identifier. *)
Theorem root_children_count_iterations k fuel root r s w w' :
  wf_heap (heap w) → heap w !! root = Some r → state r = Some s → done s = false →
  run_n np_log k fuel root w = (w', Ok tt) →
  no_collision (heap w') root →
  (∃ picks, length picks = k
     ∧ (∀ c, c ∈ picks → c ∈ next_nodes s)
     ∧ ∀ x, x ∈ next_nodes s →
         visits (heap w') x = visits (heap w) x + Z.of_nat (times x picks))
  ∧ children_sum (heap w') (next_nodes s)
    = children_sum (heap w) (next_nodes s) + Z.of_nat k
  ∧ children_sum (heap w) (next_nodes s) ≤ children_sum (heap w') (next_nodes s)
  ∧ ((∀ x, x ∈ next_nodes s → visits (heap w) x = 1) →
     children_sum (heap w') (next_nodes s) = Z.of_nat k).
Proof.
  intros Hwf Hr Hs Hd Hrun Hnc.
  destruct (run_n_spec _ _ _ _ _ _ _ _ Hwf Hr Hs Hd Hrun Hnc) as (picks & Hlen & Hsub & Hv).
  assert (Hnd : NoDup (next_nodes s)).
  { rewrite <- (kids_eq _ _ _ _ Hr Hs). apply (wf_nodup _ Hwf). }
  pose proof (children_sum_picks _ _ _ _ Hnd Hsub Hv) as Hsum. rewrite Hlen in Hsum.
  split; [eauto|]. split; [done|]. split; [lia|].
  intros Hnew. rewrite Hsum, children_sum_fresh by done. lia.
Qed.

End IterationFacts.

(** ** The root that [act] builds *)

Section RootFacts.
Context {G : Type} `{GameAdapter G}.
Implicit Types (w : @World G) (h : list Node).

Lemma wf_heap_nil : wf_heap [].
Proof.
  split.
  - by intros i c ?%elem_of_nil.
  - intros i. constructor.
  - by intros i j c ?%elem_of_nil.
  - by intros i c n ?%elem_of_nil.
Qed.

Lemma State_init_exact o r d p w w' s :
  State_init o r d p w = (w', Ok s) →
  ∃ acts,
    w' = set_heap (heap w ++ map (λ a, Node_init (Some a) None None) acts) w
    ∧ s = mkState (g_state (game w) o p) o r d p (seq (length (heap w)) (length acts)).
Proof.
  unfold State_init. rewrite bind_run. cbn [get].
  intros (w1 & ids & [-> ->]%for_each_alloc_ok & [= <- <-])%bind_ok. eauto.
Qed.

(** The store after a new root was allocated behind its children. *)
Lemma wf_new_root h acts s :
  wf_heap h → next_nodes s = seq (length h) (length acts) →
  let fresh := map (λ a, Node_init (Some a) None None) acts in
  let h' := (h ++ fresh) ++ [Node_init None (Some s) None] in
  let root := length (h ++ fresh) in
  wf_heap h'
  ∧ h' !! root = Some (Node_init None (Some s) None)
  ∧ (∀ x, x ∈ next_nodes s → visits h' x = 1)
  ∧ ∀ i, root ∉ kids h' i.
Proof.
  intros [Hb Hn Ho Hp] Hnext fresh h' root.
  assert (Hlen : length fresh = length acts) by apply length_map.
  assert (Hroot : h' !! root = Some (Node_init None (Some s) None)).
  { unfold h', root. by rewrite lookup_app_r, Nat.sub_diag by lia. }
  assert (Hold : ∀ i, (i < length h)%nat → h' !! i = h !! i).
  { intros i Hi. unfold h'. rewrite <- app_assoc. by apply lookup_app_l. }
  assert (Hfresh : ∀ i n, (length h ≤ i < root)%nat → h' !! i = Some n →
                          state n = None ∧ visit_count n = 1).
  { intros i n [Hge Hlt]. unfold h', root in *. rewrite lookup_app_l by done.
    rewrite lookup_app_r by done. unfold fresh. rewrite list_lookup_fmap.
    destruct (acts !! _); [|done]. by intros [= <-]. }
  assert (Hkids : ∀ i, kids h' i = if decide (i = root) then next_nodes s else kids h i).
  { intros i. case_decide as Hi.
    - subst i. unfold kids. by rewrite Hroot.
    - destruct (decide (i < length h)%nat) as [Hlt|Hge].
      + unfold kids. by rewrite Hold.
      + unfold kids at 2. rewrite (proj2 (lookup_ge_None h i)) by lia. simpl.
        unfold kids. destruct (h' !! i) as [n|] eqn:Hi'; [|done]. simpl.
        assert (i < root)%nat.
        { apply lookup_lt_Some in Hi'. unfold h', root in *.
          rewrite length_app in Hi'. simpl in Hi'. lia. }
        by rewrite (proj1 (Hfresh i n ltac:(lia) Hi')). }
  assert (Hrootlen : root = (length h + length acts)%nat).
  { unfold root. rewrite length_app. lia. }
  split; [split|split; [done|split]].
  - intros i c. rewrite Hkids. unfold h'. rewrite length_app. fold root. simpl.
    case_decide.
    + rewrite Hnext. intros ?%elem_of_seq. lia.
    + intros ?%Hb. lia.
  - intros i. rewrite Hkids. case_decide; [|done]. rewrite Hnext. apply NoDup_seq.
  - intros i j c. rewrite !Hkids. repeat case_decide; try congruence.
    + rewrite Hnext. intros ?%elem_of_seq ?%Hb. lia.
    + rewrite Hnext. intros ?%Hb ?%elem_of_seq. lia.
    + apply Ho.
  - intros i c n. rewrite Hkids. case_decide as Hi.
    + rewrite Hnext. intros ?%elem_of_seq Hc [t Ht].
      rewrite (proj1 (Hfresh c n ltac:(lia) Hc)) in Ht. done.
    + intros Hc Hcn Hev. rewrite Hold in Hcn by by eapply Hb. by eapply Hp.
  - intros x. rewrite Hnext. intros ?%elem_of_seq. unfold visits.
    destruct (h' !! x) as [n|] eqn:Hx.
    + simpl. by apply (Hfresh x n ltac:(lia)).
    + apply lookup_ge_None in Hx. unfold h' in Hx. rewrite length_app in Hx.
      fold root in Hx. simpl in Hx. lia.
  - intros i. rewrite Hkids. case_decide.
    + rewrite Hnext. intros ?%elem_of_seq. lia.
    + intros ?%Hb. lia.
Qed.

(** [act] on an observation that the tree does not know: the root it
    builds is not terminal, its children are new, and the store is
    well-formed. *)
Lemma root_for_fresh obs w w' root :
  wf_heap (heap w) →
  tree w !! g_state (game w) obs (self_player w) = None →
  root_for obs w = (w', Ok root) →
  wf_heap (heap w')
  ∧ (∀ i, root ∉ kids (heap w') i)
  ∧ ∃ r s, heap w' !! root = Some r ∧ state r = Some s ∧ done s = false
      ∧ ∀ x, x ∈ next_nodes s → visits (heap w') x = 1.
Proof.
  intros Hwf Htree. unfold root_for. rewrite bind_run. cbn [get].
  intros (w1 & s & (acts & -> & ->)%State_init_exact & Hrest)%bind_ok.
  rewrite bind_run in Hrest. cbn [get] in Hrest. simpl in Hrest. rewrite Htree in Hrest.
  apply bind_ok in Hrest as (w2 & i & [-> ->]%alloc_ok & Hrest).
  apply bind_ok in Hrest as (w3 & [] & Hreg%register_ok & [= <- <-]).
  rewrite Hreg. simpl.
  set (s := mkState _ _ _ _ _ _).
  destruct (wf_new_root (heap w) acts s Hwf eq_refl) as (Hwf' & Hroot & Hv & Hnk).
  split; [done|]. split; [done|]. exists (Node_init None (Some s) None), s. done.
Qed.

(** The check is sound. *)
Lemma no_collision_check_sound h root :
  no_collision_check h root = true → no_collision h root.
Proof.
  unfold no_collision_check. intros [Hsome Hall]%andb_prop.
  apply bool_decide_eq_true in Hsome as [z Hz].
  rewrite forallb_forall in Hall.
  assert (Hchk : ∀ i, (i < length h)%nat →
            (root ∉ kids h i) ∧ (i = root ∨ ident h i ≠ ident h root)).
  { intros i Hi. specialize (Hall i). rewrite in_seq in Hall.
    destruct (andb_prop _ _ (Hall ltac:(lia))) as [H1 H2].
    by apply bool_decide_eq_true in H1, H2. }
  intros d path Hl. inversion Hl as [|n ? ? _ Hk]; subst.
  assert (Hn : (n < length h)%nat).
  { apply kids_elem in Hk as (? & ? & ?%lookup_lt_Some & _). lia. }
  assert (d ≠ root) by (intros ->; by apply (Hchk n Hn)).
  destruct (decide (d < length h)%nat) as [Hlt|Hge].
  - by destruct (Hchk d Hlt) as [_ [?|?]].
  - unfold ident at 1. rewrite (proj2 (lookup_ge_None h d)) by lia. by rewrite Hz.
Qed.

End RootFacts.

Lemma rooted_world_wf : wf_heap (heap rooted_world).
Proof.
  apply (@root_for_fresh _ demo_game (np_full 2) demo_world rooted_world 4).
  - apply wf_heap_nil.
  - reflexivity.
  - vm_compute. reflexivity.
Qed.

(** C4 fails for a root whose state is terminal. The engine has searched a
    position one move from a win of its player; a second [act], on the won
    position, finds the terminal node (node 0) in the tree and takes it as
    its root. An iteration from that root completes, and the visit counts
    of the root's children (nodes 10 to 13) are what they were: their sum of
    [visit_count - 1] is 0 before and after. *)
Lemma terminal_root_iteration_counts_nothing :
  (@root_for _ demo_game won_board3 first_search).2 = Ok 0%nat
  ∧ (done <$> (heap second_root !! 0%nat ≫= state)) = Some true
  ∧ kids (heap second_root) 0 = [10; 11; 12; 13]%nat
  ∧ @run _ demo_game demo_log 50 0 second_root = (second_iteration, Ok tt)
  ∧ children_sum (heap second_root) [10; 11; 12; 13]%nat = 0
  ∧ children_sum (heap second_iteration) [10; 11; 12; 13]%nat = 0.
Proof. repeat split; vm_compute; reflexivity. Qed.

Lemma root_children_count_iterations_witness :
  (∃ picks, length picks = 6%nat
     ∧ (∀ c, c ∈ picks → c ∈ next_nodes rooted_state)
     ∧ ∀ x, x ∈ next_nodes rooted_state →
         visits (heap iterated_world) x
         = visits (heap rooted_world) x + Z.of_nat (times x picks))
  ∧ children_sum (heap iterated_world) (next_nodes rooted_state)
    = children_sum (heap rooted_world) (next_nodes rooted_state) + Z.of_nat 6
  ∧ children_sum (heap rooted_world) (next_nodes rooted_state)
    ≤ children_sum (heap iterated_world) (next_nodes rooted_state)
  ∧ ((∀ x, x ∈ next_nodes rooted_state → visits (heap rooted_world) x = 1) →
     children_sum (heap iterated_world) (next_nodes rooted_state) = Z.of_nat 6).
Proof.
  apply (@root_children_count_iterations TicTacToe demo_game demo_log 6 50 4
           rooted_root rooted_state rooted_world iterated_world).
  - exact rooted_world_wf.
  - reflexivity.
  - reflexivity.
  - reflexivity.
  - vm_compute. reflexivity.
  - apply no_collision_check_sound. vm_compute. reflexivity.
Defined.

(** ** The boundary of the count: a terminal root, and [act] as a whole *)

Section BoundaryFacts.
Context {G : Type} `{GameAdapter G}.
Variable np_log : float → float.
Implicit Types (w : @World G) (h : list Node).

Lemma selection_terminal fuel root w r s :
  heap w !! root = Some r → state r = Some s → done s = true →
  selection np_log (S fuel) root w = (w, Ok (parent r, root)).
Proof.
  intros Hr Hs Hd. unfold selection. cbn [selection_loop].
  repeat (progress (rewrite ?bind_run, ?(read_run _ _ _ Hr), ?Hs, ?Hd;
                    cbn [try_attr ret mret M_ret])).
  reflexivity.
Qed.

Lemma expansion_run_evaluated pn sel w n t :
  heap w !! sel = Some n → state n = Some t →
  expansion pn sel w = (w, Ok sel).
Proof.
  intros Hn Ht. unfold expansion. by rewrite bind_run, (read_run _ _ _ Hn), Ht.
Qed.

Lemma simulation_terminal fuel root w r s :
  heap w !! root = Some r → state r = Some s → done s = true →
  simulation fuel root w = (w, Ok (player s, reward s)).
Proof.
  intros Hr Hs Hd. unfold simulation.
  repeat (progress (rewrite ?bind_run, ?(read_run _ _ _ Hr), ?Hs, ?Hd;
                    cbn [try_attr ret mret M_ret])).
  by destruct fuel.
Qed.

(** X3. An iteration from a root whose state is terminal (a root that [act]
    found in the tree) selects the root itself: [selection], [expansion]
    and [simulation] return with the engine as it was (no node is given a
    state, the game is not stepped, the tree gets no key), and
    [backpropagation] stops at once. The iteration returns and the engine
    is what it was, the store with its counters, the tree and the game
    included, but for the one draw of [random.choice] that
    [backpropagation] takes when the terminal state has no winner. *)
Theorem run_terminal_root fuel root w r s credited :
  heap w !! root = Some r → state r = Some s → done s = true →
  credited_player w (player s) = Some credited →
  selection np_log (S fuel) root w = (w, Ok (parent r, root))
  ∧ expansion (parent r) root w = (w, Ok root)
  ∧ simulation (S fuel) root w = (w, Ok (player s, reward s))
  ∧ run np_log (S fuel) root w
    = (match player s with
       | Some _ => w
       | None => set_tape (tail (tape w)) w
       end, Ok tt).
Proof.
  intros Hr Hs Hd Hcred.
  pose proof (selection_terminal fuel _ _ _ _ Hr Hs Hd) as Hsel.
  pose proof (expansion_run_evaluated (parent r) _ _ _ _ Hr Hs) as Hexp.
  pose proof (simulation_terminal (S fuel) _ _ _ _ Hr Hs Hd) as Hsim.
  split; [done|]. split; [done|]. split; [done|].
  unfold run. rewrite bind_run, Hsel, bind_run, Hexp, bind_run, Hsim.
  unfold backpropagation. rewrite bind_run.
  assert (∀ w1, heap w1 = heap w →
    backpropagation_loop (S fuel) root root credited (reward s) w1 = (w1, Ok tt))
    as Hloop.
  { intros w1 Hh1. rewrite <- Hh1 in Hr. cbn [backpropagation_loop].
    by rewrite bind_run, (node_ne_run _ _ _ _ _ _ _ Hr Hs Hr Hs), Z.eqb_refl. }
  destruct (player s) as [p|]; simpl in Hcred.
  - injection Hcred as ->. by apply Hloop.
  - rewrite bind_run. cbn [get]. rewrite (random_choice_run _ _ _ Hcred).
    by apply Hloop.
Qed.

Lemma play_heap root w w' a : play root w = (w', Ok a) → heap w' = heap w.
Proof.
  unfold play. intros (w1 & r & [-> Hr]%read_ok & Hrest)%bind_ok.
  apply bind_ok in Hrest as (w2 & s & [-> Hs]%try_attr_ok & Hrest).
  apply bind_ok in Hrest as (w3 & x & Hx & Hrest).
  apply randomax_ok in Hx as [Hh _].
  - apply fmap_ok in Hrest as (n & [-> _]%read_ok & _). done.
  - by intros e v v' z (n & [-> _]%read_ok & _)%fmap_ok.
Qed.

(** X4. [act] on an observation that the tree does not know yet: when it
    returns after [k] iterations, the children of the root it has built
    sum up to [k] visits beyond their first. *)
Theorem act_counts_iterations k fuel obs w w' a :
  wf_heap (heap w) →
  tree w !! g_state (game w) obs (self_player w) = None →
  act np_log k fuel obs w = (w', Ok a) →
  ∃ root r s,
    heap w' !! root = Some r ∧ state r = Some s ∧ observation s = obs
    ∧ (no_collision (heap w') root →
       children_sum (heap w') (next_nodes s) = Z.of_nat k).
Proof.
  intros Hwf Htree. unfold act. intros (w1 & root & Hroot & Hrest)%bind_ok.
  apply bind_ok in Hrest as (w2 & [] & Hrun & Hplay%play_heap).
  pose proof Hroot as Hobs. unfold root_for in Hobs. rewrite bind_run in Hobs.
  cbn [get] in Hobs.
  apply bind_ok in Hobs as (w0 & s0 & (acts & -> & ->)%State_init_exact & Hobs).
  rewrite bind_run in Hobs. cbn [get] in Hobs. simpl in Hobs. rewrite Htree in Hobs.
  apply bind_ok in Hobs as (w3 & i & [-> ->]%alloc_ok & Hobs).
  apply bind_ok in Hobs as (w4 & [] & Hreg%register_ok & [= ? Hi]).
  destruct (root_for_fresh _ _ _ _ Hwf Htree Hroot)
    as (Hwf1 & _ & r & s & Hr & Hs & Hd & Hnew).
  assert (Hs0 : observation s = obs).
  { subst w4 root. rewrite Hreg in Hr. simpl in Hr.
    rewrite lookup_app_r, Nat.sub_diag in Hr by lia. simpl in Hr.
    injection Hr as <-. simpl in Hs. by injection Hs as <-. }
  destruct (run_n_grows _ _ _ _ _ _ _ Hrun _ _ _ Hr Hs) as (r2 & Hr2 & Hs2).
  exists root, r2, s. rewrite Hplay. repeat split; try done.
  intros Hnc.
  destruct (run_n_spec np_log _ _ _ _ _ _ _ _ Hwf1 Hr Hs Hd Hrun Hnc)
    as (picks & Hlen & Hsub & Hv).
  assert (Hnd : NoDup (next_nodes s)).
  { rewrite <- (kids_eq _ _ _ _ Hr Hs). apply (wf_nodup _ Hwf1). }
  rewrite (children_sum_picks _ _ _ _ Hnd Hsub Hv), children_sum_fresh, Hlen by done.
  lia.
Qed.

End BoundaryFacts.

(** A second call of [act], on the won position, finds the terminal node in
    the tree and takes it as the root. *)
Lemma act_reuses_terminal_node :
  (@root_for _ demo_game won_board late_world).2 = Ok 17%nat
  ∧ heap late_world !! 17%nat = Some won_node
  ∧ state won_node = Some won_state
  ∧ done won_state = true.
Proof. repeat split; vm_compute; reflexivity. Qed.

Lemma run_terminal_root_witness :
  @selection TicTacToe demo_log 1 17 late_world
  = (late_world, Ok (parent won_node, 17%nat))
  ∧ @expansion _ demo_game (parent won_node) 17 late_world = (late_world, Ok 17%nat)
  ∧ @simulation _ demo_game 1 17 late_world
    = (late_world, Ok (player won_state, reward won_state))
  ∧ @run _ demo_game demo_log 1 17 late_world = (late_world, Ok tt).
Proof.
  apply (@run_terminal_root _ demo_game demo_log 0 17 late_world
           won_node won_state "X"%string); reflexivity.
Defined.

Lemma act_counts_iterations_witness :
  ∃ root r s,
    heap searched_world !! root = Some r ∧ state r = Some s
    ∧ observation s = np_full 2
    ∧ (no_collision (heap searched_world) root →
       children_sum (heap searched_world) (next_nodes s) = Z.of_nat 6).
Proof.
  apply (@act_counts_iterations _ demo_game demo_log 6 50 (np_full 2)
           demo_world searched_world (Some [0; 1])).
  - apply wf_heap_nil.
  - reflexivity.
  - vm_compute. reflexivity.
Defined.

(** ** dumps and loads *)

Section PersistenceFacts.
Context {G : Type} `{GameAdapter G}.
Implicit Types (w : @World G).

(** C8. Loading, in any process, the file that [dumps] wrote gives a tree
    with the same keys; the node under each key, and every node of the
    saved store, has a copy with the same [visit_count] and the same
    [accumulated_reward], whose [parent] is the copy of its parent and whose
    state has the same identifier, observation, reward, terminal flag and
    player, and the copies of its children. *)
Theorem loads_dumps_roundtrip (filename : string) w w2 (disk : gmap string pickled) :
  let copy := relocate (length (heap w2)) in
  ∃ w', loads filename (dumps filename w disk) w2 = (w', Ok tt)
    ∧ dom (tree w') = dom (tree w)
    ∧ (∀ key, tree w' !! key = copy <$> tree w !! key)
    ∧ ∀ i n, heap w !! i = Some n →
        ∃ n', heap w' !! copy i = Some n'
          ∧ visit_count n' = visit_count n
          ∧ accumulated_reward n' = accumulated_reward n
          ∧ action n' = action n
          ∧ parent n' = copy <$> parent n
          ∧ identifier <$> state n' = identifier <$> state n
          ∧ observation <$> state n' = observation <$> state n
          ∧ reward <$> state n' = reward <$> state n
          ∧ done <$> state n' = done <$> state n
          ∧ player <$> state n' = player <$> state n
          ∧ next_nodes <$> state n' = fmap copy <$> (next_nodes <$> state n).
Proof.
  intros copy. unfold loads, dumps. rewrite lookup_insert_eq. simpl.
  eexists. split; [done|]. simpl. split; [|split].
  - apply dom_fmap_L.
  - intros key. apply lookup_fmap.
  - intros i n Hn. exists (relocate_node (length (heap w2)) n). split.
    + unfold copy, relocate. rewrite lookup_app_r by lia.
      replace (length (heap w2) + i - length (heap w2))%nat with i by lia.
      by rewrite list_lookup_fmap, Hn.
    + unfold relocate_node. simpl. destruct (state n); simpl; repeat split; done.
Qed.

End PersistenceFacts.

(** ** TicTacToe.is_winner *)

Section WinnerFacts.

Lemma filter_length_all {A} (P : A → Prop) `{∀ x, Decision (P x)} (l : list A) :
  length (filter P l) = length l ↔ Forall P l.
Proof.
  induction l as [|x l IH]; [by split|].
  rewrite filter_cons. pose proof (length_filter P l) as Hle.
  destruct (decide (P x)) as [Hx|Hx]; simpl.
  - split.
    + intros [= Hl]. constructor; [done|]. by apply IH.
    + intros [_ Hl%IH]%Forall_cons. by rewrite Hl.
  - split; [lia|]. by intros [? _]%Forall_cons.
Qed.

Lemma check_spec n (l : list cell) token :
  length l = n → check n l token = true ↔ Forall (λ c, c = Some token) l.
Proof.
  intros <-. unfold check. rewrite bool_decide_eq_true. apply filter_length_all.
Qed.

Lemma check_lookup n (l : list cell) token :
  length l = n →
  check n l token = true ↔ ∀ k, (k < n)%nat → l !! k = Some (Some token).
Proof.
  intros Hl. rewrite (check_spec n l token Hl), Forall_lookup. unfold cell in *. split.
  - intros Hall k Hk. destruct (lookup_lt_is_Some_2 l k) as [c Hc]; [lia|].
    specialize (Hall k c Hc). congruence.
  - intros Hall k c Hc. pose proof (lookup_lt_Some _ _ _ Hc) as Hk.
    specialize (Hall k ltac:(lia)). congruence.
Qed.

Lemma column_lookup (b : board) j col :
  column b j = Some col →
  length col = length b ∧ ∀ i, (i < length b)%nat → col !! i = cell_at b i j.
Proof.
  unfold column. intros HF%mapM_Some. split; [symmetry; by eapply Forall2_length|].
  intros i Hi. destruct (lookup_lt_is_Some_2 b i Hi) as [row Hrow].
  destruct (Forall2_lookup_l _ _ _ _ _ HF Hrow) as (c & Hc & Hrc).
  unfold cell_at, board, cell in *. rewrite Hrow. simpl. by rewrite Hc, Hrc.
Qed.

Lemma diagonal_from_lookup n (b : board) : ∀ k,
  Forall (λ row, length row = n) b → (k + length b ≤ n)%nat →
  length (diagonal_from k b) = length b
  ∧ ∀ i, (i < length b)%nat → diagonal_from k b !! i = b !! i ≫= (.!! (k + i)%nat).
Proof.
  induction b as [|row b IH]; intros k Hb Hk; [split; [done|simpl; lia]|].
  apply Forall_cons in Hb as [Hrow Hb]. simpl in Hk. simpl.
  destruct (lookup_lt_is_Some_2 row k) as [c Hc]; [lia|]. rewrite Hc.
  destruct (IH (S k) Hb) as [Hlen Hlook]; [lia|]. split; [simpl; by rewrite Hlen|].
  intros [|i] Hi; simpl.
  - by rewrite Nat.add_0_r, Hc.
  - rewrite Hlook by lia. by replace (S k + i)%nat with (k + S i)%nat by lia.
Qed.

Lemma diagonal_lookup n (b : board) :
  length b = n → Forall (λ row, length row = n) b →
  length (diagonal b) = n
  ∧ ∀ k, (k < n)%nat → diagonal b !! k = cell_at b k k.
Proof.
  intros Hlen Hb. destruct (diagonal_from_lookup n b 0 Hb) as [Hl Hk]; [lia|].
  split; [by rewrite <- Hlen|]. intros k Hlt. unfold diagonal. rewrite Hk by lia. done.
Qed.

Lemma cell_at_rev n (b : board) k :
  Forall (λ row, length row = n) b → (k < n)%nat →
  cell_at (map (@rev cell) b) k k = cell_at b k (n - 1 - k).
Proof.
  intros Hb Hk. unfold cell_at, board, cell in *.
  change (map (@rev (option string)) b) with (@rev (option string) <$> b).
  rewrite list_lookup_fmap.
  destruct (b !! k) as [row|] eqn:Hrow; [|done]. simpl.
  pose proof (Forall_lookup_1 _ _ _ _ Hb Hrow) as Hlen. simpl in Hlen.
  rewrite rev_alt. change (rev_append row []) with (reverse row).
  rewrite reverse_lookup by lia. f_equal. lia.
Qed.

Lemma is_winner_rows_spec n (b : board) token l :
  length b = n → Forall (λ row, length row = n) b →
  Forall (λ i, (i < n)%nat) l →
  ∃ r, is_winner_rows n b token l = Ok r
    ∧ (r = true ↔
       ∃ i, i ∈ l ∧ ((∀ j, (j < n)%nat → cell_at b i j = Some (Some token))
                     ∨ (∀ k, (k < n)%nat → cell_at b k i = Some (Some token)))).
Proof.
  intros Hlen Hb. induction 1 as [|i l Hi _ IH]; cbn [is_winner_rows].
  { exists false. split; [done|]. split; [done|]. by intros (i & ?%elem_of_nil & _). }
  destruct (b !! i) as [row|] eqn:Hrow; [|apply lookup_ge_None in Hrow; lia].
  pose proof (Forall_lookup_1 _ _ _ _ Hb Hrow) as Hrl. simpl in Hrl.
  assert (Hrowc : check n row token = true
                  ↔ ∀ j, (j < n)%nat → cell_at b i j = Some (Some token)).
  { rewrite (check_lookup n row token Hrl). unfold cell_at. by rewrite Hrow. }
  destruct (check n row token) eqn:Hcr.
  { exists true. split; [done|]. split; [|done]. intros _. exists i.
    split; [by left|]. left. by apply Hrowc. }
  destruct (column_square b n i Hb Hi) as [col Hcol]. rewrite Hcol.
  destruct (column_lookup b i col Hcol) as [Hcl Hck]. rewrite Hlen in Hcl, Hck.
  assert (Hcolc : check n col token = true
                  ↔ ∀ k, (k < n)%nat → cell_at b k i = Some (Some token)).
  { rewrite (check_lookup n col token Hcl). split; intros Hall k Hk.
    - rewrite <- Hck by done. by apply Hall.
    - rewrite Hck by done. by apply Hall. }
  destruct (check n col token) eqn:Hcc.
  { exists true. split; [done|]. split; [|done]. intros _. exists i.
    split; [by left|]. right. by apply Hcolc. }
  destruct IH as (r & -> & Hr). exists r. split; [done|]. rewrite Hr. split.
  - intros (i' & Hi' & Hline). exists i'. split; [by right|done].
  - intros (i' & [->|Hi']%elem_of_cons & Hline); [|eauto].
    destruct Hline as [Hline%Hrowc|Hline%Hcolc]; done.
Qed.

Lemma is_winner_lines token g :
  square g →
  ∃ won, is_winner token g = (g, Ok won)
    ∧ (won = true ↔ has_line (size g) (observation_space g) token).
Proof.
  intros [Hlen Hrows]. unfold is_winner. rewrite bind_run. cbn [get].
  destruct (is_winner_rows_spec (size g) (observation_space g) token (seq 0 (size g)))
    as (r & -> & Hr); [done..| |].
  { apply Forall_forall. intros i ?%elem_of_seq. lia. }
  destruct (diagonal_lookup _ _ Hlen Hrows) as [Hdl Hdk].
  assert (Hd : check (size g) (diagonal (observation_space g)) token = true
               ↔ ∀ k, (k < size g)%nat
                      → cell_at (observation_space g) k k = Some (Some token)).
  { rewrite (check_lookup _ _ token Hdl). split; intros Hall k Hk.
    - rewrite <- Hdk by done. by apply Hall.
    - rewrite Hdk by done. by apply Hall. }
  assert (Hrev : Forall (λ row, length row = size g) (map (@rev cell) (observation_space g))).
  { apply Forall_fmap. eapply Forall_impl; [done|]. intros row Hrow. simpl.
    by rewrite length_rev. }
  destruct (diagonal_lookup (size g) (map (@rev cell) (observation_space g)))
    as [Hal Hak]; [by rewrite length_map|done|].
  assert (Ha : check (size g) (diagonal (map (@rev cell) (observation_space g))) token = true
               ↔ ∀ k, (k < size g)%nat
                      → cell_at (observation_space g) k (size g - 1 - k) = Some (Some token)).
  { rewrite (check_lookup _ _ token Hal). split; intros Hall k Hk.
    - rewrite <- (cell_at_rev (size g)), <- Hak by done. by apply Hall.
    - rewrite Hak, (cell_at_rev (size g)) by done. by apply Hall. }
  assert (Hrl : r = true ↔
    (∃ i, (i < size g)%nat ∧ ∀ j, (j < size g)%nat →
            cell_at (observation_space g) i j = Some (Some token))
    ∨ (∃ j, (j < size g)%nat ∧ ∀ i, (i < size g)%nat →
            cell_at (observation_space g) i j = Some (Some token))).
  { rewrite Hr. split.
    - intros (i & Hi%elem_of_seq & [Hl|Hl]); [left|right]; exists i; (split; [lia|done]).
    - intros [(i & Hi & Hl)|(i & Hi & Hl)]; exists i;
        (split; [apply elem_of_seq; lia|]); auto. }
  unfold has_line. destruct r.
  { exists true. split; [done|]. split; [|done]. intros _.
    destruct (proj1 Hrl eq_refl) as [?|?]; auto. }
  destruct (check _ (diagonal (observation_space g)) token) eqn:Hdc.
  { exists true. split; [done|]. split; [|done]. intros _.
    do 2 right. left. by apply Hd. }
  destruct (check _ (diagonal (map _ _)) token) eqn:Hac.
  { exists true. split; [done|]. split; [|done]. intros _.
    do 3 right. by apply Ha. }
  exists false. split; [done|]. split; [done|].
  intros [Hl|[Hl|[Hl%Hd|Hl%Ha]]]; try done.
  - by apply Hrl; left.
  - by apply Hrl; right.
Qed.

(** X5. [is_winner(token)] on a board of the game's size: no exception, the
    game untouched, and [True] exactly when a row, a column or one of the two
    diagonals holds [token] in each of its cells. *)
Theorem is_winner_complete_line token g :
  square g →
  ∃ won, is_winner token g = (g, Ok won)
    ∧ (won = true ↔ has_line (size g) (observation_space g) token).
Proof. apply is_winner_lines. Qed.

End WinnerFacts.

Lemma is_winner_complete_line_witness :
  ∃ won, is_winner "X" (mkTicTacToe 3 (Some "O"%string) diagonal_board)
         = (mkTicTacToe 3 (Some "O"%string) diagonal_board, Ok won)
    ∧ (won = true ↔ has_line 3 diagonal_board "X").
Proof.
  apply (is_winner_complete_line "X" (mkTicTacToe 3 (Some "O"%string) diagonal_board)).
  split; [reflexivity|]. repeat constructor.
Defined.

(** ** Empty cells *)

Section CountFacts.

Lemma count_none_app (a b : board) : count_none (a ++ b) = (count_none a + count_none b)%nat.
Proof. unfold count_none. by rewrite concat_app, filter_app, length_app. Qed.

Lemma count_none_cons (row : list cell) (b : board) :
  count_none (row :: b) = (length (filter (λ c : cell, c = None) row) + count_none b)%nat.
Proof. unfold count_none. simpl. by rewrite filter_app, length_app. Qed.

Lemma count_row_insert (row : list cell) j tok :
  row !! j = Some None →
  (length (filter (λ c : cell, c = None) (<[j := Some tok]> row)) + 1
   = length (filter (λ c : cell, c = None) row))%nat.
Proof.
  intros Hj. rewrite <- (take_drop_middle row j None Hj) at 2.
  rewrite insert_take_drop by by eapply lookup_lt_Some.
  rewrite !filter_app, !length_app, !filter_cons.
  rewrite decide_False by done. rewrite decide_True by done. simpl.
  unfold cell in *. lia.
Qed.

Lemma count_none_insert (b : board) i j row tok :
  b !! i = Some row → row !! j = Some None →
  (count_none (<[i := <[j := Some tok]> row]> b) + 1 = count_none b)%nat.
Proof.
  intros Hi Hj. rewrite <- (take_drop_middle b i row Hi) at 2.
  rewrite (insert_take_drop b) by by eapply lookup_lt_Some.
  rewrite !count_none_app, !count_none_cons.
  pose proof (count_row_insert row j tok Hj). lia.
Qed.

Lemma row_finished_count (row : list cell) :
  forallb (λ c : cell, bool_decide (c ≠ None)) row = true
  ↔ length (filter (λ c : cell, c = None) row) = 0%nat.
Proof.
  induction row as [|c row IH]; [done|]. rewrite filter_cons.
  destruct c as [s|].
  - rewrite decide_False by done. simpl. by rewrite <- IH.
  - rewrite decide_True by done. simpl. split; [done|lia].
Qed.

(** [is_finished] is: no empty cell is left. *)
Lemma board_finished_count (b : board) :
  board_finished b = true ↔ count_none b = 0%nat.
Proof.
  unfold board_finished. induction b as [|row b IH]; [done|].
  rewrite count_none_cons. simpl. rewrite andb_true_iff, IH, row_finished_count. lia.
Qed.

Lemma count_none_positive (b : board) :
  (0 < count_none b)%nat → ∃ i j, cell_at b i j = Some None.
Proof.
  intros Hpos. destruct (board_finished b) eqn:Hb.
  { apply board_finished_count in Hb. lia. }
  assert (Hnot : ¬ ∀ row, row ∈ b → None ∉ row).
  { intros Hall. apply board_finished_spec in Hall. congruence. }
  destruct (decide (Exists (λ row, None ∈ row) b)) as [Hex|Hnex].
  - apply Exists_exists in Hex as (row & [i Hi]%list_elem_of_lookup & [j Hj]%list_elem_of_lookup).
    exists i, j. unfold cell_at, board, cell in *. by rewrite Hi.
  - exfalso. apply Hnot. intros row Hrow Hin. apply Hnex, Exists_exists. eauto.
Qed.

Lemma np_norm_index_lt n i r : np_norm_index n i = Ok r → (r < n)%nat.
Proof.
  destruct (np_norm_index_cases n i)
    as [(_ & r' & -> & Hr)|[(_ & _ & ->)|(_ & _ & ->)]]; [|done..].
  by intros [= <-].
Qed.

Lemma np_norm_index_nat n i : (i < n)%nat → np_norm_index n (Z.of_nat i) = Ok i.
Proof.
  intros Hi. unfold np_norm_index.
  rewrite (proj2 (Z.leb_le 0 _)) by lia. rewrite (proj2 (Z.ltb_lt _ _)) by lia.
  simpl. by rewrite Nat2Z.id.
Qed.

Lemma np_getitem2_cell (b : board) i j r c x :
  Forall (λ row, length row = length b) b →
  np_norm_index (length b) i = Ok r → np_norm_index (length b) j = Ok c →
  cell_at b r c = Some x →
  np_getitem2 b i j = Ok x.
Proof.
  intros Hb Hi Hj. unfold np_getitem2, np_getitem, cell_at. rewrite Hi.
  unfold board, cell in *. destruct (b !! r) as [row|] eqn:Hrow; [|done]. simpl.
  rewrite (Forall_lookup_1 _ _ _ _ Hb Hrow), Hj. by intros ->.
Qed.

Lemma np_setitem2_cell (b : board) i j r c row v :
  Forall (λ row, length row = length b) b →
  np_norm_index (length b) i = Ok r → np_norm_index (length b) j = Ok c →
  b !! r = Some row →
  np_setitem2 b i j v = <[r := <[c := v]> row]> b.
Proof.
  intros Hb Hi Hj Hrow. unfold np_setitem2. rewrite Hi.
  unfold board, cell in *. rewrite Hrow.
  by rewrite (Forall_lookup_1 _ _ _ _ Hb Hrow), Hj.
Qed.

Lemma cell_at_insert (b : board) r c row v r' c' :
  b !! r = Some row → (c < length row)%nat →
  cell_at (<[r := <[c := v]> row]> b) r' c'
  = if decide (r' = r ∧ c' = c) then Some v else cell_at b r' c'.
Proof.
  intros Hrow Hc. unfold cell_at, board, cell in *.
  pose proof (lookup_lt_Some _ _ _ Hrow) as Hr.
  destruct (decide (r' = r)) as [->|Hne].
  - rewrite list_lookup_insert_eq by done. rewrite Hrow. simpl.
    destruct (decide (c' = c)) as [->|Hnc].
    + rewrite decide_True by done. by rewrite list_lookup_insert_eq.
    + rewrite decide_False by tauto. by rewrite list_lookup_insert_ne.
  - rewrite decide_False by tauto. by rewrite list_lookup_insert_ne.
Qed.

End CountFacts.

(** ** TicTacToe.actions, exactly *)

Section ActionsExact.

Lemma row_where_elem (h : nat → nat) (zi : Z) (row : list cell) a :
  a ∈ omap (λ '(j, c), match c : cell with
                       | None => Some [zi; Z.of_nat j]
                       | Some _ => None
                       end) (imap (λ j c, (h j, c)) row) →
  ∃ j, a = [zi; Z.of_nat (h j)].
Proof.
  intros ([j c] & Hjc & Hc)%list_elem_of_omap.
  apply elem_of_lookup_imap_1 in Hjc as (j' & c' & [= -> ->] & _).
  destruct c'; [done|]. injection Hc as <-. eauto.
Qed.

Lemma row_where_NoDup_from (zi : Z) (row : list cell) : ∀ h : nat → nat,
  Inj (=) (=) h →
  NoDup (omap (λ '(j, c), match c : cell with
                          | None => Some [zi; Z.of_nat j]
                          | Some _ => None
                          end) (imap (λ j c, (h j, c)) row)).
Proof.
  induction row as [|c row IH]; intros h Hh; [constructor|].
  rewrite imap_cons. simpl.
  assert (Hrest : NoDup (omap (λ '(j, c), match c : cell with
                          | None => Some [zi; Z.of_nat j]
                          | Some _ => None
                          end) (imap (λ j c, ((h ∘ S) j, c)) row))).
  { apply IH. intros x y Hxy. simpl in Hxy. apply Hh in Hxy. lia. }
  destruct c as [s|]; [done|]. constructor; [|done].
  intros (j & [= Hj])%(row_where_elem (h ∘ S)). simpl in Hj.
  apply Nat2Z.inj, Hh in Hj. lia.
Qed.

Lemma row_where_NoDup i row : NoDup (row_where i row).
Proof. apply (row_where_NoDup_from (Z.of_nat i) row id). apply _. Qed.

Lemma row_where_first i row a : a ∈ row_where i row → ∃ j, a = [Z.of_nat i; j].
Proof.
  intros ([j c] & Hjc & Hc)%list_elem_of_omap.
  destruct c; [done|]. injection Hc as <-. eauto.
Qed.

Lemma actions_NoDup_from (obs : board) : ∀ h : nat → nat,
  Inj (=) (=) h → NoDup (concat (imap (λ i, row_where (h i)) obs)).
Proof.
  induction obs as [|row obs IH]; intros h Hh; [constructor|].
  rewrite imap_cons. simpl. apply NoDup_app. split; [apply row_where_NoDup|].
  split; [|apply (IH (h ∘ S)); intros x y Hxy; simpl in Hxy; apply Hh in Hxy; lia].
  intros a (j & ->)%row_where_first Hin.
  apply list_elem_of_In, in_concat in Hin as (l & Hl & Ha).
  apply list_elem_of_In in Hl, Ha.
  apply elem_of_lookup_imap_1 in Hl as (i' & row' & -> & _).
  apply row_where_first in Ha as (j' & [= Hi _]). simpl in Hi.
  apply Nat2Z.inj, Hh in Hi. lia.
Qed.

Lemma actions_NoDup (obs : board) : NoDup (actions obs).
Proof. apply (actions_NoDup_from obs id). apply _. Qed.

Lemma actions_elem (obs : board) a :
  a ∈ actions obs ↔ ∃ i j, a = [Z.of_nat i; Z.of_nat j] ∧ cell_at obs i j = Some None.
Proof.
  split.
  - intros (i & j & row & -> & Hi & Hj)%actions_sound. exists i, j. split; [done|].
    unfold cell_at, board, cell in *. by rewrite Hi.
  - intros (i & j & -> & Hc). unfold cell_at, board, cell in *.
    destruct (obs !! i) as [row|] eqn:Hi; [|done]. by eapply empty_cell_in_actions.
Qed.

Lemma actions_length (obs : board) : length (actions obs) = count_none obs.
Proof.
  unfold actions, count_none.
  assert (Hrow : ∀ (row : list cell) (h : nat → nat) (zi : Z),
    length (omap (λ '(j, c), match c : cell with
                             | None => Some [zi; Z.of_nat j]
                             | Some _ => None
                             end) (imap (λ j c, (h j, c)) row))
    = length (filter (λ c : cell, c = None) row)).
  { induction row as [|c row IH]; intros h zi; [done|].
    rewrite imap_cons, filter_cons. simpl. specialize (IH (h ∘ S) zi).
    destruct c as [s|]; simpl; [done|by f_equal]. }
  assert (Hall : ∀ (b : board) (h : nat → nat),
    length (concat (imap (λ i, row_where (h i)) b))
    = length (filter (λ c : cell, c = None) (concat b))).
  { induction b as [|row b IH]; intros h; [done|].
    rewrite imap_cons. simpl. rewrite filter_app, !length_app.
    f_equal; [apply (Hrow row id)|apply (IH (h ∘ S))]. }
  apply (Hall obs id).
Qed.

(** X6. [actions(observation)] lists the coordinates of the empty cells
    and nothing else, each cell once; their number is the number of empty
    cells. *)
Theorem actions_are_the_empty_cells (obs : board) :
  (∀ a, a ∈ actions obs
        ↔ ∃ i j, a = [Z.of_nat i; Z.of_nat j] ∧ cell_at obs i j = Some None)
  ∧ NoDup (actions obs)
  ∧ length (actions obs) = count_none obs.
Proof.
  split; [apply actions_elem|]. split; [apply actions_NoDup|apply actions_length].
Qed.

End ActionsExact.

(** ** TicTacToe.step on a legal move *)

Section LegalMove.

Lemma elem_of_players p : p ∈ players ↔ p = "X"%string ∨ p = "O"%string.
Proof. unfold players. rewrite !elem_of_cons, elem_of_nil. tauto. Qed.

Lemma switch_player_in p : _switch_player p ∈ players.
Proof.
  unfold _switch_player, players. rewrite !filter_cons, filter_nil.
  repeat case_decide; simpl; apply elem_of_players; auto.
Qed.

(** [step] on a legal move, as an equation: the board with the one cell
    written, and the verdict of [is_winner] and [is_finished] on it. *)
Lemma step_legal_run g p i j r c :
  square g → p ∈ players →
  (current_player g = None ∨ current_player g = Some p) →
  np_norm_index (size g) i = Ok r → np_norm_index (size g) j = Ok c →
  cell_at (observation_space g) r c = Some None →
  ∃ row won,
    observation_space g !! r = Some row ∧ row !! c = Some None ∧
    let b' := <[r := <[c := Some p]> row]> (observation_space g) in
    let v := verdict p won (board_finished b') in
    step (Some p) (Some [i; j]) g
    = (mkTicTacToe (size g) v.2 b', Ok (b', v.1.2, v.1.1, v.2))
    ∧ square (mkTicTacToe (size g) v.2 b')
    ∧ (won = true ↔ has_line (size g) b' p).
Proof.
  intros [Hlen Hrows] Hp Hturn Hi Hj Hcell.
  assert (Hrows' : Forall (λ row, length row = length (observation_space g))
                     (observation_space g)) by by rewrite Hlen.
  pose proof Hcell as Hcell'. unfold cell_at in Hcell'.
  destruct (observation_space g !! r) as [row|] eqn:Hrow; [|done]. simpl in Hcell'.
  exists row.
  set (b' := <[r := <[c := Some p]> row]> (observation_space g)).
  assert (Hsq : ∀ cp, square (mkTicTacToe (size g) cp b')).
  { intros cp. split; cbn [observation_space size]; unfold b', board, cell in *.
    - by rewrite length_insert.
    - apply Forall_insert; [done|]. rewrite length_insert.
      by apply (Forall_lookup_1 _ _ _ _ Hrows Hrow). }
  destruct (is_winner_lines p (mkTicTacToe (size g) (current_player g) b') (Hsq _))
    as (won & Hwon & Hline).
  exists won. split; [done|]. split; [done|]. cbv zeta. split; [|split; [apply Hsq|done]].
  unfold step. rewrite bind_run. cbn [get].
  rewrite (bool_decide_eq_true_2 _ Hp). cbn [negb].
  rewrite bool_decide_eq_false_2 by (intros [? ?]; destruct Hturn; congruence).
  rewrite (np_getitem2_cell _ i j r c None) by (done || by rewrite Hlen).
  cbn [truthy]. rewrite bind_run. cbn [modify].
  rewrite (np_setitem2_cell _ i j r c row) by (done || by rewrite Hlen).
  unfold step_outcome, set_observation. rewrite bind_run.
  match goal with
  | |- context [is_winner p ?x] =>
      change x with (mkTicTacToe (size g) (current_player g) b')
  end.
  rewrite Hwon.
  reflexivity.
Qed.

(** X7. A legal move ([player] is one of the two and not out of turn, the
    pair indexes an empty cell, negative indices counting from the end):
    [step] writes the token into that cell and no other, returns a copy of
    the board, and reports one of three verdicts: reward 1, done and the
    mover when the mover now holds a complete line; reward 0, done and
    [None] when there is no such line and the board is full; reward 0, not
    done and the other player otherwise. [current_player] becomes the
    reported player. *)
Theorem step_legal_move g p i j r c :
  square g → p ∈ players →
  (current_player g = None ∨ current_player g = Some p) →
  np_norm_index (size g) i = Ok r → np_norm_index (size g) j = Ok c →
  cell_at (observation_space g) r c = Some None →
  ∃ g' reward done info,
    step (Some p) (Some [i; j]) g = (g', Ok (observation_space g', reward, done, info))
    ∧ size g' = size g ∧ current_player g' = info
    ∧ (∀ r' c', cell_at (observation_space g') r' c'
                = if decide (r' = r ∧ c' = c) then Some (Some p)
                  else cell_at (observation_space g) r' c')
    ∧ (count_none (observation_space g') + 1 = count_none (observation_space g))%nat
    ∧ (has_line (size g) (observation_space g') p →
       (reward, done, info) = (1, true, Some p))
    ∧ (¬ has_line (size g) (observation_space g') p → is_finished g' = true →
       (reward, done, info) = (0, true, None))
    ∧ (¬ has_line (size g) (observation_space g') p → is_finished g' = false →
       (reward, done, info) = (0, false, Some (_switch_player (Some p)))).
Proof.
  intros Hsq Hp Hturn Hi Hj Hcell.
  destruct (step_legal_run g p i j r c Hsq Hp Hturn Hi Hj Hcell)
    as (row & won & Hrow & Hc & Hstep & _ & Hline).
  cbv zeta in Hstep.
  set (b' := <[r := <[c := Some p]> row]> (observation_space g)) in *.
  set (v := verdict p won (board_finished b')) in *.
  exists (mkTicTacToe (size g) v.2 b'), v.1.2, v.1.1, v.2.
  split; [done|]. split; [done|]. split; [done|]. simpl. split.
  { intros r' c'. unfold b'. apply cell_at_insert; [done|]. by eapply lookup_lt_Some. }
  split; [by apply count_none_insert|].
  unfold is_finished. simpl. unfold v, verdict.
  destruct won.
  - split; [done|]. split; intros Hno; destruct Hno; by apply Hline.
  - split; [intros Hl%Hline; done|].
    split; intros _ ->; done.
Qed.

End LegalMove.

Lemma step_legal_move_witness :
  ∃ g' reward done info,
    step (Some "X"%string) (Some [-1; 0]) (init 3)
    = (g', Ok (observation_space g', reward, done, info))
    ∧ size g' = size (init 3) ∧ current_player g' = info
    ∧ (∀ r' c', cell_at (observation_space g') r' c'
                = if decide (r' = 2%nat ∧ c' = 0%nat) then Some (Some "X"%string)
                  else cell_at (observation_space (init 3)) r' c')
    ∧ (count_none (observation_space g') + 1
       = count_none (observation_space (init 3)))%nat
    ∧ (has_line (size (init 3)) (observation_space g') "X" →
       (reward, done, info) = (1, true, Some "X"%string))
    ∧ (¬ has_line (size (init 3)) (observation_space g') "X" → is_finished g' = true →
       (reward, done, info) = (0, true, None))
    ∧ (¬ has_line (size (init 3)) (observation_space g') "X" → is_finished g' = false →
       (reward, done, info) = (0, false, Some (_switch_player (Some "X"%string)))).
Proof.
  apply (step_legal_move (init 3) "X" (-1) 0 2 0).
  - split; [reflexivity|]. repeat constructor.
  - apply elem_of_cons. by left.
  - by left.
  - reflexivity.
  - reflexivity.
  - reflexivity.
Defined.

(** ** Draws *)

Section DrawFacts.
Lemma drawn_nonempty {A} (tape : list nat) (l : list A) :
  l ≠ [] → is_Some (drawn tape l).
Proof.
  intros Hl. unfold drawn. apply lookup_lt_is_Some_2, Nat.mod_upper_bound.
  by destruct l.
Qed.
End DrawFacts.

(** ** simulation on TicTacToe *)

Section RolloutFacts.
Variable xxh64 : list (list pyval) → Z.

Implicit Types (w : @World TicTacToe).

Lemma cell_at_lt (b : board) n i j c :
  length b = n → Forall (λ row, length row = n) b →
  cell_at b i j = Some c → (i < n)%nat ∧ (j < n)%nat.
Proof.
  intros Hlen Hrows Hc. unfold cell_at, board, cell in *.
  destruct (b !! i) as [row|] eqn:Hrow; [|done]. simpl in Hc.
  pose proof (Forall_lookup_1 _ _ _ _ Hrows Hrow) as Hl. simpl in Hl.
  apply lookup_lt_Some in Hrow, Hc. lia.
Qed.

(** The loop of [simulation] on TicTacToe, from a game object that holds
    the observation and expects the player: every move it draws is legal. *)
Lemma simulation_loop_tictactoe fuel : ∀ r p w,
  square (game w) → p ∈ players →
  (current_player (game w) = None ∨ current_player (game w) = Some p) →
  is_finished (game w) = false →
  ∃ w' res,
    @simulation_loop _ (tictactoe_adapter xxh64) fuel (observation_space (game w)) r false (Some p) w
    = (w', res)
    ∧ heap w' = heap w ∧ tree w' = tree w
    ∧ size (game w') = size (game w) ∧ square (game w')
    ∧ ((res = OutOfFuel ∧ (fuel < count_none (observation_space (game w)))%nat)
       ∨ ∃ winner reward, res = Ok (winner, reward)
                          ∧ settled (game w') winner reward).
Proof.
  induction fuel as [|fuel IH]; intros r p w Hsq Hp Hturn Hfin;
    unfold is_finished in Hfin.
  { exists w, OutOfFuel. do 5 (split; [done|]). left. split; [done|].
    destruct (count_none (observation_space (game w))) eqn:Hc; [|lia].
    apply board_finished_count in Hc. congruence. }
  cbn [simulation_loop]. rewrite bind_run. cbn [get g_actions tictactoe_adapter].
  set (g := game w) in *. set (obs := observation_space g) in *.
  assert (Hne : actions obs ≠ []).
  { intros Hnil. pose proof (actions_length obs) as Hl. rewrite Hnil in Hl. simpl in Hl.
    symmetry in Hl. apply board_finished_count in Hl. subst obs g. congruence. }
  destruct (drawn_nonempty (tape w) _ Hne) as [a Ha].
  rewrite bind_run, (random_choice_run _ _ _ Ha).
  apply drawn_elem, actions_elem in Ha as (i & j & -> & Hcell).
  destruct Hsq as [Hlen Hrows].
  destruct (cell_at_lt _ _ _ _ _ Hlen Hrows Hcell) as [Hi Hj].
  destruct (step_legal_run g p (Z.of_nat i) (Z.of_nat j) i j) as
    (row & won & Hrow & Hc & Hstep & Hsq' & Hline);
    [done|done|done|by apply np_norm_index_nat..|done|].
  cbv zeta in Hstep, Hsq', Hline.
  rewrite bind_run. unfold with_game at 1. cbn [game set_tape g_step tictactoe_adapter].
  fold g. rewrite Hstep. cbn [set_game game self_player tree heap tape].
  pose proof (count_none_insert _ _ _ _ p Hrow Hc) as Hcount.
  set (b' := <[i := <[j := Some p]> row]> (observation_space g)) in *.
  unfold verdict in *. destruct won.
  - cbn [fst snd] in *. eexists _, _. split; [by destruct fuel|].
    cbn [game heap tree]. repeat split; try done; try apply Hsq'.
    right. eexists _, _. split; [done|]. left. exists p. repeat split; try done.
    by apply Hline.
  - destruct (board_finished b') eqn:Hfin'.
    + cbn [fst snd] in *. eexists _, _. split; [by destruct fuel|].
      cbn [game heap tree]. repeat split; try done; try apply Hsq'.
      right. eexists _, _. split; [done|]. right. done.
    + cbn [fst snd] in *.
      set (w2 := set_game _ _).
      destruct (IH 0 (_switch_player (Some p)) w2)
        as (w' & res & Hloop & Hh & Ht & Hsz & Hsq2 & Hres);
        [done|apply switch_player_in|by right|done|].
      exists w', res. split; [exact Hloop|].
      split; [by rewrite Hh|]. split; [by rewrite Ht|]. split; [by rewrite Hsz|].
      split; [done|].
      destruct Hres as [[-> Hlt]|Hres]; [left|by right].
      split; [done|]. change (fuel < count_none b')%nat in Hlt.
      change (count_none (observation_space g)) with (count_none obs) in Hcount. lia.
Qed.

End RolloutFacts.

(** ** play *)

Section PlayFacts.
Context {G : Type} `{GameAdapter G}.
Variable np_log : float → float.
Implicit Types (w : @World G) (h : list Node).

(** A key that reads the store can be replaced by its value. *)
Lemma randomax_loop_pure {A V} (gt eq : V → V → bool) (key : A → M (@World G) V)
    (k : A → V) w elements : ∀ cands best,
  (∀ x, x ∈ elements → key x w = (w, Ok (k x))) →
  randomax_loop gt eq key elements cands best w
  = randomax_loop gt eq (λ x, mret (k x)) elements cands best w.
Proof.
  induction elements as [|e elements IH]; intros cands best Hkey; [done|].
  cbn [randomax_loop]. rewrite !bind_run, (Hkey e) by by left.
  cbn [mret M_ret ret]. apply IH. intros x Hx. apply Hkey. by right.
Qed.

Lemma randomax_loop_maxima {S A} (key : A → Z) (s : S) (elements : list A) :
  ∃ out, randomax_loop Z.gtb Z.eqb (λ x, mret (key x)) elements [] None s
         = (s, Ok out)
    ∧ (elements ≠ [] → out ≠ [])
    ∧ ∀ x, x ∈ out → x ∈ elements ∧ ∀ y, y ∈ elements → key y ≤ key x.
Proof.
  destruct elements as [|e elements].
  { exists []. split; [done|]. split; [done|]. by intros x ?%elem_of_nil. }
  cbn [randomax_loop]. rewrite bind_run. cbn [mret M_ret ret default from_option].
  unfold id. rewrite Z.gtb_ltb, Z.ltb_irrefl, Z.eqb_refl.
  destruct (randomax_loop_from key s elements ([] ++ [e]) (key e)) as (out & -> & Hout).
  exists out. split; [done|].
  pose proof (key_max_ge key (key e) elements) as Hge.
  assert (Hb : ∀ y, y ∈ e :: elements → key y ≤ key_max key (key e) elements).
  { intros y [->|Hy]%elem_of_cons; [done|]. by apply key_max_bound. }
  split.
  - intros _ ->.
    destruct (key_max_attained key (key e) elements) as [Heq|(y & Hy & Heq)].
    + assert (e ∈ []) as ?%elem_of_nil; [|done].
      apply Hout. left. split; [by left|done].
    + assert (y ∈ []) as ?%elem_of_nil; [|done].
      apply Hout. right. done.
  - intros x [[Hx Hm]|[Hx Hm]]%Hout.
    + apply list_elem_of_singleton in Hx as ->.
      split; [by left|]. intros y Hy. rewrite Hm. by apply Hb.
    + split; [by right|]. intros y Hy. rewrite Hm. by apply Hb.
Qed.

(** X8. [play] on a root whose children are objects of the store returns
    the action of one of the children with the greatest [visit_count], and
    changes nothing but the state of the random generator; a root without
    children makes it raise [IndexError]. *)
Theorem play_most_visited root w r s :
  heap w !! root = Some r → state r = Some s →
  (∀ c, c ∈ next_nodes s → is_Some (heap w !! c)) →
  (next_nodes s = [] → play root w = (w, Raise IndexError))
  ∧ (next_nodes s ≠ [] →
     ∃ c n, play root w = (set_tape (tail (tape w)) w, Ok (action n))
       ∧ c ∈ next_nodes s ∧ heap w !! c = Some n
       ∧ ∀ c', c' ∈ next_nodes s → visits (heap w) c' ≤ visit_count n).
Proof.
  intros Hr Hs Hkids. unfold play.
  rewrite bind_run, (read_run _ _ _ Hr), bind_run, Hs. cbn [try_attr ret].
  unfold randomax. split.
  - intros ->. by cbn.
  - intros Hne. rewrite !bind_run.
    rewrite (randomax_loop_pure _ _ _ (visits (heap w))).
    2:{ intros x [n Hn]%Hkids. unfold fmap, M_fmap, bind. rewrite (read_run _ _ _ Hn).
        unfold visits, ret. by rewrite Hn. }
    destruct (randomax_loop_maxima (visits (heap w)) w (next_nodes s))
      as (out & -> & Hout & Hmax).
    destruct (drawn_nonempty (tape w) out (Hout Hne)) as [c Hc].
    rewrite (random_choice_run _ _ _ Hc).
    apply drawn_elem, Hmax in Hc as [Hc Hbest].
    destruct (Hkids c Hc) as [n Hn]. exists c, n.
    unfold fmap, M_fmap, bind.
    rewrite (read_run (set_tape (tail (tape w)) w) c n) by done.
    split; [done|]. split; [done|]. split; [done|].
    intros c' Hc'. specialize (Hbest c' Hc'). unfold visits in Hbest at 2.
    by rewrite Hn in Hbest.
Qed.

End PlayFacts.

Lemma play_most_visited_witness :
  (next_nodes searched_state = [] →
   @play TicTacToe 4 searched_world = (searched_world, Raise IndexError))
  ∧ (next_nodes searched_state ≠ [] →
     ∃ c n, @play TicTacToe 4 searched_world
            = (set_tape (tail (tape searched_world)) searched_world, Ok (action n))
       ∧ c ∈ next_nodes searched_state ∧ heap searched_world !! c = Some n
       ∧ ∀ c', c' ∈ next_nodes searched_state →
               visits (heap searched_world) c' ≤ visit_count n).
Proof.
  apply (@play_most_visited TicTacToe 4 searched_world searched_root searched_state).
  - reflexivity.
  - reflexivity.
  - intros c Hc. vm_compute in Hc.
    repeat (apply elem_of_cons in Hc as [->|Hc]; [by eexists|]).
    by apply elem_of_nil in Hc.
Defined.

(** ** The move that [act] returns *)

Section ActionFacts.
Context {G : Type} `{GameAdapter G}.
Variable np_log : float → float.
Implicit Types (w : @World G) (h : list Node).

Lemma for_each_alloc_run {A} (f : A → Node) l : ∀ w,
  for_each (λ a, alloc (f a)) l w
  = (set_heap (heap w ++ map f l) w, Ok (seq (length (heap w)) (length l))).
Proof.
  induction l as [|a l IH]; intros w; simpl.
  - by rewrite app_nil_r, set_heap_heap.
  - rewrite bind_run. unfold alloc at 1. rewrite bind_run. cbn [get].
    rewrite bind_run. cbn [put mret M_ret ret]. rewrite bind_run, IH.
    cbn [set_heap heap game self_player tree tape].
    rewrite length_app, <- app_assoc. simpl.
    by replace (length (heap w) + 1)%nat with (S (length (heap w))) by lia.
Qed.

(** [State(game, observation, reward, done, player)]: one new node for each
    action that the game lists, allocated behind the store. *)
Lemma State_init_run o r d p w :
  State_init o r d p w
  = (set_heap (heap w ++ map (λ a, Node_init (Some a) None None)
                               (g_actions (game w) o)) w,
     Ok (mkState (g_state (game w) o p) o r d p
           (seq (length (heap w)) (length (g_actions (game w) o))))).
Proof.
  unfold State_init. rewrite bind_run. cbn [get]. by rewrite bind_run, for_each_alloc_run.
Qed.

Lemma keeps_actions_refl h : keeps_actions h h.
Proof. intros i n Hn. eauto. Qed.

Lemma keeps_actions_trans h1 h2 h3 :
  keeps_actions h1 h2 → keeps_actions h2 h3 → keeps_actions h1 h3.
Proof.
  intros H12 H23 i n Hn. destruct (H12 _ _ Hn) as (n2 & Hn2 & Ha2).
  destruct (H23 _ _ Hn2) as (n3 & Hn3 & Ha3). exists n3. split; [done|congruence].
Qed.

Lemma same_links_keeps_actions h h' : same_links h h' → keeps_actions h h'.
Proof.
  intros Hl i n Hn. destruct (same_links_lookup _ _ _ _ Hl Hn) as (n' & Hn' & Ha & _).
  eauto.
Qed.

Lemma expansion_keeps_actions pn sel w w' x :
  expansion pn sel w = (w', Ok x) → keeps_actions (heap w) (heap w').
Proof.
  intros Hexp. pose proof Hexp as Hexp'. unfold expansion in Hexp'.
  apply bind_ok in Hexp' as (w1 & nn & [-> Hn]%read_ok & Hrest).
  destruct (state nn) as [t|] eqn:Ht.
  - rewrite (expansion_evaluated _ _ _ _ _ _ _ Hn Ht Hexp). apply keeps_actions_refl.
  - apply bind_ok in Hrest as (w2 & owner & Hpn & _).
    apply try_attr_ok in Hpn as [_ Hpn]. subst pn.
    destruct (expansion_unevaluated _ _ _ _ _ _ Hn Ht Hexp) as (t & fresh & Hh & _).
    rewrite Hh. intros i n Hi. pose proof (lookup_lt_Some _ _ _ Hi) as Hlt.
    destruct (decide (i = sel)) as [->|Hne].
    + rewrite list_lookup_insert_eq by (rewrite length_app; lia).
      eexists. split; [done|]. simpl. congruence.
    + rewrite list_lookup_insert_ne, lookup_app_l by done. eauto.
Qed.

Lemma run_keeps_actions fuel root w w' u :
  run np_log fuel root w = (w', Ok u) → keeps_actions (heap w) (heap w').
Proof.
  unfold run. intros (w1 & [pn sel] & Hsel%selection_heap & Hrun)%bind_ok.
  apply bind_ok in Hrun as (w2 & x & Hexp%expansion_keeps_actions & Hrun).
  apply bind_ok in Hrun as (w3 & [winner reward] & Hsim%simulation_ok & Hback).
  apply backpropagation_links, same_links_keeps_actions in Hback.
  rewrite Hsel in Hexp. rewrite Hsim in Hback. by eapply keeps_actions_trans.
Qed.

Lemma run_n_keeps_actions k fuel root : ∀ w w' u,
  run_n np_log k fuel root w = (w', Ok u) → keeps_actions (heap w) (heap w').
Proof.
  induction k as [|k IH]; intros w w' u; simpl.
  - intros [= <- _]. apply keeps_actions_refl.
  - intros (w1 & [] & Hrun%run_keeps_actions & Hrest%IH)%bind_ok.
    by eapply keeps_actions_trans.
Qed.

(** What [play] returns is the action of a child of the root. *)
Lemma play_ok root w w' a :
  play root w = (w', Ok a) →
  ∃ r s c n, heap w !! root = Some r ∧ state r = Some s
    ∧ c ∈ next_nodes s ∧ heap w !! c = Some n ∧ a = action n.
Proof.
  unfold play. intros (w1 & r & [-> Hr]%read_ok & Hrest)%bind_ok.
  apply bind_ok in Hrest as (w2 & s & [-> Hs]%try_attr_ok & Hrest).
  apply bind_ok in Hrest as (w3 & x & Hx & Hrest).
  apply randomax_ok in Hx as [Hh Hx].
  - apply fmap_ok in Hrest as (n & [-> Hn]%read_ok & ->). rewrite Hh in Hn.
    exists r, s, x, n. done.
  - by intros e v v' z (n & [-> _]%read_ok & _)%fmap_ok.
Qed.

(** X9. [act] on an observation that the tree does not know yet: the move
    it returns is one of the actions that the game lists for the
    observation. *)
Theorem act_returns_listed_action k fuel obs w w' a :
  tree w !! g_state (game w) obs (self_player w) = None →
  act np_log k fuel obs w = (w', Ok a) →
  ∃ x, a = Some x ∧ x ∈ g_actions (game w) obs.
Proof.
  intros Htree. unfold act. intros (w1 & root & Hroot & Hrest)%bind_ok.
  apply bind_ok in Hrest as (w2 & [] & Hrun & Hplay).
  unfold root_for in Hroot. rewrite bind_run in Hroot. cbn [get] in Hroot.
  rewrite bind_run, State_init_run in Hroot.
  rewrite bind_run in Hroot. cbn [get set_heap game self_player tree] in Hroot.
  rewrite Htree in Hroot.
  apply bind_ok in Hroot as (w3 & i & [-> ->]%alloc_ok & Hroot).
  apply bind_ok in Hroot as (w4 & [] & Hreg%register_ok & [= <- <-]).
  cbn [set_heap heap] in *.
  set (acts := g_actions (game w) obs) in *.
  set (fresh := map (λ a, Node_init (Some a) None None) acts) in *.
  set (s := mkState _ _ _ _ _ _) in *.
  set (root := length (heap w ++ fresh)) in *.
  assert (Hr : heap w4 !! root = Some (Node_init None (Some s) None)).
  { rewrite Hreg. unfold root. by rewrite lookup_app_r, Nat.sub_diag by lia. }
  destruct (run_n_grows _ _ _ _ _ _ _ Hrun _ _ _ Hr eq_refl) as (r2 & Hr2 & Hs2).
  apply play_ok in Hplay as (r' & s' & c & n & Hr' & Hs' & Hc & Hn & ->).
  assert (s' = s) as -> by congruence.
  cbn [next_nodes s] in Hc. apply elem_of_seq in Hc as [Hge Hlt].
  destruct (lookup_lt_is_Some_2 acts (c - length (heap w))) as [x Hx]; [lia|].
  assert (Hc1 : heap w4 !! c = Some (Node_init (Some x) None None)).
  { rewrite Hreg. rewrite lookup_app_l by (unfold fresh; rewrite length_app, length_map; lia).
    rewrite lookup_app_r by lia. unfold fresh. by rewrite list_lookup_fmap, Hx. }
  destruct (run_n_keeps_actions _ _ _ _ _ _ Hrun _ _ Hc1) as (n' & Hn' & Ha).
  assert (n' = n) as -> by congruence.
  exists x. split; [by rewrite Ha|]. by eapply list_elem_of_lookup_2.
Qed.

End ActionFacts.

Lemma act_returns_listed_action_witness :
  ∃ x, Some [0; 1] = Some x ∧ x ∈ @g_actions _ demo_game (game demo_world) (np_full 2).
Proof.
  apply (@act_returns_listed_action _ demo_game demo_log 6 50 (np_full 2)
           demo_world searched_world (Some [0; 1])).
  - reflexivity.
  - vm_compute. reflexivity.
Defined.

(** ** What a phase leaves untouched *)

Section PreservesFacts.
Context {S B : Type}.
Variable proj : S → B.

Lemma preserves_ret {A} (a : A) : preserves proj (mret a : M S A).
Proof. by intros s s' r [= <- _]. Qed.

Lemma preserves_raise {A} e : preserves proj (raise e : M S A).
Proof. by intros s s' r [= <- _]. Qed.

Lemma preserves_out_of_fuel {A} : preserves proj (out_of_fuel : M S A).
Proof. by intros s s' r [= <- _]. Qed.

Lemma preserves_get : preserves proj (get : M S S).
Proof. by intros s s' r [= <- _]. Qed.

Lemma preserves_bind {A C} (m : M S A) (f : A → M S C) :
  preserves proj m → (∀ a, preserves proj (f a)) → preserves proj (m ≫= f).
Proof.
  intros Hm Hf s s' r. rewrite bind_run.
  destruct (m s) as [s1 [a|e|]] eqn:E.
  - intros Hfa. rewrite (Hf _ _ _ _ Hfa). by eapply Hm.
  - intros [= <- _]. by eapply Hm.
  - intros [= <- _]. by eapply Hm.
Qed.

Lemma preserves_fmap {A C} (g : A → C) (m : M S A) :
  preserves proj m → preserves proj (g <$> m).
Proof. intros Hm. apply (preserves_bind m); [done|]. intros a. apply preserves_ret. Qed.

Lemma preserves_try_attr {A} (o : option A) : preserves proj (try_attr o : M S A).
Proof. destruct o; [apply preserves_ret|apply preserves_raise]. Qed.

Lemma preserves_try_index {A} (o : option A) : preserves proj (try_index o : M S A).
Proof. destruct o; [apply preserves_ret|apply preserves_raise]. Qed.

Lemma preserves_modify (f : S → S) :
  (∀ s, proj (f s) = proj s) → preserves proj (modify f).
Proof. intros Hf s s' r [= <- _]. apply Hf. Qed.

Lemma preserves_put_get (f : S → S) :
  (∀ s, proj (f s) = proj s) → preserves proj (s ← get; put (f s)).
Proof. intros Hf s s' r [= <- _]. apply Hf. Qed.

Lemma never_bind {A C} (m : M S A) (f : A → M S C) :
  never_game_error m → (∀ a, never_game_error (f a)) → never_game_error (m ≫= f).
Proof.
  intros Hm Hf s s' msg. rewrite bind_run.
  destruct (m s) as [s1 [a|e|]] eqn:E.
  - apply Hf.
  - intros [= <- ->]. by eapply Hm.
  - done.
Qed.

Lemma never_ret {A} (a : A) : never_game_error (mret a : M S A).
Proof. by intros s s' msg. Qed.

Lemma never_out_of_fuel {A} : never_game_error (out_of_fuel : M S A).
Proof. by intros s s' msg. Qed.

Lemma never_get : never_game_error (get : M S S).
Proof. by intros s s' msg. Qed.

Lemma never_modify (f : S → S) : never_game_error (modify f).
Proof. by intros s s' msg. Qed.

Lemma never_fmap {A C} (g : A → C) (m : M S A) :
  never_game_error m → never_game_error (g <$> m).
Proof. intros Hm. apply (never_bind m); [done|]. intros a. apply never_ret. Qed.

Lemma never_try_attr {A} (o : option A) : never_game_error (try_attr o : M S A).
Proof. by destruct o. Qed.

Lemma never_try_index {A} (o : option A) : never_game_error (try_index o : M S A).
Proof. by destruct o. Qed.

End PreservesFacts.

Section EngineFrames.
Context {G : Type} `{GameAdapter G} {B : Type}.
Variable np_log : float → float.
Variable proj : @World G → B.
Hypothesis proj_heap : ∀ h w, proj (set_heap h w) = proj w.
Hypothesis proj_tape : ∀ t w, proj (set_tape t w) = proj w.

Lemma preserves_read i : preserves proj (read i).
Proof.
  apply preserves_bind; [apply preserves_get|]. intros w. apply preserves_try_attr.
Qed.

Lemma preserves_write i n : preserves proj (write i n).
Proof. apply preserves_modify. intros w. apply proj_heap. Qed.

Lemma preserves_alloc n : preserves proj (alloc n).
Proof. intros w w' r [= <- _]. apply proj_heap. Qed.

Lemma preserves_random_choice {A} (l : list A) : preserves proj (random_choice l).
Proof.
  intros w w' r. unfold random_choice. rewrite bind_run. cbn [get].
  destruct l as [|x l]; [by intros [= <- _]|].
  rewrite bind_run. cbn [put]. intros Hr.
  rewrite (preserves_try_index proj _ _ _ _ Hr). apply proj_tape.
Qed.

Lemma preserves_for_each {A C} (f : A → M (@World G) C) l :
  (∀ x, preserves proj (f x)) → preserves proj (for_each f l).
Proof.
  intros Hf. induction l as [|x l IH]; simpl; [apply preserves_ret|].
  apply preserves_bind; [done|]. intros y.
  apply preserves_bind; [done|]. intros ys. apply preserves_ret.
Qed.

Lemma preserves_randomax_loop {A V} (gt eq : V → V → bool)
    (key : A → M (@World G) V) elements : ∀ cands best,
  (∀ x, preserves proj (key x)) →
  preserves proj (randomax_loop gt eq key elements cands best).
Proof.
  induction elements as [|e elements IH]; intros cands best Hkey; simpl;
    [apply preserves_ret|].
  apply preserves_bind; [done|]. intros v. by apply IH.
Qed.

Lemma preserves_randomax {A V} (gt eq : V → V → bool)
    (key : A → M (@World G) V) elements :
  (∀ x, preserves proj (key x)) → preserves proj (randomax gt eq key elements).
Proof.
  intros Hkey. apply preserves_bind; [by apply preserves_randomax_loop|].
  intros c. apply preserves_random_choice.
Qed.

Lemma preserves_UCB1 c node : preserves proj (UCB1 np_log c node).
Proof.
  apply preserves_bind; [apply preserves_read|]. intros n.
  apply preserves_bind.
  { destruct (visit_count n =? 0); [apply preserves_raise|apply preserves_ret]. }
  intros _. apply preserves_bind; [apply preserves_try_attr|]. intros p.
  apply preserves_bind; [apply preserves_read|]. intros pn. apply preserves_ret.
Qed.

Lemma preserves_is_expanded node : preserves proj (is_expanded node).
Proof.
  apply preserves_bind; [apply preserves_read|]. intros n.
  apply preserves_bind; [apply preserves_try_attr|]. intros s.
  apply preserves_bind; [|intros ?; apply preserves_ret].
  apply preserves_for_each. intros a. apply preserves_fmap, preserves_read.
Qed.

Lemma preserves_selection_loop fuel : ∀ node,
  preserves proj (selection_loop np_log fuel node).
Proof.
  induction fuel as [|fuel IH]; intros node; cbn [selection_loop];
    [apply preserves_out_of_fuel|].
  apply preserves_bind; [apply preserves_read|]. intros n.
  apply preserves_bind; [apply preserves_try_attr|]. intros s.
  destruct (done s); [apply preserves_ret|].
  apply preserves_bind; [apply preserves_is_expanded|]. intros [|];
    [|apply preserves_ret].
  apply preserves_bind; [|done].
  apply preserves_randomax. intros x. apply preserves_UCB1.
Qed.

Lemma preserves_selection fuel node : preserves proj (selection np_log fuel node).
Proof.
  apply preserves_bind; [apply preserves_selection_loop|]. intros nd.
  apply preserves_bind; [apply preserves_read|]. intros n.
  apply preserves_bind; [apply preserves_try_attr|]. intros s.
  destruct (done s); [apply preserves_ret|].
  apply preserves_bind.
  { apply preserves_for_each. intros a. apply preserves_fmap, preserves_read. }
  intros flags. apply preserves_bind; [apply preserves_random_choice|].
  intros c. apply preserves_ret.
Qed.

Lemma preserves_node_ne node root : preserves proj (node_ne node root).
Proof.
  apply preserves_bind; [apply preserves_read|]. intros n.
  apply preserves_bind; [apply preserves_read|]. intros r.
  destruct (state n), (state r); (apply preserves_ret || apply preserves_raise).
Qed.

Lemma preserves_backpropagation_loop fuel : ∀ node root winner reward,
  preserves proj (backpropagation_loop fuel node root winner reward).
Proof.
  induction fuel as [|fuel IH]; intros node root winner reward;
    cbn [backpropagation_loop]; [apply preserves_out_of_fuel|].
  apply preserves_bind; [apply preserves_node_ne|]. intros [|]; [|apply preserves_ret].
  apply preserves_bind; [apply preserves_read|]. intros n.
  apply preserves_bind; [apply preserves_write|]. intros _.
  apply preserves_bind; [apply preserves_read|]. intros n1.
  apply preserves_bind; [apply preserves_try_attr|]. intros p.
  apply preserves_bind; [apply preserves_read|]. intros pn.
  apply preserves_bind; [apply preserves_try_attr|]. intros ps.
  apply preserves_bind; [apply preserves_read|]. intros n2.
  apply preserves_bind; [destruct (bool_decide _); apply preserves_write|]. intros _.
  apply preserves_bind; [apply preserves_read|]. intros n3.
  apply preserves_bind; [apply preserves_try_attr|]. intros p'. apply IH.
Qed.

Lemma preserves_backpropagation fuel node root winner reward :
  preserves proj (backpropagation fuel node root winner reward).
Proof.
  apply preserves_bind; [|intros p; apply preserves_backpropagation_loop].
  destruct winner; [apply preserves_ret|].
  apply preserves_bind; [apply preserves_get|]. intros w. apply preserves_random_choice.
Qed.

Lemma preserves_play root : preserves proj (play root).
Proof.
  apply preserves_bind; [apply preserves_read|]. intros r.
  apply preserves_bind; [apply preserves_try_attr|]. intros s.
  apply preserves_bind; [|intros c; apply preserves_fmap, preserves_read].
  apply preserves_randomax. intros x. apply preserves_fmap, preserves_read.
Qed.

Lemma preserves_State_init o r d p : preserves proj (State_init o r d p).
Proof.
  apply preserves_bind; [apply preserves_get|]. intros w.
  apply preserves_bind; [|intros ?; apply preserves_ret].
  apply preserves_for_each. intros a. apply preserves_alloc.
Qed.

Lemma preserves_with_game {A} (m : M G A) :
  (∀ g w, proj (set_game g w) = proj w) → preserves proj (with_game m).
Proof.
  intros proj_game w w' r. unfold with_game. destruct (m (game w)) as [g' r'].
  intros [= <- _]. apply proj_game.
Qed.

Hypothesis proj_step : ∀ p a, preserves proj (with_game (g_step p a)).

Lemma preserves_simulation_loop fuel : ∀ o r d p,
  preserves proj (simulation_loop fuel o r d p).
Proof.
  induction fuel as [|fuel IH]; intros o r d p; cbn [simulation_loop].
  - destruct d; [apply preserves_ret|apply preserves_out_of_fuel].
  - destruct d; [apply preserves_ret|].
    apply preserves_bind; [apply preserves_get|]. intros w.
    apply preserves_bind; [apply preserves_random_choice|]. intros a.
    apply preserves_bind; [apply proj_step|]. intros [[[o' r'] d'] p'].
    apply IH.
Qed.

Lemma preserves_simulation fuel node : preserves proj (simulation fuel node).
Proof.
  apply preserves_bind; [apply preserves_read|]. intros n.
  apply preserves_bind; [apply preserves_try_attr|]. intros s.
  apply preserves_simulation_loop.
Qed.

Hypothesis proj_reset : ∀ p b, preserves proj (with_game (g_reset p b)).
Hypothesis proj_tree : ∀ t w, proj (set_tree t w) = proj w.

Lemma preserves_register node : preserves proj (register node).
Proof.
  apply preserves_bind; [apply preserves_read|]. intros n.
  apply preserves_bind; [apply preserves_try_attr|]. intros s.
  apply preserves_modify. intros w. apply proj_tree.
Qed.

Lemma preserves_expansion pn sel : preserves proj (expansion pn sel).
Proof.
  apply preserves_bind; [apply preserves_read|]. intros nn.
  destruct (state nn); [apply preserves_ret|].
  apply preserves_bind; [apply preserves_try_attr|]. intros p.
  apply preserves_bind; [apply preserves_read|]. intros pn'.
  apply preserves_bind; [apply preserves_try_attr|]. intros ps.
  apply preserves_bind; [apply proj_reset|]. intros _.
  apply preserves_bind; [apply proj_step|]. intros [[[o r] d] pl].
  apply preserves_bind; [apply preserves_State_init|]. intros s.
  apply preserves_bind; [apply preserves_read|]. intros nn'.
  apply preserves_bind; [apply preserves_write|]. intros _.
  apply preserves_bind; [apply preserves_register|]. intros _. apply preserves_ret.
Qed.

Lemma preserves_run fuel root : preserves proj (run np_log fuel root).
Proof.
  apply preserves_bind; [apply preserves_selection|]. intros [pn sel].
  apply preserves_bind; [apply preserves_expansion|]. intros _.
  apply preserves_bind; [apply preserves_simulation|]. intros [winner reward].
  apply preserves_backpropagation.
Qed.

Lemma preserves_run_n k fuel root : preserves proj (run_n np_log k fuel root).
Proof.
  induction k as [|k IH]; simpl; [apply preserves_ret|].
  apply preserves_bind; [apply preserves_run|]. intros _. apply IH.
Qed.

Lemma preserves_root_for obs : preserves proj (root_for obs).
Proof.
  apply preserves_bind; [apply preserves_get|]. intros w.
  apply preserves_bind; [apply preserves_State_init|]. intros s.
  apply preserves_bind; [apply preserves_get|]. intros w1.
  destruct (tree w1 !! _); [apply preserves_ret|].
  apply preserves_bind; [apply preserves_alloc|]. intros root.
  apply preserves_bind; [apply preserves_register|]. intros _. apply preserves_ret.
Qed.

Lemma preserves_act k fuel obs : preserves proj (act np_log k fuel obs).
Proof.
  apply preserves_bind; [apply preserves_root_for|]. intros root.
  apply preserves_bind; [apply preserves_run_n|]. intros _. apply preserves_play.
Qed.

End EngineFrames.

(** ** The exceptions of the phases that do not call the game *)

Section EngineNever.
Context {G : Type} `{GameAdapter G}.
Variable np_log : float → float.

Lemma never_raise {S A} e :
  (∀ msg, e ≠ GameError msg) → never_game_error (raise e : M S A).
Proof. intros He s s' msg [= _ ->]. by eapply He. Qed.

Lemma never_read i : never_game_error (read i : M (@World G) Node).
Proof.
  apply never_bind; [apply never_get|]. intros w. apply never_try_attr.
Qed.

Lemma never_write i n : never_game_error (write i n : M (@World G) unit).
Proof. apply never_modify. Qed.

Lemma never_alloc n : never_game_error (alloc n : M (@World G) nat).
Proof. by intros w w' msg. Qed.

Lemma never_random_choice {A} (l : list A) :
  never_game_error (random_choice l : M (@World G) A).
Proof.
  apply never_bind; [apply never_get|]. intros w.
  destruct l as [|x l]; [by apply never_raise|].
  apply never_bind; [by intros ???|]. intros _. apply never_try_index.
Qed.

Lemma never_for_each {A C} (f : A → M (@World G) C) l :
  (∀ x, never_game_error (f x)) → never_game_error (for_each f l).
Proof.
  intros Hf. induction l as [|x l IH]; simpl; [apply never_ret|].
  apply never_bind; [done|]. intros y.
  apply never_bind; [done|]. intros ys. apply never_ret.
Qed.

Lemma never_randomax_loop {A V} (gt eq : V → V → bool)
    (key : A → M (@World G) V) elements : ∀ cands best,
  (∀ x, never_game_error (key x)) →
  never_game_error (randomax_loop gt eq key elements cands best).
Proof.
  induction elements as [|e elements IH]; intros cands best Hkey; simpl;
    [apply never_ret|].
  apply never_bind; [done|]. intros v. by apply IH.
Qed.

Lemma never_randomax {A V} (gt eq : V → V → bool)
    (key : A → M (@World G) V) elements :
  (∀ x, never_game_error (key x)) → never_game_error (randomax gt eq key elements).
Proof.
  intros Hkey. apply never_bind; [by apply never_randomax_loop|].
  intros c. apply never_random_choice.
Qed.

Lemma never_UCB1 c node : never_game_error (UCB1 (G:=G) np_log c node).
Proof.
  apply never_bind; [apply never_read|]. intros n.
  apply never_bind.
  { destruct (visit_count n =? 0); [by apply never_raise|apply never_ret]. }
  intros _. apply never_bind; [apply never_try_attr|]. intros p.
  apply never_bind; [apply never_read|]. intros pn. apply never_ret.
Qed.

Lemma never_is_expanded node : never_game_error (is_expanded (G:=G) node).
Proof.
  apply never_bind; [apply never_read|]. intros n.
  apply never_bind; [apply never_try_attr|]. intros s.
  apply never_bind; [|intros ?; apply never_ret].
  apply never_for_each. intros a. apply never_fmap, never_read.
Qed.

Lemma never_selection_loop fuel : ∀ node,
  never_game_error (selection_loop (G:=G) np_log fuel node).
Proof.
  induction fuel as [|fuel IH]; intros node; cbn [selection_loop];
    [apply never_out_of_fuel|].
  apply never_bind; [apply never_read|]. intros n.
  apply never_bind; [apply never_try_attr|]. intros s.
  destruct (done s); [apply never_ret|].
  apply never_bind; [apply never_is_expanded|]. intros [|]; [|apply never_ret].
  apply never_bind; [|done].
  apply never_randomax. intros x. apply never_UCB1.
Qed.

Lemma never_selection fuel node : never_game_error (selection (G:=G) np_log fuel node).
Proof.
  apply never_bind; [apply never_selection_loop|]. intros nd.
  apply never_bind; [apply never_read|]. intros n.
  apply never_bind; [apply never_try_attr|]. intros s.
  destruct (done s); [apply never_ret|].
  apply never_bind.
  { apply never_for_each. intros a. apply never_fmap, never_read. }
  intros flags. apply never_bind; [apply never_random_choice|].
  intros c. apply never_ret.
Qed.

Lemma never_node_ne node root : never_game_error (node_ne (G:=G) node root).
Proof.
  apply never_bind; [apply never_read|]. intros n.
  apply never_bind; [apply never_read|]. intros r.
  destruct (state n), (state r); (apply never_ret || by apply never_raise).
Qed.

Lemma never_backpropagation_loop fuel : ∀ node root winner reward,
  never_game_error (backpropagation_loop (G:=G) fuel node root winner reward).
Proof.
  induction fuel as [|fuel IH]; intros node root winner reward;
    cbn [backpropagation_loop]; [apply never_out_of_fuel|].
  apply never_bind; [apply never_node_ne|]. intros [|]; [|apply never_ret].
  apply never_bind; [apply never_read|]. intros n.
  apply never_bind; [apply never_write|]. intros _.
  apply never_bind; [apply never_read|]. intros n1.
  apply never_bind; [apply never_try_attr|]. intros p.
  apply never_bind; [apply never_read|]. intros pn.
  apply never_bind; [apply never_try_attr|]. intros ps.
  apply never_bind; [apply never_read|]. intros n2.
  apply never_bind; [destruct (bool_decide _); apply never_write|]. intros _.
  apply never_bind; [apply never_read|]. intros n3.
  apply never_bind; [apply never_try_attr|]. intros p'. apply IH.
Qed.

Lemma never_backpropagation fuel node root winner reward :
  never_game_error (backpropagation (G:=G) fuel node root winner reward).
Proof.
  apply never_bind; [|intros p; apply never_backpropagation_loop].
  destruct winner; [apply never_ret|].
  apply never_bind; [apply never_get|]. intros w. apply never_random_choice.
Qed.

Lemma never_play root : never_game_error (play (G:=G) root).
Proof.
  apply never_bind; [apply never_read|]. intros r.
  apply never_bind; [apply never_try_attr|]. intros s.
  apply never_bind; [|intros c; apply never_fmap, never_read].
  apply never_randomax. intros x. apply never_fmap, never_read.
Qed.

Lemma never_State_init o r d p : never_game_error (State_init (G:=G) o r d p).
Proof.
  apply never_bind; [apply never_get|]. intros w.
  apply never_bind; [|intros ?; apply never_ret].
  apply never_for_each. intros a. apply never_alloc.
Qed.

Lemma never_register node : never_game_error (register (G:=G) node).
Proof.
  apply never_bind; [apply never_read|]. intros n.
  apply never_bind; [apply never_try_attr|]. intros s. apply never_modify.
Qed.

Lemma never_root_for obs : never_game_error (root_for (G:=G) obs).
Proof.
  apply never_bind; [apply never_get|]. intros w.
  apply never_bind; [apply never_State_init|]. intros s.
  apply never_bind; [apply never_get|]. intros w1.
  destruct (tree w1 !! _); [apply never_ret|].
  apply never_bind; [apply never_alloc|]. intros root.
  apply never_bind; [apply never_register|]. intros _. apply never_ret.
Qed.

End EngineNever.

(** ** The tree and the store across [act] *)

Section TreeFacts.
Context {G : Type} `{GameAdapter G}.
Variable np_log : float → float.
Implicit Types (w : @World G) (h : list Node).

Lemma register_run node w n s :
  heap w !! node = Some n → state n = Some s →
  register node w
  = (set_tree (<[g_state (game w) (observation s) (player s) := node]> (tree w)) w,
     Ok tt).
Proof.
  intros Hn Hs. unfold register. by rewrite bind_run, (read_run _ _ _ Hn), bind_run, Hs.
Qed.

(** [expansion] of an unevaluated child, as an equation on the world. *)
Lemma expansion_world owner sel w w' x nn :
  heap w !! sel = Some nn → state nn = None →
  expansion (Some owner) sel w = (w', Ok x) →
  ∃ pn ps g1 b0 g2 o r d p,
    heap w !! owner = Some pn ∧ state pn = Some ps
    ∧ g_reset (player ps) (Some (observation ps)) (game w) = (g1, Ok b0)
    ∧ g_step (player ps) (action nn) g1 = (g2, Ok (o, r, d, p))
    ∧ x = sel
    ∧ w' = mkWorld g2 (self_player w)
             (<[g_state g2 o p := sel]> (tree w))
             (<[sel := set_state_parent
                         (mkState (g_state g2 o p) o r d p
                            (seq (length (heap w)) (length (g_actions g2 o))))
                         (Some owner) nn]>
                (heap w ++ map (λ a, Node_init (Some a) None None) (g_actions g2 o)))
             (tape w).
Proof.
  intros Hn Hs. unfold expansion. rewrite bind_run, (read_run _ _ _ Hn), Hs.
  intros (w1 & p & [-> [= <-]]%try_attr_ok & Hrest)%bind_ok.
  apply bind_ok in Hrest as (w2 & pn & [-> Hpn]%read_ok & Hrest).
  apply bind_ok in Hrest as (w3 & ps & [-> Hps]%try_attr_ok & Hrest).
  apply bind_ok in Hrest as (w4 & b0 & Hreset & Hrest).
  unfold with_game in Hreset.
  destruct (g_reset _ _ (game w)) as [g1 r1] eqn:Hg1. injection Hreset as <- ->.
  apply bind_ok in Hrest as (w5 & [[[o r] d] pl] & Hstep & Hrest).
  unfold with_game in Hstep. cbn [set_game game] in Hstep.
  destruct (g_step _ _ g1) as [g2 r2] eqn:Hg2. injection Hstep as <- ->.
  rewrite bind_run, State_init_run in Hrest.
  cbn [set_game set_heap game heap self_player tree tape] in Hrest.
  rewrite bind_run in Hrest.
  unfold set_heap, set_game in Hrest. cbn [heap game self_player tree tape] in Hrest.
  erewrite read_run in Hrest
    by (cbn [heap]; rewrite lookup_app_l by (by eapply lookup_lt_Some); exact Hn).
  rewrite bind_run, write_run in Hrest.
  unfold set_heap in Hrest. cbn [heap game self_player tree tape] in Hrest.
  rewrite bind_run in Hrest.
  erewrite register_run in Hrest.
  2:{ cbn [heap]. apply list_lookup_insert_eq. rewrite length_app.
      apply lookup_lt_Some in Hn. lia. }
  2:{ reflexivity. }
  unfold set_tree in Hrest.
  cbn [heap game self_player tree tape observation player] in Hrest.
  injection Hrest as <- <-. exists pn, ps, g1, b0, g2, o, r, d, pl. done.
Qed.

Lemma tree_keyed_grows w w' :
  tree w' = tree w → grows (heap w) (heap w') → tree_keyed w → tree_keyed w'.
Proof.
  intros Ht Hg Hk k i. rewrite Ht. intros Hi%Hk. by eapply grows_ident.
Qed.

Lemma expansion_tree pn sel w w' x :
  tree_keyed w → expansion pn sel w = (w', Ok x) →
  tree_keyed w' ∧ dom (tree w) ⊆ dom (tree w').
Proof.
  intros Hk Hexp. pose proof (expansion_grows _ _ _ _ _ Hexp) as Hg.
  pose proof Hexp as Hexp'. unfold expansion in Hexp'.
  apply bind_ok in Hexp' as (w1 & nn & [-> Hn]%read_ok & Hrest).
  destruct (state nn) as [t|] eqn:Ht.
  { by rewrite (expansion_evaluated _ _ _ _ _ _ _ Hn Ht Hexp). }
  apply bind_ok in Hrest as (w2 & owner & Hpn & _).
  apply try_attr_ok in Hpn as [_ Hpn]. subst pn.
  destruct (expansion_world _ _ _ _ _ _ Hn Ht Hexp)
    as (pn & ps & g1 & b0 & g2 & o & r & d & p & _ & _ & _ & _ & _ & Hw').
  subst w'. cbn [tree heap] in *. split.
  - intros k i. cbn [tree heap]. destruct (decide (k = g_state g2 o p)) as [->|Hne].
    + rewrite lookup_insert_eq. intros [= <-].
      unfold ident. rewrite list_lookup_insert_eq; [done|].
      rewrite length_app. apply lookup_lt_Some in Hn. lia.
    + rewrite lookup_insert_ne by done. intros Hi%Hk. by eapply grows_ident.
  - rewrite dom_insert. set_solver.
Qed.

Lemma run_tree fuel root w w' u :
  tree_keyed w → run np_log fuel root w = (w', Ok u) →
  tree_keyed w' ∧ dom (tree w) ⊆ dom (tree w').
Proof.
  intros Hk. unfold run. intros (w1 & [pn sel] & Hsel & Hrun)%bind_ok.
  apply bind_ok in Hrun as (w2 & x & Hexp & Hrun).
  apply bind_ok in Hrun as (w3 & [winner reward] & Hsim & Hback).
  assert (Hk1 : tree_keyed w1).
  { eapply tree_keyed_grows; [..|exact Hk].
    - by eapply (preserves_selection np_log tree).
    - rewrite (selection_heap _ _ _ _ _ _ Hsel). apply grows_refl. }
  assert (Ht1 : tree w1 = tree w) by by eapply (preserves_selection np_log tree).
  destruct (expansion_tree _ _ _ _ _ Hk1 Hexp) as [Hk2 Hd2].
  assert (Ht3 : tree w3 = tree w2).
  { eapply (preserves_simulation tree); [done..| |done].
    intros p a. by apply preserves_with_game. }
  assert (Ht4 : tree w' = tree w3) by by eapply (preserves_backpropagation tree).
  split.
  - eapply tree_keyed_grows; [exact Ht4| |].
    + apply same_links_grows. by eapply backpropagation_links.
    + eapply tree_keyed_grows; [exact Ht3| |exact Hk2].
      rewrite (simulation_ok _ _ _ _ _ Hsim). apply grows_refl.
  - rewrite Ht4, Ht3, <- Ht1. done.
Qed.

Lemma run_n_tree k fuel root : ∀ w w' u,
  tree_keyed w → run_n np_log k fuel root w = (w', Ok u) →
  tree_keyed w' ∧ dom (tree w) ⊆ dom (tree w').
Proof.
  induction k as [|k IH]; intros w w' u Hk; simpl.
  - by intros [= <- _].
  - intros (w1 & [] & Hrun & Hrest)%bind_ok.
    destruct (run_tree _ _ _ _ _ Hk Hrun) as [Hk1 Hd1].
    destruct (IH _ _ _ Hk1 Hrest) as [Hk2 Hd2].
    split; [done|]. by etrans.
Qed.

(** The world that [root_for] leaves: either the node found under the key
    of the observation, behind which the children of the discarded state
    stay unreferenced; or a new root, registered under that key. *)
Lemma root_for_world obs w w' root :
  root_for obs w = (w', Ok root) →
  let key := g_state (game w) obs (self_player w) in
  let fresh := map (λ a, Node_init (Some a) None None) (g_actions (game w) obs) in
  (tree w !! key = Some root ∧ w' = set_heap (heap w ++ fresh) w)
  ∨ (tree w !! key = None ∧ root = length (heap w ++ fresh)
     ∧ w' = set_tree (<[key := root]> (tree w))
              (set_heap ((heap w ++ fresh)
                         ++ [Node_init None
                               (Some (mkState key obs 0 false (self_player w)
                                        (seq (length (heap w))
                                             (length (g_actions (game w) obs)))))
                               None]) w)).
Proof.
  intros Hroot key fresh. unfold root_for in Hroot.
  rewrite bind_run in Hroot. cbn [get] in Hroot.
  rewrite bind_run, State_init_run in Hroot.
  rewrite bind_run in Hroot. unfold set_heap in Hroot at 1.
  cbn [get game self_player tree heap tape] in Hroot. fold key fresh in Hroot.
  destruct (tree w !! key) as [i|] eqn:Hi.
  - injection Hroot as <- <-. left. done.
  - right. rewrite bind_run in Hroot. unfold alloc in Hroot at 1.
    rewrite bind_run in Hroot. cbn [get] in Hroot. rewrite bind_run in Hroot.
    unfold set_heap in Hroot.
    cbn [put mret M_ret ret game self_player tree heap tape] in Hroot.
    rewrite bind_run in Hroot. erewrite register_run in Hroot.
    2:{ cbn [heap]. by rewrite lookup_app_r, Nat.sub_diag by lia. }
    2:{ reflexivity. }
    injection Hroot as <- <-. done.
Qed.

Lemma root_for_tree obs w w' root :
  tree_keyed w → root_for obs w = (w', Ok root) →
  tree_keyed w' ∧ dom (tree w) ⊆ dom (tree w')
  ∧ tree w' !! g_state (game w) obs (self_player w) = Some root.
Proof.
  intros Hk [[Hfound ->]|(Hnone & -> & ->)]%root_for_world.
  - split; [|done]. intros k i. unfold set_heap. cbn [tree heap]. intros Hi%Hk.
    unfold ident in *. destruct (heap w !! i) as [n|] eqn:Hn; [|done].
    by rewrite (lookup_app_l_Some _ _ _ _ Hn).
  - unfold set_tree, set_heap. cbn [tree heap game self_player]. split; [|split].
    + intros k i. cbn [tree heap].
      destruct (decide (k = g_state (game w) obs (self_player w))) as [->|Hne].
      * rewrite lookup_insert_eq. intros [= <-]. unfold ident.
        by rewrite lookup_app_r, Nat.sub_diag by lia.
      * rewrite lookup_insert_ne by done. intros Hi%Hk.
        unfold ident in *. destruct (heap w !! i) as [n|] eqn:Hn; [|done].
        rewrite <- app_assoc. by rewrite (lookup_app_l_Some _ _ _ _ Hn).
    + rewrite dom_insert. set_solver.
    + by rewrite lookup_insert_eq.
Qed.

(** X10. The tree across [act]: when every key of the tree leads to a node
    whose state has that key as its identifier, this is still so after
    [act], and no key was removed (an entry can be overwritten by a node
    with the same key). *)
Theorem act_keeps_tree_keys k fuel obs w w' a :
  tree_keyed w → act np_log k fuel obs w = (w', Ok a) →
  tree_keyed w' ∧ dom (tree w) ⊆ dom (tree w')
  ∧ g_state (game w) obs (self_player w) ∈ dom (tree w').
Proof.
  intros Hk. unfold act. intros (w1 & root & Hroot & Hrest)%bind_ok.
  apply bind_ok in Hrest as (w2 & [] & Hrun & Hplay).
  destruct (root_for_tree _ _ _ _ Hk Hroot) as (Hk1 & Hd1 & Hkey).
  destruct (run_n_tree _ _ _ _ _ _ Hk1 Hrun) as [Hk2 Hd2].
  assert (Ht : tree w' = tree w2) by by eapply (preserves_play tree).
  split; [|split].
  - eapply tree_keyed_grows; [exact Ht| |exact Hk2].
    rewrite (play_heap _ _ _ _ Hplay). apply grows_refl.
  - rewrite Ht. set_solver.
  - rewrite Ht. apply Hd2. apply elem_of_dom. eauto.
Qed.

(** X11. [act] twice on one observation, by way of the roots: the node
    that the first call registers (or finds) is the node that a second call
    on the same observation finds. *)
Theorem root_for_again obs w w' root :
  root_for obs w = (w', Ok root) →
  ∃ w2, root_for obs w' = (w2, Ok root) ∧ tree w2 = tree w'.
Proof.
  intros Hroot.
  assert (Hkey : tree w' !! g_state (game w') obs (self_player w') = Some root
                 ∧ game w' = game w).
  { apply root_for_world in Hroot as [[Hfound ->]|(Hnone & -> & ->)]; [done|].
    unfold set_tree, set_heap. cbn [tree game self_player].
    by rewrite lookup_insert_eq. }
  destruct Hkey as [Hkey Hg].
  unfold root_for. rewrite bind_run. cbn [get]. rewrite bind_run, State_init_run.
  rewrite bind_run. unfold set_heap at 1. cbn [get game self_player tree heap tape].
  rewrite Hkey. eexists. split; [done|done].
Qed.

End TreeFacts.

Lemma act_keeps_tree_keys_witness :
  tree_keyed searched_world
  ∧ dom (tree demo_world) ⊆ dom (tree searched_world)
  ∧ @g_state _ demo_game (game demo_world) (np_full 2) (self_player demo_world)
    ∈ dom (tree searched_world).
Proof.
  apply (@act_keeps_tree_keys _ demo_game demo_log 6 50 (np_full 2)
           demo_world searched_world (Some [0; 1])).
  - intros k i Hk. change (tree demo_world) with (∅ : gmap Z nat) in Hk.
    by rewrite lookup_empty in Hk.
  - vm_compute. reflexivity.
Defined.

Lemma root_for_again_witness :
  ∃ w2, @root_for _ demo_game (np_full 2) rooted_world = (w2, Ok 4%nat)
        ∧ tree w2 = tree rooted_world.
Proof.
  apply (@root_for_again _ demo_game (np_full 2) demo_world rooted_world 4).
  vm_compute. reflexivity.
Defined.

(** ** The shape of the store across [act] *)

Section ShapeKept.
Context {G : Type} `{GameAdapter G}.
Variable np_log : float → float.
Implicit Types (w : @World G) (h : list Node).

(** What [selection] returns, whatever the root: an evaluated node (a
    terminal one), or an unevaluated child together with its owner, which
    is not terminal. *)
Lemma selection_cases fuel root w w' pn sel :
  selection np_log fuel root w = (w', Ok (pn, sel)) →
  heap w' = heap w
  ∧ ((∃ n t, heap w !! sel = Some n ∧ state n = Some t ∧ done t = true)
     ∨ (∃ owner on os n,
          pn = Some owner ∧ heap w !! owner = Some on ∧ state on = Some os
          ∧ done os = false ∧ sel ∈ next_nodes os
          ∧ heap w !! sel = Some n ∧ state n = None)).
Proof.
  intros Hsel. pose proof (selection_heap _ _ _ _ _ _ Hsel) as Hh. split; [done|].
  unfold selection in Hsel. apply bind_ok in Hsel as (w1 & node & Hloop & Hrest).
  apply (selection_loop_ok np_log root fuel root [] w w1 node) in Hloop as [Hh1 _];
    [|constructor].
  apply bind_ok in Hrest as (w2 & n & [-> Hn]%read_ok & Hrest).
  apply bind_ok in Hrest as (w3 & t & [-> Ht]%try_attr_ok & Hrest).
  rewrite Hh1 in Hn. destruct (done t) eqn:Hdt.
  - injection Hrest as <- <- <-. left. eauto.
  - apply bind_ok in Hrest as (w4 & flags & Hflags & Hrest).
    assert (w4 = w1 ∧ Forall2 (λ a af, af.1 = a
              ∧ ∃ x, heap w1 !! a = Some x ∧ af.2 = is_evaluated x) (next_nodes t) flags)
      as [-> Hfl].
    { eapply (for_each_ok _ (λ w a af, af.1 = a
              ∧ ∃ x, heap w !! a = Some x ∧ af.2 = is_evaluated x)); [|exact Hflags].
      intros x v v' y (a & [-> Ha]%read_ok & ->)%fmap_ok. simpl. eauto. }
    apply bind_ok in Hrest as (w5 & child & [-> Hc%drawn_elem]%random_choice_ok & [= <- <- <-]).
    right. apply list_elem_of_fmap in Hc as ([a b] & -> & Hc). simpl in *.
    apply list_elem_of_filter in Hc as [Hb Hc]. simpl in Hb. subst b.
    apply list_elem_of_lookup in Hc as [k Hk].
    destruct (Forall2_lookup_r _ _ _ _ _ Hfl Hk) as (a' & Ha' & Heq & x & Hx & Hev).
    simpl in Heq, Hev. subst a'. rewrite Hh1 in Hx.
    exists node, n, t, x. repeat split; try done.
    + by eapply list_elem_of_lookup_2.
    + unfold is_evaluated in Hev. symmetry in Hev. apply bool_decide_eq_false in Hev.
      destruct (state x); [|done]. exfalso. apply Hev. eauto.
Qed.

Lemma wf_app_fresh h fresh :
  wf_heap h → Forall (λ n, state n = None) fresh → wf_heap (h ++ fresh).
Proof.
  intros [Hb Hn Ho Hp] Hfresh.
  assert (Hkids : ∀ i, kids (h ++ fresh) i = kids h i).
  { intros i. unfold kids. destruct (decide (i < length h)%nat) as [Hlt|Hge].
    - by rewrite lookup_app_l.
    - rewrite lookup_app_r, (proj2 (lookup_ge_None h i)) by lia. simpl.
      destruct (fresh !! _) as [n|] eqn:Hi; [|done]. simpl.
      by rewrite (Forall_lookup_1 _ _ _ _ Hfresh Hi). }
  split.
  - intros i c. rewrite Hkids, length_app. intros ?%Hb. lia.
  - intros i. by rewrite Hkids.
  - intros i j c. rewrite !Hkids. apply Ho.
  - intros i c n. rewrite Hkids. intros Hc Hcn. eapply Hp; [done|].
    by rewrite lookup_app_l in Hcn by by eapply Hb.
Qed.

Lemma run_wf fuel root w w' u :
  wf_heap (heap w) → run np_log fuel root w = (w', Ok u) → wf_heap (heap w').
Proof.
  intros Hwf. unfold run. intros (w1 & [pn sel] & Hsel & Hrun)%bind_ok.
  apply selection_cases in Hsel as [Hh1 Hcase].
  apply bind_ok in Hrun as (w2 & x & Hexp & Hrun).
  apply bind_ok in Hrun as (w3 & [winner reward] & Hsim%simulation_ok & Hback).
  apply backpropagation_links in Hback. rewrite Hsim in Hback.
  eapply same_links_wf; [done|].
  destruct Hcase as [(n & t & Hn & Ht & _)|(owner & on & os & n & -> & Hon & Hos & _ & Hkid & Hn & Ht)];
    rewrite <- Hh1 in Hn.
  - apply (expansion_evaluated _ _ _ _ _ _ _ Hn Ht) in Hexp as ->. by rewrite Hh1.
  - apply (expansion_unevaluated _ _ _ _ _ _ Hn Ht) in Hexp
      as (t & fresh & -> & Hnext & Hfresh).
    rewrite Hh1 in Hn, Hnext |- *.
    eapply expanded_wf; try done. by rewrite (kids_eq _ _ _ _ Hon Hos).
Qed.

Lemma run_n_wf k fuel root : ∀ w w' u,
  wf_heap (heap w) → run_n np_log k fuel root w = (w', Ok u) → wf_heap (heap w').
Proof.
  induction k as [|k IH]; intros w w' u Hwf; simpl.
  - by intros [= <- _].
  - intros (w1 & [] & Hrun & Hrest)%bind_ok.
    eapply IH; [|done]. by eapply run_wf.
Qed.

Lemma root_for_wf obs w w' root :
  wf_heap (heap w) → root_for obs w = (w', Ok root) → wf_heap (heap w').
Proof.
  intros Hwf Hroot. pose proof Hroot as [[Hfound ->]|(Hnone & _ & _)]%root_for_world.
  - unfold set_heap. cbn [heap]. apply wf_app_fresh; [done|].
    apply Forall_forall. by intros n (a & -> & _)%list_elem_of_fmap.
  - by destruct (root_for_fresh _ _ _ _ Hwf Hnone Hroot) as [? _].
Qed.

(** X12. The shape of the store across [act]: when the [next_nodes] lists
    hold objects of the store, each object once and in one list only, and
    every evaluated node of a list has the owner of the list as its
    [parent], this is still so when [act] returns: the search keeps a
    forest, whatever the hash does. *)
Theorem act_keeps_store_shape k fuel obs w w' a :
  wf_heap (heap w) → act np_log k fuel obs w = (w', Ok a) → wf_heap (heap w').
Proof.
  intros Hwf. unfold act. intros (w1 & root & Hroot & Hrest)%bind_ok.
  apply bind_ok in Hrest as (w2 & [] & Hrun & Hplay%play_heap).
  rewrite Hplay. eapply run_n_wf; [|done]. by eapply root_for_wf.
Qed.

End ShapeKept.

Lemma act_keeps_store_shape_witness : wf_heap (heap searched_world).
Proof.
  apply (@act_keeps_store_shape _ demo_game demo_log 6 50 (np_full 2)
           demo_world searched_world (Some [0; 1])).
  - apply wf_heap_nil.
  - vm_compute. reflexivity.
Defined.

(** ** The engine on TicTacToe: no illegal move *)

Section TicTacToeEngine.
Variable xxh64 : list (list pyval) → Z.
Variable np_log : float → float.

Implicit Types (w : @World TicTacToe) (h : list Node).

Lemma step_size player move : preserves size (step player move).
Proof.
  intros g g' r. unfold step. rewrite bind_run. cbn [get].
  destruct player as [p|]; [|by intros [= <- _]].
  repeat case_match; try (by intros [= <- _]).
  rewrite bind_run. cbn [modify]. unfold step_outcome. rewrite bind_run.
  match goal with
  | |- context [is_winner p ?x] => destruct (is_winner_frame p x) as (r0 & -> & _)
  end.
  destruct r0; by intros [= <- _].
Qed.

Lemma reset_size p b : preserves size (reset p b).
Proof. by intros g g' r [= <- _]. Qed.

Lemma with_game_size {A} (m : M TicTacToe A) :
  preserves size m → preserves (λ w, size (game w)) (with_game m).
Proof.
  intros Hm w w' r. unfold with_game. destruct (m (game w)) as [g' r'] eqn:E.
  intros [= <- _]. cbn. by eapply Hm.
Qed.

Lemma act_size k fuel obs :
  preserves (λ w, size (game w)) (@act _ (tictactoe_adapter xxh64) np_log k fuel obs).
Proof.
  apply preserves_act; try done.
  - intros p a. apply with_game_size, step_size.
  - intros p b. apply with_game_size, reset_size.
Qed.

Lemma run_size fuel root :
  preserves (λ w, size (game w)) (@run _ (tictactoe_adapter xxh64) np_log fuel root).
Proof.
  apply preserves_run; try done.
  - intros p a. apply with_game_size, step_size.
  - intros p b. apply with_game_size, reset_size.
Qed.

Lemma playable_same_links n h h' : same_links h h' → playable n h → playable n h'.
Proof.
  intros Hl Hp i nd s Hi Hs.
  destruct (same_links_lookup_r _ _ _ _ Hl Hi) as (nd0 & Hi0 & _ & Hs0 & _).
  rewrite <- Hs0 in Hs. destruct (Hp _ _ _ Hi0 Hs) as (Hsq & Hpl & Hkids).
  split; [done|]. split; [done|]. intros c cn Hc Hcn Hnone.
  destruct (same_links_lookup_r _ _ _ _ Hl Hcn) as (cn0 & Hcn0 & Ha & Hs1 & _).
  rewrite <- Ha. eapply Hkids; [done..|congruence].
Qed.

(** A store that keeps the evaluated nodes and the unevaluated ones of the
    old store, and whose new states are as the engine builds them. *)
Lemma playable_extend n h h' :
  playable n h → wf_heap h →
  (∀ i nd s, h' !! i = Some nd → state nd = Some s →
     (∃ nd0, h !! i = Some nd0 ∧ state nd0 = Some s)
     ∨ ((length (observation s) = n ∧ Forall (λ row, length row = n) (observation s))
        ∧ (done s = false → ∃ p, player s = Some p ∧ p ∈ players)
        ∧ ∀ c cn, c ∈ next_nodes s → h' !! c = Some cn → state cn = None →
            ∃ a, action cn = Some a ∧ a ∈ actions (observation s))) →
  (∀ c cn, (c < length h)%nat → h' !! c = Some cn → state cn = None →
     ∃ cn0, h !! c = Some cn0 ∧ state cn0 = None ∧ action cn0 = action cn) →
  playable n h'.
Proof.
  intros Hp Hwf Hnodes Hold i nd s Hi Hs.
  destruct (Hnodes _ _ _ Hi Hs) as [(nd0 & Hi0 & Hs0)|Hnew]; [|done].
  destruct (Hp _ _ _ Hi0 Hs0) as (Hsq & Hpl & Hkids).
  split; [done|]. split; [done|]. intros c cn Hc Hcn Hnone.
  assert (Hlt : (c < length h)%nat).
  { apply (wf_bound _ Hwf i). by rewrite (kids_eq _ _ _ _ Hi0 Hs0). }
  destruct (Hold _ _ Hlt Hcn Hnone) as (cn0 & Hcn0 & Hnone0 & Ha).
  rewrite <- Ha. by eapply Hkids.
Qed.

Lemma fresh_nodes_lookup (h : list Node) (acts : list (list Z)) c cn :
  (length h ≤ c)%nat →
  (h ++ map (λ a, Node_init (Some a) None None) acts) !! c = Some cn →
  state cn = None ∧ ∃ a, action cn = Some a ∧ a ∈ acts.
Proof.
  intros Hge. rewrite lookup_app_r by done.
  change (map ?f ?l) with (f <$> l). rewrite list_lookup_fmap.
  destruct (acts !! _) as [a|] eqn:Ha; [|done]. intros [= <-].
  split; [done|]. exists a. split; [done|]. by eapply list_elem_of_lookup_2.
Qed.

Lemma descending_same_links h h' :
  same_links h h' → descending xxh64 h → descending xxh64 h'.
Proof.
  intros Hl Hd i nd s Hi Hs.
  destruct (same_links_lookup_r _ _ _ _ Hl Hi) as (nd0 & Hi0 & _ & Hs0 & _).
  rewrite <- Hs0 in Hs. destruct (Hd _ _ _ Hi0 Hs) as [Hid Hkids].
  split; [done|]. intros c cn cs Hc Hcn Hcs.
  destruct (same_links_lookup_r _ _ _ _ Hl Hcn) as (cn0 & Hcn0 & _ & Hs1 & _).
  eapply Hkids; [done..|congruence].
Qed.

(** A store that keeps the evaluated nodes of the old one, and whose new
    states have the key of their observation and fewer empty cells than the
    state that lists them. *)
Lemma descending_extend h h' :
  descending xxh64 h →
  (∀ i nd s, h' !! i = Some nd → state nd = Some s →
     (∃ nd0, h !! i = Some nd0 ∧ state nd0 = Some s)
     ∨ (identifier s = xxh64 (normalize (observation s) (player s))
        ∧ ∀ c cn cs, c ∈ next_nodes s → h' !! c = Some cn → state cn = Some cs →
            is_Some (player s)
            ∧ (count_none (observation cs) < count_none (observation s))%nat)) →
  (∀ i nd0 s c cn cs, h !! i = Some nd0 → state nd0 = Some s →
     c ∈ next_nodes s → h' !! c = Some cn → state cn = Some cs →
     (∃ cn0, h !! c = Some cn0 ∧ state cn0 = Some cs)
     ∨ (is_Some (player s)
        ∧ (count_none (observation cs) < count_none (observation s))%nat)) →
  descending xxh64 h'.
Proof.
  intros Hd Hnodes Hkids i nd s Hi Hs.
  destruct (Hnodes _ _ _ Hi Hs) as [(nd0 & Hi0 & Hs0)|Hnew]; [|done].
  destruct (Hd _ _ _ Hi0 Hs0) as [Hid Hold].
  split; [done|]. intros c cn cs Hc Hcn Hcs.
  destruct (Hkids _ _ _ _ _ _ Hi0 Hs0 Hc Hcn Hcs) as [(cn0 & Hcn0 & Hcs0)|Hnew]; [|done].
  by eapply Hold.
Qed.

(** [expansion] on TicTacToe, for an unevaluated child of a node that is
    not terminal: the move is legal, nothing is raised. *)
Lemma expansion_tictactoe owner sel w on os nn :
  wf_heap (heap w) → playable (size (game w)) (heap w) →
  heap w !! owner = Some on → state on = Some os → done os = false →
  sel ∈ next_nodes os → heap w !! sel = Some nn → state nn = None →
  ∃ w' s,
    @expansion _ (tictactoe_adapter xxh64) (Some owner) sel w = (w', Ok sel)
    ∧ heap w' !! sel = Some (set_state_parent s (Some owner) nn)
    ∧ wf_heap (heap w') ∧ playable (size (game w)) (heap w')
    ∧ observation_space (game w') = observation s ∧ square (game w')
    ∧ (done s = false →
       ∃ q, player s = Some q ∧ q ∈ players
            ∧ current_player (game w') = Some q ∧ is_finished (game w') = false)
    ∧ (done s = true → settled (game w') (player s) (reward s))
    ∧ (count_none (observation s) + 1 = count_none (observation os))%nat
    ∧ (descending xxh64 (heap w) → descending xxh64 (heap w')).
Proof.
  intros Hwf Hplay Hon Hos Hd Hsel Hnn Hnone.
  destruct (Hplay _ _ _ Hon Hos) as ((Hlen & Hrows) & Hpl & Hkids).
  destruct (Hpl Hd) as (p & Hp & Hpin).
  destruct (Hkids _ _ Hsel Hnn Hnone) as (a & Ha & (i & j & -> & Hcell)%actions_elem).
  destruct (cell_at_lt _ _ _ _ _ Hlen Hrows Hcell) as [Hi Hj].
  set (g1 := mkTicTacToe (size (game w)) (Some p) (observation os)).
  destruct (step_legal_run g1 p (Z.of_nat i) (Z.of_nat j) i j) as
    (row & won & Hrow & Hc0 & Hstep & Hsq' & Hline);
    [done|done|by right|by apply np_norm_index_nat..|done|].
  cbn [size observation_space g1] in Hrow, Hstep, Hsq', Hline. cbv zeta in Hstep, Hsq'.
  set (b' := <[i := <[j := Some p]> row]> (observation os)) in *.
  set (v := verdict p won (board_finished b')) in *.
  set (g2 := mkTicTacToe (size (game w)) v.2 b') in *.
  set (s := mkState (xxh64 (normalize b' v.2)) b' v.1.2 v.1.1 v.2
              (seq (length (heap w)) (length (actions b')))).
  set (fresh := map (λ a, Node_init (Some a) None None) (actions b')).
  set (h' := <[sel := set_state_parent s (Some owner) nn]> (heap w ++ fresh)).
  assert (Hsellt : (sel < length (heap w))%nat) by by eapply lookup_lt_Some.
  exists (mkWorld g2 (self_player w) (<[xxh64 (normalize b' v.2) := sel]> (tree w))
            h' (tape w)), s.
  assert (Hsel' : h' !! sel = Some (set_state_parent s (Some owner) nn)).
  { unfold h'. apply list_lookup_insert_eq. rewrite length_app. lia. }
  split.
  { unfold expansion. rewrite bind_run, (read_run _ _ _ Hnn), Hnone.
    rewrite bind_run. cbn [try_attr ret]. rewrite bind_run, (read_run _ _ _ Hon).
    rewrite bind_run, Hos. cbn [try_attr ret]. rewrite Hp.
    rewrite bind_run. unfold with_game at 1. cbn [g_reset tictactoe_adapter].
    unfold reset. rewrite bind_run. cbn [get]. rewrite bind_run. cbn [put mret M_ret ret].
    fold g1. rewrite bind_run. unfold with_game at 1.
    cbn [g_step tictactoe_adapter set_game game]. rewrite Ha, Hstep.
    rewrite bind_run, State_init_run. unfold set_game, set_heap.
    cbn [game heap self_player tree tape g_actions g_state tictactoe_adapter].
    fold b' v g2 s fresh. unfold TicTacToe.state. fold s.
    rewrite bind_run. erewrite read_run
      by (cbn [heap]; rewrite lookup_app_l by done; exact Hnn).
    rewrite bind_run, write_run. unfold set_heap. cbn [game heap self_player tree tape].
    fold h'. rewrite bind_run. erewrite register_run by (cbn [heap]; done).
    reflexivity. }
  cbn [heap game]. split; [done|].
  assert (Hnext : next_nodes s = seq (length (heap w)) (length fresh)).
  { unfold fresh. by rewrite length_map. }
  assert (Hfresh : Forall (λ n, state n = None) fresh).
  { apply Forall_forall. by intros n (x & -> & _)%list_elem_of_fmap. }
  split.
  { eapply expanded_wf; try done. by rewrite (kids_eq _ _ _ _ Hon Hos). }
  split.
  { apply (playable_extend _ (heap w)); [done..| |].
    - intros k nd t Hk Ht. destruct (decide (k = sel)) as [->|Hne].
      + right. rewrite Hsel' in Hk. injection Hk as <-. injection Ht as <-.
        cbn [observation done player next_nodes s]. split; [apply Hsq'|]. split.
        * unfold v, verdict. intros Hdone. exists (_switch_player (Some p)).
          split; [|apply switch_player_in].
          destruct won; [done|]. by destruct (board_finished b').
        * intros c cn [Hge _]%elem_of_seq Hcn Hcnone.
          unfold h' in Hcn. rewrite list_lookup_insert_ne in Hcn by lia.
          by apply fresh_nodes_lookup in Hcn as [_ ?].
      + unfold h' in Hk. rewrite list_lookup_insert_ne in Hk by done.
        destruct (decide (k < length (heap w))%nat) as [Hlt|Hge].
        * left. rewrite lookup_app_l in Hk by done. eauto.
        * apply fresh_nodes_lookup in Hk as [Hk _]; [congruence|lia].
    - intros c cn Hlt Hcn Hcnone.
      destruct (decide (c = sel)) as [->|Hne].
      + rewrite Hsel' in Hcn. by injection Hcn as <-.
      + unfold h' in Hcn.
        rewrite list_lookup_insert_ne, lookup_app_l in Hcn by done. eauto. }
  split; [done|]. split; [apply Hsq'|].
  cbn [done player reward observation s g2 current_player]. unfold is_finished, settled.
  cbn [observation_space size]. unfold v, verdict.
  split; [|split; [|split; [by apply (count_none_insert _ _ _ _ p Hrow Hc0)|]]].
  - intros Hdone. exists (_switch_player (Some p)).
    destruct won; [done|]. destruct (board_finished b') eqn:Hfin; [done|].
    cbn. split; [done|]. split; [apply switch_player_in|done].
  - intros Hdone. destruct won.
    + left. exists p. cbn. repeat split; try done. by apply Hline.
    + destruct (board_finished b') eqn:Hfin; [|done]. right. done.
  - intros Hdesc. apply (descending_extend (heap w)); [done| |].
    + intros k nd t Hk Ht. destruct (decide (k = sel)) as [->|Hne].
      * right. rewrite Hsel' in Hk. injection Hk as <-. injection Ht as <-.
        split; [done|]. cbn [next_nodes s].
        intros c cn cs [Hge _]%elem_of_seq Hcn Hcs.
        unfold h' in Hcn. rewrite list_lookup_insert_ne in Hcn by lia.
        apply fresh_nodes_lookup in Hcn as [Hcn _]; [congruence|done].
      * unfold h' in Hk. rewrite list_lookup_insert_ne in Hk by done.
        destruct (decide (k < length (heap w))%nat) as [Hlt|Hge].
        -- left. rewrite lookup_app_l in Hk by done. eauto.
        -- apply fresh_nodes_lookup in Hk as [Hk _]; [congruence|lia].
    + intros k nd0 t c cn cs Hk Ht Hc Hcn Hcs.
      destruct (decide (c = sel)) as [->|Hne].
      * right. rewrite Hsel' in Hcn. injection Hcn as <-. injection Hcs as <-.
        assert (k = owner) as ->.
        { apply (wf_owner _ Hwf k owner sel).
          - by rewrite (kids_eq _ _ _ _ Hk Ht).
          - by rewrite (kids_eq _ _ _ _ Hon Hos). }
        assert (t = os) as -> by congruence.
        cbn [observation s]. rewrite Hp. split; [by eexists|].
        pose proof (count_none_insert _ _ _ _ p Hrow Hc0) as Hcount. fold b' in Hcount.
        lia.
      * left. assert (Hlt : (c < length (heap w))%nat).
        { apply (wf_bound _ Hwf k). by rewrite (kids_eq _ _ _ _ Hk Ht). }
        unfold h' in Hcn.
        rewrite list_lookup_insert_ne, lookup_app_l in Hcn by done. eauto.
Qed.

Lemma backpropagation_tictactoe fuel node root winner reward w :
  wf_heap (heap w) → playable (size (game w)) (heap w) →
  ∃ w' r, @backpropagation _ (tictactoe_adapter xxh64) fuel node root winner reward w = (w', r)
    ∧ (∀ msg, r ≠ Raise (GameError msg))
    ∧ (∀ u, r = Ok u →
         wf_heap (heap w') ∧ playable (size (game w)) (heap w')
         ∧ (descending xxh64 (heap w) → descending xxh64 (heap w'))).
Proof.
  intros Hwf Hplay.
  destruct (@backpropagation _ (tictactoe_adapter xxh64) fuel node root winner reward w) as [w' r] eqn:Hb.
  exists w', r. split; [done|]. split.
  - intros msg ->. by eapply never_backpropagation.
  - intros u ->. apply backpropagation_links in Hb.
    split; [by eapply same_links_wf|].
    split; [by eapply playable_same_links|by apply descending_same_links].
Qed.

(** One iteration on TicTacToe: [GameError] is never raised, and the store
    keeps its shape. *)
Lemma run_tictactoe fuel root w :
  wf_heap (heap w) → playable (size (game w)) (heap w) →
  ∃ w' r, @run _ (tictactoe_adapter xxh64) np_log fuel root w = (w', r)
    ∧ (∀ msg, r ≠ Raise (GameError msg))
    ∧ (∀ u, r = Ok u →
         wf_heap (heap w') ∧ playable (size (game w)) (heap w')
         ∧ (descending xxh64 (heap w) → descending xxh64 (heap w'))).
Proof.
  intros Hwf Hplay. unfold run. rewrite bind_run.
  destruct (@selection TicTacToe np_log fuel root w) as [w1 [[pn sel]|e|]] eqn:Hsel.
  2:{ eexists _, _. split; [done|]. split; [|done].
      intros msg [= ->]. by eapply never_selection. }
  2:{ eexists _, _. split; [done|]. split; done. }
  assert (Hg1 : size (game w1) = size (game w)).
  { by eapply (preserves_selection np_log (λ w, size (game w))). }
  apply selection_cases in Hsel as [Hh1 Hcase].
  rewrite <- Hh1 in Hwf, Hplay, Hcase |- *. rewrite <- Hg1 in Hplay |- *.
  clear Hh1 Hg1. revert Hwf Hplay Hcase. generalize w1. clear w. intros w Hwf Hplay Hcase.
  destruct Hcase as [(n & t & Hn & Ht & Hdt)
                    |(owner & on & os & n & -> & Hon & Hos & Hdo & Hkid & Hn & Ht)].
  - rewrite bind_run, (expansion_run_evaluated _ _ _ _ _ Hn Ht).
    rewrite bind_run, (simulation_terminal _ _ _ _ _ Hn Ht Hdt).
    by apply backpropagation_tictactoe.
  - destruct (expansion_tictactoe owner sel w on os n Hwf Hplay Hon Hos Hdo Hkid Hn Ht)
      as (w2 & s & Hexp & Hsel2 & Hwf2 & Hplay2 & Hobs2 & Hsq2 & Hturn2 & _ & _ & Hdesc2).
    assert (Hg2 : size (game w2) = size (game w)).
    { eapply (preserves_expansion (λ w, size (game w))); [done..| | |done|exact Hexp].
      - intros p a. apply with_game_size, step_size.
      - intros p b. apply with_game_size, reset_size. }
    rewrite bind_run, Hexp. rewrite bind_run. unfold simulation.
    rewrite bind_run, (read_run _ _ _ Hsel2). cbn [state set_state_parent].
    rewrite bind_run. cbn [try_attr ret].
    assert (Hback : ∀ w3 winner reward,
      heap w3 = heap w2 → size (game w3) = size (game w2) →
      ∃ w' r, @backpropagation _ (tictactoe_adapter xxh64) fuel sel root winner reward w3
              = (w', r)
        ∧ (∀ msg, r ≠ Raise (GameError msg))
        ∧ (∀ u, r = Ok u →
             wf_heap (heap w') ∧ playable (size (game w)) (heap w')
             ∧ (descending xxh64 (heap w) → descending xxh64 (heap w')))).
    { intros w3 winner reward Hh3 Hg3.
      rewrite <- Hh3 in Hwf2, Hplay2. rewrite <- Hg2, <- Hg3 in Hplay2.
      destruct (backpropagation_tictactoe fuel sel root winner reward w3 Hwf2 Hplay2)
        as (w' & r & Hb & Hr & Hok).
      exists w', r. split; [done|]. split; [done|]. intros u Hu.
      destruct (Hok u Hu) as (Hwf' & Hplay' & Hdesc').
      rewrite Hg3, Hg2 in Hplay'. split; [done|]. split; [done|].
      intros Hd. apply Hdesc'. rewrite Hh3. by apply Hdesc2. }
    destruct (done s) eqn:Hds.
    + assert (simulation_loop fuel (observation s) (reward s) true (player s) w2
              = (w2, Ok (player s, reward s))) as -> by by destruct fuel.
      by apply Hback.
    + destruct (Hturn2 eq_refl) as (q & -> & Hq & Hcur & Hfin).
      rewrite <- Hobs2.
      destruct (simulation_loop_tictactoe xxh64 fuel (reward s) q w2)
        as (w3 & res & -> & Hh3 & _ & Hg3 & _ & Hres); [done|done|by right|done|].
      destruct Hres as [[-> _]|(winner & reward & -> & _)].
      * eexists _, _. split; [done|]. split; done.
      * by apply Hback.
Qed.

Lemma run_n_tictactoe k fuel root : ∀ w,
  wf_heap (heap w) → playable (size (game w)) (heap w) →
  ∃ w' r, @run_n _ (tictactoe_adapter xxh64) np_log k fuel root w = (w', r)
    ∧ (∀ msg, r ≠ Raise (GameError msg))
    ∧ (∀ u, r = Ok u →
         wf_heap (heap w') ∧ playable (size (game w)) (heap w')
         ∧ (descending xxh64 (heap w) → descending xxh64 (heap w'))).
Proof.
  induction k as [|k IH]; intros w Hwf Hplay; simpl.
  { exists w, (Ok tt). split; [done|]. split; [done|]. by intros u _. }
  rewrite bind_run.
  destruct (run_tictactoe fuel root w Hwf Hplay) as (w1 & r1 & Hrun & Hr1 & Hok1).
  rewrite Hrun. destruct r1 as [[]|e|].
  - destruct (Hok1 tt eq_refl) as (Hwf1 & Hplay1 & Hdesc1).
    assert (Hg1 : size (game w1) = size (game w)) by by eapply run_size.
    rewrite <- Hg1 in Hplay1.
    destruct (IH w1 Hwf1 Hplay1) as (w' & r & Hrest & Hr & Hok).
    exists w', r. split; [done|]. split; [done|]. intros u Hu.
    destruct (Hok u Hu) as (Hwf' & Hplay' & Hdesc'). rewrite Hg1 in Hplay'.
    split; [done|]. split; [done|]. intros Hd. by apply Hdesc', Hdesc1.
  - eexists _, _. split; [done|]. split; [|done]. intros msg [= ->]. by eapply Hr1.
  - eexists _, _. split; [done|]. split; done.
Qed.

Lemma root_for_tictactoe obs w p :
  wf_heap (heap w) → playable (size (game w)) (heap w) →
  self_player w = Some p → p ∈ players →
  length obs = size (game w) → Forall (λ row, length row = size (game w)) obs →
  ∃ w' r, @root_for _ (tictactoe_adapter xxh64) obs w = (w', r)
    ∧ (∀ msg, r ≠ Raise (GameError msg))
    ∧ (∀ root, r = Ok root →
         wf_heap (heap w') ∧ playable (size (game w)) (heap w')
         ∧ (descending xxh64 (heap w) → descending xxh64 (heap w'))).
Proof.
  intros Hwf Hplay Hself Hp Hlen Hrows.
  destruct (@root_for _ (tictactoe_adapter xxh64) obs w) as [w' r] eqn:Hroot.
  exists w', r. split; [done|]. split.
  { intros msg ->. by eapply never_root_for. }
  intros root ->. split; [by eapply root_for_wf|].
  apply root_for_world in Hroot as [[Hfound ->]|(Hnone & -> & ->)];
    unfold set_tree, set_heap; cbn [heap g_actions g_state tictactoe_adapter].
  - split.
    + apply (playable_extend _ (heap w)); [done..| |].
      * intros k nd t Hk Ht. destruct (decide (k < length (heap w))%nat) as [Hlt|Hge].
        -- left. rewrite lookup_app_l in Hk by done. eauto.
        -- apply fresh_nodes_lookup in Hk as [Hk _]; [congruence|lia].
      * intros c cn Hlt Hcn Hcnone. rewrite lookup_app_l in Hcn by done. eauto.
    + intros Hd. apply (descending_extend (heap w)); [done| |].
      * intros k nd t Hk Ht. destruct (decide (k < length (heap w))%nat) as [Hlt|Hge].
        -- left. rewrite lookup_app_l in Hk by done. eauto.
        -- apply fresh_nodes_lookup in Hk as [Hk _]; [congruence|lia].
      * intros k nd0 t c cn cs Hk Ht Hc Hcn Hcs. left.
        assert (Hlt : (c < length (heap w))%nat).
        { apply (wf_bound _ Hwf k). by rewrite (kids_eq _ _ _ _ Hk Ht). }
        rewrite lookup_app_l in Hcn by done. eauto.
  - split.
    + apply (playable_extend _ (heap w)); [done..| |].
      * intros k nd t Hk Ht. destruct (decide (k < length (heap w))%nat) as [Hlt|Hge].
        { left. rewrite <- app_assoc, lookup_app_l in Hk by done. eauto. }
        right. apply lookup_snoc_Some in Hk as [[Hklt Hk]|[-> <-]].
        { apply fresh_nodes_lookup in Hk as [Hk _]; [congruence|lia]. }
        injection Ht as <-. cbn [observation done player next_nodes].
        split; [done|]. split; [by eauto|].
        intros c cn [Hcge Hclt]%elem_of_seq Hcn Hcnone.
        rewrite lookup_app_l in Hcn by (rewrite length_app, length_map; lia).
        by apply fresh_nodes_lookup in Hcn as [_ ?].
      * intros c cn Hlt Hcn Hcnone.
        rewrite <- app_assoc, lookup_app_l in Hcn by done. eauto.
    + intros Hd. apply (descending_extend (heap w)); [done| |].
      * intros k nd t Hk Ht. destruct (decide (k < length (heap w))%nat) as [Hlt|Hge].
        { left. rewrite <- app_assoc, lookup_app_l in Hk by done. eauto. }
        right. apply lookup_snoc_Some in Hk as [[Hklt Hk]|[-> <-]].
        { apply fresh_nodes_lookup in Hk as [Hk _]; [congruence|lia]. }
        injection Ht as <-. cbn [observation identifier player next_nodes].
        split; [done|].
        intros c cn cs [Hcge Hclt]%elem_of_seq Hcn Hcs.
        rewrite lookup_app_l in Hcn by (rewrite length_app, length_map; lia).
        apply fresh_nodes_lookup in Hcn as [Hcn _]; [congruence|done].
      * intros k nd0 t c cn cs Hk Ht Hc Hcn Hcs. left.
        assert (Hlt : (c < length (heap w))%nat).
        { apply (wf_bound _ Hwf k). by rewrite (kids_eq _ _ _ _ Hk Ht). }
        rewrite <- app_assoc, lookup_app_l in Hcn by done. eauto.
Qed.

(** X14. A rollout on TicTacToe ends. From an unevaluated child of a node
    that is not terminal, [expansion] plays the child's move, and
    [simulation], given as many rounds as the parent's board has empty
    cells, returns a settled result: a winner that holds a complete line on
    the final board of the game with reward 1, or [None] on a full board
    with reward 0. The tree and the store are as [expansion] left them. *)
Theorem rollout_ends fuel owner sel w on os nn :
  wf_heap (heap w) → playable (size (game w)) (heap w) →
  heap w !! owner = Some on → state on = Some os → done os = false →
  sel ∈ next_nodes os → heap w !! sel = Some nn → state nn = None →
  (count_none (observation os) ≤ fuel)%nat →
  ∃ w1 w2 winner reward,
    @expansion _ (tictactoe_adapter xxh64) (Some owner) sel w = (w1, Ok sel)
    ∧ @simulation _ (tictactoe_adapter xxh64) fuel sel w1 = (w2, Ok (winner, reward))
    ∧ settled (game w2) winner reward
    ∧ heap w2 = heap w1 ∧ tree w2 = tree w1.
Proof.
  intros Hwf Hplay Hon Hos Hdo Hkid Hn Ht Hfuel.
  destruct (expansion_tictactoe owner sel w on os nn Hwf Hplay Hon Hos Hdo Hkid Hn Ht)
    as (w1 & s & Hexp & Hsel1 & Hwf1 & Hplay1 & Hobs1 & Hsq1 & Hturn1 & Hend1 & Hcount & _).
  exists w1. unfold simulation.
  rewrite bind_run, (read_run _ _ _ Hsel1). cbn [state set_state_parent].
  rewrite bind_run. cbn [try_attr ret].
  destruct (done s) eqn:Hds.
  - exists w1, (player s), (reward s). split; [done|].
    split; [by destruct fuel|]. split; [by apply Hend1|done].
  - destruct (Hturn1 eq_refl) as (q & Hq & Hqin & Hcur & Hfin). rewrite Hq, <- Hobs1.
    destruct (simulation_loop_tictactoe xxh64 fuel (reward s) q w1)
      as (w2 & res & Hloop & Hh2 & Ht2 & _ & _ & Hres); [done|done|by right|done|].
    destruct Hres as [[_ Hlt]|(winner & reward & -> & Hset)].
    { rewrite Hobs1 in Hlt. lia. }
    exists w2, winner, reward. done.
Qed.

(** X13. While the stored boards are as the engine stored them, the engine
    on TicTacToe never plays an illegal move on its copy of the game. For
    an engine playing ["X"] or ["O"], a board of the game's size, and a
    store in which, at the call, every state reads a board of the game's
    size that is empty at the moves of its children that are not evaluated
    yet ([playable]: so [State.__init__] builds the states, and so they stay
    for as long as nobody writes into the arrays they hold): whatever the
    hash, the logarithm, the draws and the budget, [act] never raises
    [GameError], it leaves the size of the game as it was, and at the
    moment it returns the stored boards are such again. *)
Theorem act_never_raises_GameError k fuel obs w p :
  wf_heap (heap w) → playable (size (game w)) (heap w) →
  self_player w = Some p → p ∈ players →
  length obs = size (game w) → Forall (λ row, length row = size (game w)) obs →
  ∃ w' r, @act _ (tictactoe_adapter xxh64) np_log k fuel obs w = (w', r)
    ∧ (∀ msg, r ≠ Raise (GameError msg))
    ∧ size (game w') = size (game w)
    ∧ (∀ a, r = Ok a → wf_heap (heap w') ∧ playable (size (game w)) (heap w')).
Proof.
  intros Hwf Hplay Hself Hp Hlen Hrows.
  destruct (@act _ (tictactoe_adapter xxh64) np_log k fuel obs w) as [w' r] eqn:Hact.
  exists w', r. split; [done|].
  assert (Hsize : size (game w') = size (game w)) by by eapply act_size.
  enough ((∀ msg, r ≠ Raise (GameError msg))
          ∧ (∀ a, r = Ok a → wf_heap (heap w') ∧ playable (size (game w)) (heap w')))
    by tauto.
  unfold act in Hact. rewrite bind_run in Hact.
  destruct (root_for_tictactoe obs w p Hwf Hplay Hself Hp Hlen Hrows)
    as (w1 & r1 & Hroot & Hr1 & Hok1).
  rewrite Hroot in Hact. destruct r1 as [root|e|].
  2:{ injection Hact as <- <-. split; [|done]. intros msg [= ->]. by eapply Hr1. }
  2:{ injection Hact as <- <-. split; done. }
  destruct (Hok1 root eq_refl) as (Hwf1 & Hplay1 & _).
  assert (Hg1 : size (game w1) = size (game w)).
  { eapply (preserves_root_for (λ w, size (game w))); done. }
  rewrite bind_run in Hact. rewrite <- Hg1 in Hplay1 |- *.
  destruct (run_n_tictactoe k fuel root w1 Hwf1 Hplay1) as (w2 & r2 & Hrun & Hr2 & Hok2).
  rewrite Hrun in Hact. destruct r2 as [[]|e|].
  2:{ injection Hact as <- <-. split; [|done]. intros msg [= ->]. by eapply Hr2. }
  2:{ injection Hact as <- <-. split; done. }
  destruct (Hok2 tt eq_refl) as (Hwf2 & Hplay2 & _). split.
  - intros msg ->. by eapply never_play.
  - intros a ->. by rewrite (play_heap _ _ _ _ Hact).
Qed.

End TicTacToeEngine.

Lemma rooted_world_playable : playable 2 (heap rooted_world).
Proof.
  destruct (root_for_tictactoe positional_digest (np_full 2) demo_world "X"%string)
    as (w' & r & Hroot & _ & Hok).
  - apply wf_heap_nil.
  - intros i nd s Hi. change (heap demo_world) with (@nil Node) in Hi.
    by rewrite lookup_nil in Hi.
  - reflexivity.
  - apply elem_of_cons. by left.
  - reflexivity.
  - repeat constructor.
  - assert (Heq : @root_for _ demo_game (np_full 2) demo_world = (rooted_world, Ok 4%nat))
      by (vm_compute; reflexivity).
    unfold demo_game in Heq. rewrite Heq in Hroot. injection Hroot as <- <-.
    by apply (Hok 4%nat).
Qed.

Lemma rollout_ends_witness :
  ∃ w1 w2 winner reward,
    @expansion _ demo_game (Some 4%nat) 0 rooted_world = (w1, Ok 0%nat)
    ∧ @simulation _ demo_game 4 0 w1 = (w2, Ok (winner, reward))
    ∧ settled (game w2) winner reward
    ∧ heap w2 = heap w1 ∧ tree w2 = tree w1.
Proof.
  apply (rollout_ends positional_digest 4 4 0 rooted_world rooted_root rooted_state
           (Node_init (Some [0; 0]) None None)).
  - exact rooted_world_wf.
  - exact rooted_world_playable.
  - reflexivity.
  - reflexivity.
  - reflexivity.
  - apply elem_of_cons. by left.
  - reflexivity.
  - reflexivity.
  - vm_compute. lia.
Defined.

Lemma act_never_raises_GameError_witness :
  ∃ w' r, @act _ demo_game demo_log 6 50 (np_full 2) demo_world = (w', r)
    ∧ (∀ msg, r ≠ Raise (GameError msg))
    ∧ size (game w') = size (game demo_world)
    ∧ (∀ a, r = Ok a →
         wf_heap (heap w') ∧ playable (size (game demo_world)) (heap w')).
Proof.
  apply (act_never_raises_GameError positional_digest demo_log 6 50 (np_full 2)
           demo_world "X"%string).
  - apply wf_heap_nil.
  - intros i nd s Hi. change (heap demo_world) with (@nil Node) in Hi.
    by rewrite lookup_nil in Hi.
  - reflexivity.
  - apply elem_of_cons. by left.
  - reflexivity.
  - repeat constructor.
Defined.

(** ** players.py and the action space *)

Section PlayersFacts.
Context {G : Type}.
Implicit Types (w : @World G).

Lemma np_getitem2_nat {A} (a : list (list A)) i j row x :
  a !! i = Some row → row !! j = Some x →
  np_getitem2 a (Z.of_nat i) (Z.of_nat j) = Ok x.
Proof.
  intros Hi Hj. unfold np_getitem2, np_getitem.
  rewrite np_norm_index_nat by by eapply lookup_lt_Some. rewrite Hi.
  rewrite np_norm_index_nat by by eapply lookup_lt_Some. by rewrite Hj.
Qed.

Lemma head_app_cases {A} (l k : list A) :
  head (l ++ k) = match head l with Some x => Some x | None => head k end.
Proof. by destruct l. Qed.

Lemma head_None_nil {A} (l : list A) : head l = None → l = [].
Proof. by destruct l. Qed.

Lemma Iterate_row_spec (obs : board) i row : ∀ suf pre,
  obs !! i = Some row → row = pre ++ suf →
  Iterate_row obs i (seq (length pre) (length suf))
  = Ok (head (omap (λ '(j, c), match c : cell with
                               | None => Some [Z.of_nat i; Z.of_nat j]
                               | Some _ => None
                               end)
                   (imap (λ j c, ((length pre + j)%nat, c)) suf))).
Proof.
  induction suf as [|c suf IH]; intros pre Hrow Heq; [done|].
  cbn [length seq Iterate_row].
  rewrite (np_getitem2_nat obs i (length pre) row c Hrow)
    by (by rewrite Heq, list_lookup_middle).
  rewrite imap_cons.
  destruct c as [s|]; simpl.
  - specialize (IH (pre ++ [Some s]) Hrow).
    rewrite length_app in IH. simpl in IH.
    replace (length pre + 1)%nat with (S (length pre)) in IH by lia.
    rewrite IH by (by rewrite <- app_assoc). do 3 f_equal.
    apply imap_ext. intros j x _. simpl. f_equal. lia.
  - by rewrite Nat.add_0_r.
Qed.

Lemma Iterate_rows_spec (obs : board) m : ∀ suf pre,
  obs = pre ++ suf → Forall (λ row, length row = m) obs →
  Iterate_rows obs (seq (length pre) (length suf)) (seq 0 m)
  = Ok (head (concat (imap (λ i, row_where (length pre + i)) suf))).
Proof.
  induction suf as [|row suf IH]; intros pre Heq Hrect; [done|].
  cbn [length seq Iterate_rows].
  assert (Hrow : obs !! length pre = Some row).
  { rewrite Heq. by apply list_lookup_middle. }
  pose proof (Forall_lookup_1 _ _ _ _ Hrect Hrow) as Hlen. simpl in Hlen.
  pose proof (Iterate_row_spec obs (length pre) row row [] Hrow eq_refl) as Hscan.
  simpl in Hscan. rewrite Hlen in Hscan. rewrite Hscan.
  rewrite imap_cons. simpl. rewrite head_app_cases, Nat.add_0_r.
  unfold row_where at 1.
  match goal with
  | |- context [match ?x with Some l => Ok (Some l) | None => _ end] => set (hd := x)
  end.
  match goal with
  | |- context [match ?x with Some y => Some y | None => _ end] => change x with hd
  end.
  destruct hd as [a|]; [done|].
  specialize (IH (pre ++ [row])). rewrite length_app in IH. simpl in IH.
  replace (length pre + 1)%nat with (S (length pre)) in IH by lia.
  rewrite IH by (by rewrite <- app_assoc || done). do 3 f_equal.
  apply imap_ext. intros j x _. simpl. f_equal. lia.
Qed.

(** X15. [Iterate.act] on a rectangular observation (a numpy array)
    raises nothing and returns the first of the game's [actions] for the
    observation, in row-major order; on a board without an empty cell it
    returns [None]. *)
Theorem Iterate_act_first_action (observation : board) :
  Forall (λ row, length row = (shape observation).2) observation →
  Iterate_act observation = Ok (head (actions observation))
  ∧ (head (actions observation) = None ↔ board_finished observation = true).
Proof.
  intros Hrect. split.
  - unfold Iterate_act, actions.
    by rewrite (Iterate_rows_spec observation _ observation []).
  - rewrite board_finished_count, <- actions_length. split.
    + by intros ->%head_None_nil.
    + by intros ->%length_zero_iff_nil.
Qed.

(** X16. [Random.act]: on an observation with an empty cell it returns the
    coordinates of an empty cell and takes one draw from the random
    generator; on a full board it raises [IndexError]. *)
Theorem Random_act_picks_empty_cell (observation : board) w :
  (board_finished observation = true →
   Random_act observation w = (w, Raise IndexError))
  ∧ (board_finished observation = false →
     ∃ i j, Random_act observation w
            = (set_tape (tail (tape w)) w, Ok [Z.of_nat i; Z.of_nat j])
       ∧ cell_at observation i j = Some None).
Proof.
  unfold Random_act. split.
  - rewrite board_finished_count, <- actions_length.
    intros ->%length_zero_iff_nil. done.
  - intros Hfin.
    assert (Hne : actions observation ≠ []).
    { intros Hnil. pose proof (actions_length observation) as Hl.
      rewrite Hnil in Hl. symmetry in Hl. apply board_finished_count in Hl. congruence. }
    destruct (drawn_nonempty (tape w) _ Hne) as [a Ha].
    rewrite (random_choice_run _ _ _ Ha).
    apply drawn_elem, actions_elem in Ha as (i & j & -> & Hcell). eauto.
Qed.

Lemma sample_run depth (Hdepth : (0 < depth)%nat) : ∀ n w,
  ∃ l, sample (FixedTupleSpace_init n depth) w
       = (set_tape (drop n (tape w)) w, Ok l)
    ∧ length l = n ∧ Forall (λ x, 0 ≤ x < Z.of_nat depth) l.
Proof.
  unfold sample, FixedTupleSpace_init.
  induction n as [|n IH]; intros w.
  { exists []. simpl. rewrite drop_0. by destruct w. }
  cbn [replicate for_each]. rewrite bind_run.
  assert (Hne : Z.of_nat <$> seq 0 depth ≠ []).
  { destruct depth; [lia|done]. }
  destruct (drawn_nonempty (tape w) _ Hne) as [x Hx].
  rewrite (random_choice_run _ _ _ Hx).
  destruct (IH (set_tape (tail (tape w)) w)) as (l & Hl & Hlen & Hall).
  rewrite bind_run, Hl. exists (x :: l). split; [|split].
  - cbn [mret M_ret ret]. unfold set_tape. cbn [tape game self_player tree heap].
    assert (drop n (tail (tape w)) = drop (S n) (tape w)) as ->; [|done].
    destruct (tape w); simpl; [by rewrite drop_nil|done].
  - simpl. by rewrite Hlen.
  - constructor; [|done].
    apply drawn_elem, list_elem_of_fmap in Hx as (k & -> & Hk%elem_of_seq). lia.
Qed.

(** X17. A sample of the action space of a game ([FixedTupleSpace(2,
    size)], for a size that is not 0) is a pair of indices of a cell of the
    board, empty or not; it takes two draws from the random generator. For
    size 0 the sample raises [IndexError]. *)
Theorem sample_indexes_a_cell (g : TicTacToe) w :
  square g →
  ((0 < size g)%nat →
   ∃ i j c, sample (FixedTupleSpace_init 2 (size g)) w
            = (set_tape (drop 2 (tape w)) w, Ok [i; j])
     ∧ np_getitem2 (observation_space g) i j = Ok c)
  ∧ (size g = 0%nat →
     sample (FixedTupleSpace_init 2 (size g)) w = (w, Raise IndexError)).
Proof.
  intros [Hlen Hrows]. split.
  - intros Hpos. destruct (sample_run (size g) Hpos 2 w) as (l & Hl & Hlen2 & Hall).
    destruct l as [|i [|j [|? ?]]]; try done.
    apply Forall_cons in Hall as [Hi Hall]. apply Forall_cons in Hall as [Hj _].
    assert (Hcell : is_Some (cell_at (observation_space g) (Z.to_nat i) (Z.to_nat j))).
    { unfold cell_at.
      destruct (lookup_lt_is_Some_2 (observation_space g) (Z.to_nat i)) as [row Hrow];
        [lia|].
      unfold board, cell in *. rewrite Hrow. simpl. apply lookup_lt_is_Some_2.
      rewrite (Forall_lookup_1 _ _ _ _ Hrows Hrow). lia. }
    destruct Hcell as [c Hc]. exists i, j, c. split; [done|].
    apply (np_getitem2_cell _ i j (Z.to_nat i) (Z.to_nat j)); [by rewrite Hlen|..|done].
    + rewrite Hlen. rewrite <- (Z2Nat.id i) at 1 by lia. apply np_norm_index_nat. lia.
    + rewrite Hlen. rewrite <- (Z2Nat.id j) at 1 by lia. apply np_norm_index_nat. lia.
  - intros ->. done.
Qed.

End PlayersFacts.

Lemma Iterate_act_first_action_witness :
  Iterate_act [[Some "X"; None]; [None; None]]%string
  = Ok (head (actions [[Some "X"; None]; [None; None]]%string))
  ∧ (head (actions [[Some "X"; None]; [None; None]]%string) = None
     ↔ board_finished [[Some "X"; None]; [None; None]]%string = true).
Proof.
  apply (Iterate_act_first_action [[Some "X"; None]; [None; None]]%string).
  repeat constructor.
Defined.

Lemma sample_indexes_a_cell_witness :
  ((0 < size (init 3))%nat →
   ∃ i j c, @sample TicTacToe (FixedTupleSpace_init 2 (size (init 3))) demo_world
            = (set_tape (drop 2 (tape demo_world)) demo_world, Ok [i; j])
     ∧ np_getitem2 (observation_space (init 3)) i j = Ok c)
  ∧ (size (init 3) = 0%nat →
     @sample TicTacToe (FixedTupleSpace_init 2 (size (init 3))) demo_world
     = (demo_world, Raise IndexError)).
Proof.
  apply (@sample_indexes_a_cell TicTacToe (init 3) demo_world).
  split; [reflexivity|]. repeat constructor.
Defined.

(** ** Keys and empty cells *)

Section KeyFacts.

Lemma zeros_rows (f : cell → pyval) (obs : board) :
  zeros (map (map f) obs)
  = length (filter (λ c : cell, f c = PyInt 0) (concat obs)).
Proof.
  unfold zeros. induction obs as [|row obs IH]; [done|].
  simpl. rewrite !filter_app, !length_app, IH. f_equal.
  clear IH. induction row as [|c row IH]; [done|].
  simpl. rewrite !filter_cons. destruct (decide (f c = PyInt 0)) as [Hc|Hc].
  - simpl. by rewrite IH.
  - done.
Qed.

Lemma filter_length_le_impl {A} (P Q : A → Prop) `{∀ x, Decision (P x)}
    `{∀ x, Decision (Q x)} (l : list A) :
  (∀ x, P x → Q x) → (length (filter P l) ≤ length (filter Q l))%nat.
Proof.
  intros HPQ. induction l as [|x l IH]; [done|].
  rewrite !filter_cons. destruct (decide (P x)) as [HP|HP].
  - rewrite decide_True by auto. simpl. lia.
  - destruct (decide (Q x)); simpl; lia.
Qed.

(** The array that [state] hashes has a 0 exactly for the empty cells, when
    a player is given; it has none for the player [None], which turns the
    empty cells into 1. *)
Lemma zeros_normalize (obs : board) (pl : option string) :
  (zeros (normalize obs pl) ≤ count_none obs)%nat
  ∧ (is_Some pl → zeros (normalize obs pl) = count_none obs).
Proof.
  rewrite normalize_cellwise, zeros_rows. unfold count_none. split.
  - apply filter_length_le_impl. intros [s|]; [|done]. simpl.
    repeat case_decide; by simplify_eq/=.
  - intros [p ->]. f_equal. apply list_filter_iff. intros [s|]; simpl.
    + split; [|done]. repeat case_decide; by simplify_eq/=.
    + split; [done|]. intros _. repeat case_decide; by simplify_eq/=.
Qed.

Lemma positional_digest_snoc (l : list pyval) x :
  fold_left (λ acc v, 4 * acc + positional_code v) (l ++ [x]) 1
  = 4 * fold_left (λ acc v, 4 * acc + positional_code v) l 1 + positional_code x.
Proof. by rewrite fold_left_app. Qed.

Lemma positional_code_range v : 0 ≤ positional_code v < 4.
Proof. unfold positional_code. repeat case_match; lia. Qed.

Lemma positional_digest_pos (l : list pyval) :
  1 ≤ fold_left (λ acc v, 4 * acc + positional_code v) l 1.
Proof.
  induction l as [|x l IH] using rev_ind; [done|].
  rewrite positional_digest_snoc. pose proof (positional_code_range x). lia.
Qed.

Lemma positional_digest_codes (l : list pyval) : ∀ l',
  fold_left (λ acc v, 4 * acc + positional_code v) l 1
  = fold_left (λ acc v, 4 * acc + positional_code v) l' 1 →
  positional_code <$> l = positional_code <$> l'.
Proof.
  induction l as [|x l IH] using rev_ind; intros l'.
  - destruct l' as [|y l'] using rev_ind; [done|].
    rewrite positional_digest_snoc. simpl.
    pose proof (positional_digest_pos l'). pose proof (positional_code_range y). lia.
  - destruct l' as [|y l' _] using rev_ind.
    + rewrite positional_digest_snoc. simpl.
      pose proof (positional_digest_pos l). pose proof (positional_code_range x). lia.
    + rewrite !positional_digest_snoc.
      pose proof (positional_code_range x). pose proof (positional_code_range y).
      intros Heq. rewrite !fmap_app. simpl.
      rewrite (IH l') by lia. do 2 f_equal. lia.
Qed.

(** The stand-in hash tells apart arrays with different numbers of 0. *)
Lemma positional_digest_zeros (a b : list (list pyval)) :
  positional_digest a = positional_digest b → zeros a = zeros b.
Proof.
  unfold positional_digest, zeros. intros Heq%positional_digest_codes.
  assert (Hz : ∀ l : list pyval,
    length (filter (λ v, v = PyInt 0) l)
    = length (filter (λ z, z = 0) (positional_code <$> l))).
  { induction l as [|v l IH]; [done|]. rewrite fmap_cons, !filter_cons.
    destruct (decide (v = PyInt 0)) as [->|Hv].
    - rewrite decide_True by done. simpl. by rewrite IH.
    - assert (positional_code v ≠ 0).
      { unfold positional_code. repeat case_match; congruence. }
      by rewrite decide_False by done. }
  by rewrite !Hz, Heq.
Qed.

End KeyFacts.

(** ** The count of iterations on TicTacToe, without the collision proviso *)

Section TicTacToeCount.
Variable xxh64 : list (list pyval) → Z.
Variable np_log : float → float.
(** The hash tells apart two arrays with different numbers of 0. *)
Hypothesis xxh64_zeros : ∀ a b, xxh64 a = xxh64 b → zeros a = zeros b.
Implicit Types (w : @World TicTacToe) (h : list Node).

(** Down a lineage the boards fill up. *)
Lemma lineage_count h root n path rn rs nd s :
  descending xxh64 h → lineage h root n path →
  h !! root = Some rn → state rn = Some rs →
  h !! n = Some nd → state nd = Some s →
  (count_none (observation s) ≤ count_none (observation rs))%nat
  ∧ (path ≠ [] →
     is_Some (player rs)
     ∧ (count_none (observation s) < count_none (observation rs))%nat).
Proof.
  intros Hd Hl Hrn Hrs. revert nd s. induction Hl as [|n c path Hl IH Hc]; intros nd s Hn Hs.
  { assert (s = rs) as -> by congruence. split; [lia|done]. }
  apply kids_elem in Hc as (pn & ps & Hpn & Hps & Hc).
  destruct (IH _ _ Hpn Hps) as [Hle Hlt].
  destruct (Hd _ _ _ Hpn Hps) as [_ Hkids].
  destruct (Hkids _ _ _ Hc Hn Hs) as [Hpl Hless].
  split; [lia|]. intros _. split; [|lia].
  destruct path as [|x path]; [|by apply Hlt].
  apply lineage_nil in Hl as ->. by assert (ps = rs) as <- by congruence.
Qed.

Lemma descending_no_collision h root :
  descending xxh64 h → is_Some (ident h root) → no_collision h root.
Proof.
  intros Hd [z Hz] d path Hl Heq.
  unfold ident in Hz, Heq.
  destruct (h !! root) as [rn|] eqn:Hrn; [|done]. simpl in Hz, Heq.
  destruct (state rn) as [rs|] eqn:Hrs; [|done]. simpl in Hz, Heq.
  destruct (h !! d) as [nd|] eqn:Hn; [|done]. simpl in Heq.
  destruct (state nd) as [s|] eqn:Hs; [|done]. simpl in Heq. injection Heq as Heq.
  destruct (lineage_count h root d (d :: path) rn rs nd s Hd Hl Hrn Hrs Hn Hs)
    as [_ Hlt].
  destruct Hlt as [Hpl Hlt]; [done|].
  destruct (Hd _ _ _ Hrn Hrs) as [Hidr _]. destruct (Hd _ _ _ Hn Hs) as [Hidd _].
  rewrite Hidr, Hidd in Heq. apply xxh64_zeros in Heq.
  destruct (zeros_normalize (observation s) (player s)) as [Hle _].
  destruct (zeros_normalize (observation rs) (player rs)) as [_ Hex].
  rewrite (Hex Hpl) in Heq. lia.
Qed.


End TicTacToeCount.


(** ** What selection returns *)

Section SelectionFrontier.
Context {G : Type} `{GameAdapter G}.
Variable np_log : float → float.
Implicit Types (w : @World G) (h : list Node).

Lemma selection_lineage fuel root w w' pn sel :
  selection np_log fuel root w = (w', Ok (pn, sel)) →
  ∃ path, lineage (heap w) root sel path.
Proof.
  unfold selection. intros (w1 & node & Hloop & Hrest)%bind_ok.
  apply (selection_loop_ok np_log root fuel root [] w w1 node) in Hloop
    as [Hh1 [path Hl]]; [|constructor].
  apply bind_ok in Hrest as (w2 & n & [-> Hn]%read_ok & Hrest).
  apply bind_ok in Hrest as (w3 & t & [-> Ht]%try_attr_ok & Hrest).
  rewrite Hh1 in Hn. destruct (done t).
  { injection Hrest as <- <- <-. eauto. }
  apply bind_ok in Hrest as (w4 & flags & Hflags & Hrest).
  assert (w4 = w1 ∧ Forall2 (λ a af, af.1 = a) (next_nodes t) flags) as [-> Hfl].
  { eapply (for_each_ok _ (λ w a af, af.1 = a)); [|exact Hflags].
    by intros x v v' y (a & [-> Ha]%read_ok & ->)%fmap_ok. }
  apply bind_ok in Hrest as (w5 & child & [-> Hc%drawn_elem]%random_choice_ok & [= <- <- <-]).
  apply list_elem_of_fmap in Hc as ([a b] & -> & [_ Hc]%list_elem_of_filter).
  apply list_elem_of_lookup in Hc as [k Hk].
  destruct (Forall2_lookup_r _ _ _ _ _ Hfl Hk) as (a' & Ha' & Heq). simpl in *. subst a'.
  exists (a :: path). econstructor; [done|].
  rewrite (kids_eq _ _ _ _ Hn Ht). by eapply list_elem_of_lookup_2.
Qed.

(** X19. What [selection] returns, from any node: a node that is reached
    from it through [next_nodes] lists and that is either evaluated and
    terminal, or not evaluated yet, and then together with the node that
    lists it, which is evaluated and not terminal. [selection] changes
    nothing but the state of the random generator. *)
Theorem selection_returns_frontier fuel root w w' pn sel :
  selection np_log fuel root w = (w', Ok (pn, sel)) →
  (heap w' = heap w ∧ tree w' = tree w ∧ game w' = game w)
  ∧ (∃ path, lineage (heap w) root sel path)
  ∧ ((∃ n t, heap w !! sel = Some n ∧ state n = Some t ∧ done t = true)
     ∨ (∃ owner on os n,
          pn = Some owner ∧ heap w !! owner = Some on ∧ state on = Some os
          ∧ done os = false ∧ sel ∈ next_nodes os
          ∧ heap w !! sel = Some n ∧ state n = None)).
Proof.
  intros Hsel. split; [|split].
  - split; [by eapply selection_heap|].
    split; by eapply (preserves_selection np_log).
  - by eapply selection_lineage.
  - by apply selection_cases in Hsel as [_ ?].
Qed.

End SelectionFrontier.

Lemma selection_returns_frontier_witness :
  (heap (@selection TicTacToe demo_log 50 4 searched_world).1 = heap searched_world
   ∧ tree (@selection TicTacToe demo_log 50 4 searched_world).1 = tree searched_world
   ∧ game (@selection TicTacToe demo_log 50 4 searched_world).1 = game searched_world)
  ∧ (∃ path, lineage (heap searched_world) 4 10 path)
  ∧ ((∃ n t, heap searched_world !! 10%nat = Some n ∧ state n = Some t
             ∧ done t = true)
     ∨ (∃ owner on os n,
          Some 1%nat = Some owner ∧ heap searched_world !! owner = Some on
          ∧ state on = Some os ∧ done os = false ∧ 10%nat ∈ next_nodes os
          ∧ heap searched_world !! 10%nat = Some n ∧ state n = None)).
Proof.
  apply (@selection_returns_frontier TicTacToe demo_log 50 4 searched_world
           (@selection TicTacToe demo_log 50 4 searched_world).1 (Some 1%nat) 10%nat).
  vm_compute. reflexivity.
Defined.

(** ** The exceptions of the phases, on a store in shape *)

Section PhaseOutcomes.
Context {G : Type} `{GameAdapter G}.
Variable np_log : float → float.
Variable rank : State → nat.
Implicit Types (w : @World G) (h : list Node).

Lemma random_choice_raises {A} (l : list A) w w' e :
  random_choice l w = (w', Raise e) → e = IndexError.
Proof.
  unfold random_choice. rewrite bind_run. cbn [get].
  destruct l as [|x l]; [by intros [= _ <-]|].
  rewrite bind_run. cbn [put]. destruct (drawn _ _); [done|]. by intros [= _ <-].
Qed.

Lemma fmap_read_run {B} (g : Node → B) i w n :
  heap w !! i = Some n → (g <$> read i) w = (w, Ok (g n)).
Proof. intros Hn. unfold fmap, M_fmap, bind. by rewrite (read_run _ _ _ Hn). Qed.

Lemma for_each_read_run {B} (g : nat → Node → B) l w :
  (∀ a, a ∈ l → is_Some (heap w !! a)) →
  ∃ ys, for_each (λ a, g a <$> read a) l w = (w, Ok ys)
    ∧ Forall2 (λ a y, ∃ n, heap w !! a = Some n ∧ y = g a n) l ys.
Proof.
  induction l as [|a l IH]; intros Hl; [by exists []|].
  destruct (Hl a) as [n Hn]; [by left|].
  destruct IH as (ys & Hys & Hall); [intros b Hb; apply Hl; by right|].
  exists (g a n :: ys). split; [|constructor; eauto].
  cbn [for_each]. by rewrite bind_run, (fmap_read_run _ _ _ _ Hn), bind_run, Hys.
Qed.

Lemma is_expanded_run node w n s :
  wf_heap (heap w) → heap w !! node = Some n → state n = Some s →
  ∃ b, is_expanded node w = (w, Ok b)
    ∧ (b = true → ∀ c, c ∈ next_nodes s →
         ∃ cn cs, heap w !! c = Some cn ∧ state cn = Some cs).
Proof.
  intros Hwf Hn Hs. unfold is_expanded.
  rewrite bind_run, (read_run _ _ _ Hn), bind_run, Hs. cbn [try_attr ret].
  destruct (for_each_read_run (λ _, is_evaluated) (next_nodes s) w) as (ys & Hys & Hall).
  { intros c Hc. apply lookup_lt_is_Some_2, (wf_bound _ Hwf node).
    by rewrite (kids_eq _ _ _ _ Hn Hs). }
  rewrite bind_run, Hys. eexists. split; [done|].
  intros Hb c Hc. apply list_elem_of_lookup in Hc as [k Hk].
  destruct (Forall2_lookup_l _ _ _ _ _ Hall Hk) as (y & Hy & cn & Hcn & ->).
  rewrite forallb_forall in Hb. specialize (Hb (is_evaluated cn)).
  unfold id, is_evaluated in Hb. rewrite bool_decide_eq_true in Hb.
  destruct Hb as [cs Hcs]; [by eapply list_elem_of_In, list_elem_of_lookup_2|]. eauto.
Qed.

Lemma UCB1_run c node p w n pn :
  heap w !! node = Some n → parent n = Some p → heap w !! p = Some pn →
  visit_count n ≠ 0 →
  UCB1 np_log c node w
  = (w, Ok (ucb1_score np_log (accumulated_reward n) (visit_count n)
              (visit_count pn) c)).
Proof.
  intros Hn Hp Hpn Hv. unfold UCB1.
  rewrite bind_run, (read_run _ _ _ Hn). apply Z.eqb_neq in Hv. rewrite Hv.
  rewrite bind_run. cbn [mret M_ret ret]. rewrite bind_run, Hp. cbn [try_attr ret].
  by rewrite bind_run, (read_run _ _ _ Hpn).
Qed.

Lemma randomax_loop_total {S A V} (gt eq : V → V → bool) (k : A → V) (s : S)
    elements : ∀ cands best,
  ∃ out, randomax_loop gt eq (λ x, mret (k x)) elements cands best s = (s, Ok out)
    ∧ ∀ x, x ∈ out → x ∈ cands ∨ x ∈ elements.
Proof.
  induction elements as [|e elements IH]; intros cands best.
  { exists cands. split; [done|]. auto. }
  cbn [randomax_loop]. rewrite bind_run. cbn [mret M_ret ret].
  destruct (IH (if eq (k e) (if gt (k e) (default (k e) best) then k e
                              else default (k e) best)
                then (if gt (k e) (default (k e) best) then [e] else cands) ++ [e]
                else if gt (k e) (default (k e) best) then [e] else cands)
               (Some (if gt (k e) (default (k e) best) then k e
                      else default (k e) best)))
    as (out & Hout & Hsub).
  exists out. split; [exact Hout|]. intros x [Hx|Hx]%Hsub; [|right; by right].
  revert Hx. destruct (gt _ _), (eq _ _);
    rewrite ?elem_of_app, ?elem_of_cons, ?elem_of_nil; tauto.
Qed.

(** [randomax] with a key that reads the store without fail: a result
    among the elements, or the [IndexError] of an empty candidate list. *)
Lemma randomax_outcome {A V} (gt eq : V → V → bool) (key : A → M (@World G) V)
    (k : A → V) elements w :
  (∀ x, x ∈ elements → key x w = (w, Ok (k x))) →
  (∃ x, randomax gt eq key elements w = (set_tape (tail (tape w)) w, Ok x)
        ∧ x ∈ elements)
  ∨ randomax gt eq key elements w = (w, Raise IndexError).
Proof.
  intros Hkey. unfold randomax.
  rewrite bind_run, (randomax_loop_pure gt eq key k w elements [] None Hkey).
  destruct (randomax_loop_total gt eq k w elements [] None) as (out & -> & Hsub).
  destruct out as [|y out]; [by right|].
  destruct (drawn_nonempty (tape w) (y :: out)) as [x Hx]; [done|].
  left. exists x. rewrite (random_choice_run _ _ _ Hx). split; [done|].
  apply drawn_elem, Hsub in Hx as [?%elem_of_nil|?]; done.
Qed.

(** The loop of [selection] from an evaluated node of a store in shape. *)
Lemma selection_loop_outcome fuel : ∀ node w n s,
  wf_heap (heap w) → positive (heap w) →
  heap w !! node = Some n → state n = Some s →
  ∃ w' r, selection_loop np_log fuel node w = (w', r) ∧ heap w' = heap w
    ∧ ((r = OutOfFuel ∧ (ranked rank (heap w) → (fuel ≤ rank s)%nat))
       ∨ r = Raise IndexError
       ∨ ∃ node' n' s', r = Ok node' ∧ heap w !! node' = Some n' ∧ state n' = Some s').
Proof.
  induction fuel as [|fuel IH]; intros node w n s Hwf Hpos Hn Hs.
  { exists w, OutOfFuel. split; [done|]. split; [done|]. left. split; [done|lia]. }
  cbn [selection_loop].
  rewrite bind_run, (read_run _ _ _ Hn), bind_run, Hs. cbn [try_attr ret].
  destruct (done s).
  { exists w, (Ok node). split; [done|]. split; [done|]. right. right. eauto 6. }
  destruct (is_expanded_run node w n s Hwf Hn Hs) as (b & Hb & Hall).
  rewrite bind_run, Hb. destruct b.
  2:{ exists w, (Ok node). split; [done|]. split; [done|]. right. right. eauto 6. }
  rewrite bind_run.
  destruct (randomax_outcome (λ value best, PrimFloat.ltb best value) PrimFloat.eqb
              (UCB1 np_log c_default)
              (λ c, default 0%float
                      (cn ← heap w !! c;
                       Some (ucb1_score np_log (accumulated_reward cn) (visit_count cn)
                               (visit_count n) c_default)))
              (next_nodes s) w) as [(x & -> & Hx)| ->].
  - intros c Hc. destruct (Hall eq_refl c Hc) as (cn & cs & Hcn & Hcs).
    rewrite Hcn. simpl. apply (UCB1_run _ _ node); [done| |done|].
    + apply (wf_parent _ Hwf node c); [|done|by eexists].
      by rewrite (kids_eq _ _ _ _ Hn Hs).
    + pose proof (Hpos _ _ Hcn). lia.
  - destruct (Hall eq_refl x Hx) as (xn & xs & Hxn & Hxs).
    destruct (IH x (set_tape (tail (tape w)) w) xn xs) as (w' & r & Hloop & Hh & Hr);
      [done..|].
    exists w', r. split; [done|]. split; [done|].
    destruct Hr as [[-> Hfuel]|Hr]; [|by right].
    left. split; [done|]. intros Hrk.
    pose proof (Hrk _ _ _ _ _ _ Hn Hs Hx Hxn Hxs). specialize (Hfuel Hrk). lia.
  - exists w, (Raise IndexError). split; [done|]. split; [done|]. right. by left.
Qed.

(** [selection] from an evaluated node of a store in shape: a result, or
    the [IndexError] of [random.choice]; the loop bound of the model is
    reached only when it is not above the rank of the node. *)
Lemma selection_outcome fuel root w n s :
  wf_heap (heap w) → positive (heap w) →
  heap w !! root = Some n → state n = Some s →
  ∃ w' r, selection np_log fuel root w = (w', r)
    ∧ ((r = OutOfFuel ∧ (ranked rank (heap w) → (fuel ≤ rank s)%nat))
       ∨ r = Raise IndexError
       ∨ ∃ pn sel, r = Ok (pn, sel)).
Proof.
  intros Hwf Hpos Hn Hs. unfold selection. rewrite bind_run.
  destruct (selection_loop_outcome fuel root w n s Hwf Hpos Hn Hs)
    as (w1 & r & -> & Hh1 & [[-> Hfuel]|[->|(node & n' & s' & -> & Hn' & Hs')]]).
  - eexists _, _. split; [done|]. by left.
  - eexists _, _. split; [done|]. right. by left.
  - rewrite <- Hh1 in Hn', Hwf.
    rewrite bind_run, (read_run _ _ _ Hn'), bind_run, Hs'. cbn [try_attr ret].
    destruct (done s').
    { eexists _, _. split; [done|]. right. right. eauto. }
    destruct (for_each_read_run (λ a x, (a, is_evaluated x)) (next_nodes s') w1)
      as (ys & Hys & _).
    { intros c Hc. apply lookup_lt_is_Some_2, (wf_bound _ Hwf node).
      by rewrite (kids_eq _ _ _ _ Hn' Hs'). }
    rewrite bind_run, Hys, bind_run.
    destruct (random_choice _ w1) as [w2 [x|e'|]] eqn:Hc.
    + eexists _, _. split; [done|]. right. right. eauto.
    + eexists _, _. split; [done|]. right. left.
      by rewrite (random_choice_raises _ _ _ _ Hc).
    + exfalso. revert Hc. unfold random_choice. rewrite bind_run. cbn [get].
      destruct (fst <$> _) as [|y l]; [done|].
      rewrite bind_run. cbn [put]. by destruct (drawn _ _).
Qed.

(** The length of a lineage between two evaluated nodes is at most the
    difference of their ranks. *)
Lemma lineage_length h root d path rn rs nd s :
  ranked rank h → lineage h root d path →
  h !! root = Some rn → state rn = Some rs →
  h !! d = Some nd → state nd = Some s →
  (rank s + length path ≤ rank rs)%nat.
Proof.
  intros Hrk Hl Hrn Hrs. revert nd s.
  induction Hl as [|n c path Hl IH Hc]; intros nd s Hn Hs.
  { assert (s = rs) as -> by congruence. simpl. lia. }
  pose proof Hc as Hc'. apply kids_elem in Hc' as (pn & ps & Hpn & Hps & Hin).
  specialize (IH _ _ Hpn Hps).
  pose proof (Hrk _ _ _ _ _ _ Hpn Hps Hin Hn Hs). simpl. lia.
Qed.

(** The loop of [backpropagation] from a node of the lineage of the root,
    on a store in shape: it raises nothing, and writes counters only. *)
Lemma backpropagation_loop_outcome root winner reward fuel : ∀ node path w,
  wf_heap (heap w) → lineage (heap w) root node path →
  is_Some (ident (heap w) root) → is_Some (ident (heap w) node) →
  ∃ h' r, backpropagation_loop fuel node root winner reward w = (set_heap h' w, r)
    ∧ (r = Ok tt ∨ (r = OutOfFuel ∧ (fuel ≤ length path)%nat))
    ∧ same_links (heap w) h'
    ∧ (positive (heap w) → positive h').
Proof.
  induction fuel as [|fuel IH]; intros node path w Hwf Hl Hroot Hnode.
  { exists (heap w), OutOfFuel. rewrite set_heap_heap. split; [done|].
    split; [right; split; [done|lia]|]. split; [apply same_links_refl|done]. }
  unfold ident in Hroot, Hnode.
  destruct (heap w !! root) as [r|] eqn:Hr; [|by destruct Hroot]. simpl in Hroot.
  destruct (state r) as [t|] eqn:Ht; [|by destruct Hroot].
  destruct (heap w !! node) as [n|] eqn:Hn; [|by destruct Hnode]. simpl in Hnode.
  destruct (state n) as [s|] eqn:Hs; [|by destruct Hnode].
  destruct (decide (identifier s = identifier t)) as [Heq|Hne].
  { exists (heap w), (Ok tt). rewrite set_heap_heap. split.
    - cbn [backpropagation_loop].
      rewrite bind_run, (node_ne_run _ _ _ _ _ _ _ Hn Hs Hr Ht), Heq, Z.eqb_refl. done.
    - split; [by left|]. split; [apply same_links_refl|done]. }
  inversion Hl as [|p ? path' Hl' Hkid]; subst.
  { assert (s = t) by congruence. by subst. }
  pose proof Hkid as Hkid'. apply kids_elem in Hkid' as (pn & ps & Hpn & Hps & _).
  assert (Hp : parent n = Some p) by (apply (wf_parent _ Hwf p node); eauto).
  rewrite (backpropagation_loop_step _ _ _ _ _ _ _ _ _ _ _ _ _
             Hn Hs Hr Ht Hne Hp Hpn Hps).
  set (h1 := <[node := credit winner reward (player ps) n]> (heap w)).
  assert (Hl1 : same_links (heap w) h1) by by apply same_links_counters.
  destruct (IH p path' (set_heap h1 w)) as (h' & r' & Hloop & Hr' & Hl2 & Hpos2).
  - by eapply same_links_wf.
  - eapply grows_lineage; [by apply same_links_grows|done].
  - change (heap (set_heap h1 w)) with h1. unfold ident.
    destruct (same_links_lookup _ _ _ _ Hl1 Hr) as (r1 & -> & _ & Hst & _).
    simpl. rewrite <- Hst, Ht. by eexists.
  - change (heap (set_heap h1 w)) with h1. unfold ident.
    destruct (same_links_lookup _ _ _ _ Hl1 Hpn) as (p1 & -> & _ & Hst & _).
    simpl. rewrite <- Hst, Hps. by eexists.
  - exists h', r'. rewrite Hloop. rewrite set_heap_set_heap. split; [done|].
    split; [destruct Hr' as [?|[? ?]]; [by left|right; split; [done|simpl; lia]]|].
    split; [by eapply same_links_trans|].
    intros Hpos. apply Hpos2. intros i x Hi.
    change (heap (set_heap h1 w)) with h1 in Hi. unfold h1 in Hi.
    destruct (decide (i = node)) as [->|Hin].
    + rewrite list_lookup_insert_eq in Hi by by eapply lookup_lt_Some.
      injection Hi as <-. cbn. pose proof (Hpos _ _ Hn). lia.
    + rewrite list_lookup_insert_ne in Hi by done. by eapply Hpos.
Qed.

Lemma backpropagation_outcome fuel node root winner reward path w :
  wf_heap (heap w) → lineage (heap w) root node path →
  is_Some (ident (heap w) root) → is_Some (ident (heap w) node) →
  ∃ w' r, backpropagation fuel node root winner reward w = (w', r)
    ∧ (r = Ok tt ∨ r = Raise IndexError
       ∨ (r = OutOfFuel ∧ (fuel ≤ length path)%nat))
    ∧ (r = Ok tt → positive (heap w) → positive (heap w')).
Proof.
  intros Hwf Hl Hroot Hnode. unfold backpropagation. rewrite bind_run.
  assert (Hloop : ∀ p w1, heap w1 = heap w →
    ∃ w' r, backpropagation_loop fuel node root p reward w1 = (w', r)
      ∧ (r = Ok tt ∨ r = Raise IndexError
         ∨ (r = OutOfFuel ∧ (fuel ≤ length path)%nat))
      ∧ (r = Ok tt → positive (heap w) → positive (heap w'))).
  { intros p w1 Hh. rewrite <- Hh in Hwf, Hl, Hroot, Hnode |- *.
    destruct (backpropagation_loop_outcome root p reward fuel node path w1)
      as (h' & r & -> & Hr & _ & Hpos); [done..|].
    eexists _, _. split; [done|]. split; [|done].
    destruct Hr as [->|[-> ?]]; [by left|]. right. by right. }
  destruct winner as [p|]; [by apply Hloop|].
  rewrite bind_run. cbn [get].
  destruct (random_choice (g_players (game w)) w) as [w1 [p|e|]] eqn:Hc.
  - apply random_choice_ok in Hc as [-> _]. by apply Hloop.
  - eexists _, _. split; [done|]. split; [|done].
    right. left. by rewrite (random_choice_raises _ _ _ _ Hc).
  - exfalso. revert Hc. unfold random_choice. rewrite bind_run. cbn [get].
    destruct (g_players (game w)) as [|y l]; [done|].
    rewrite bind_run. cbn [put]. by destruct (drawn _ _).
Qed.

(** [play] on an evaluated root of a store in shape: an action, or the
    [IndexError] of [random.choice]. *)
Lemma play_outcome root w r s :
  wf_heap (heap w) → heap w !! root = Some r → state r = Some s →
  ∃ w' res, play root w = (w', res)
    ∧ (res = Raise IndexError ∨ ∃ a, res = Ok a).
Proof.
  intros Hwf Hr Hs. unfold play.
  rewrite bind_run, (read_run _ _ _ Hr), bind_run, Hs. cbn [try_attr ret].
  assert (Hkids : ∀ c, c ∈ next_nodes s → is_Some (heap w !! c)).
  { intros c Hc. apply lookup_lt_is_Some_2, (wf_bound _ Hwf root).
    by rewrite (kids_eq _ _ _ _ Hr Hs). }
  rewrite bind_run.
  destruct (randomax_outcome Z.gtb Z.eqb (λ x, visit_count <$> read x)
              (visits (heap w)) (next_nodes s) w) as [(x & -> & Hx)| ->].
  - intros x [n Hn]%Hkids. rewrite (fmap_read_run _ _ _ _ Hn).
    unfold visits. by rewrite Hn.
  - destruct (Hkids x Hx) as [n Hn].
    rewrite (fmap_read_run _ x (set_tape (tail (tape w)) w) n) by done.
    eexists _, _. split; [done|]. right. by eexists.
  - eexists _, _. split; [done|]. by left.
Qed.

End PhaseOutcomes.

(** ** The root of a search, on a store in shape *)

Section StoreOutcomes.
Context {G : Type} `{GameAdapter G}.
Variable np_log : float → float.
Implicit Types (w : @World G) (h : list Node).

Lemma positive_app_fresh h (acts : list (list Z)) :
  positive h → positive (h ++ map (λ a, Node_init (Some a) None None) acts).
Proof.
  intros Hpos i n Hi. destruct (decide (i < length h)%nat) as [Hlt|Hge].
  - rewrite lookup_app_l in Hi by done. by eapply Hpos.
  - rewrite lookup_app_r in Hi by lia.
    change (map ?f ?l) with (f <$> l) in Hi. rewrite list_lookup_fmap in Hi.
    destruct (acts !! _); [|done]. by injection Hi as <-.
Qed.

Lemma expansion_positive pn sel w w' x :
  positive (heap w) → expansion pn sel w = (w', Ok x) → positive (heap w').
Proof.
  intros Hpos Hexp. pose proof Hexp as Hexp'. unfold expansion in Hexp'.
  apply bind_ok in Hexp' as (w1 & nn & [-> Hn]%read_ok & Hrest).
  destruct (state nn) as [t|] eqn:Ht.
  { by rewrite (expansion_evaluated _ _ _ _ _ _ _ Hn Ht Hexp). }
  apply bind_ok in Hrest as (w2 & owner & Hpn & _).
  apply try_attr_ok in Hpn as [_ Hpn]. subst pn.
  destruct (expansion_world _ _ _ _ _ _ Hn Ht Hexp)
    as (pn & ps & g1 & b0 & g2 & o & r & d & p & _ & _ & _ & _ & _ & ->).
  cbn [heap]. intros i n Hi. destruct (decide (i = sel)) as [->|Hne].
  - rewrite list_lookup_insert_eq in Hi
      by (rewrite length_app; apply lookup_lt_Some in Hn; lia).
    injection Hi as <-. cbn. by eapply Hpos.
  - rewrite list_lookup_insert_ne in Hi by done.
    by eapply positive_app_fresh.
Qed.

(** [act]'s search for the root never fails. *)
Lemma root_for_total obs w : ∃ w' root, root_for obs w = (w', Ok root).
Proof.
  unfold root_for. rewrite bind_run. cbn [get]. rewrite bind_run, State_init_run.
  rewrite bind_run. unfold set_heap at 1. cbn [get game self_player tree heap tape].
  destruct (tree w !! _) as [i|]; [by eexists _, _|].
  rewrite bind_run. unfold alloc at 1. rewrite bind_run. cbn [get]. rewrite bind_run.
  unfold set_heap. cbn [put mret M_ret ret game self_player tree heap tape].
  rewrite bind_run. erewrite register_run.
  2:{ cbn [heap]. by rewrite lookup_app_r, Nat.sub_diag by lia. }
  2:{ reflexivity. }
  by eexists _, _.
Qed.

Lemma root_for_positive obs w w' root :
  positive (heap w) → root_for obs w = (w', Ok root) → positive (heap w').
Proof.
  intros Hpos [[_ ->]|(_ & _ & ->)]%root_for_world;
    unfold set_tree, set_heap; cbn [heap].
  - by apply positive_app_fresh.
  - intros i n [[_ Hi]|[_ <-]]%lookup_snoc_Some; [|done].
    by eapply positive_app_fresh.
Qed.

Lemma root_for_evaluated obs w w' root :
  tree_keyed w → root_for obs w = (w', Ok root) → is_Some (ident (heap w') root).
Proof.
  intros Hk Hroot. destruct (root_for_tree _ _ _ _ Hk Hroot) as (Hk' & _ & Hkey).
  rewrite (Hk' _ _ Hkey). by eexists.
Qed.

End StoreOutcomes.

(** ** The engine on TicTacToe: how a call of [act] ends *)

Section TicTacToeOutcomes.
Variable xxh64 : list (list pyval) → Z.
Variable np_log : float → float.
Implicit Types (w : @World TicTacToe) (h : list Node).

Lemma descending_ranked h : descending xxh64 h → ranked empty_cells h.
Proof.
  intros Hd i nd s c cn cs Hi Hs Hc Hcn Hcs.
  destruct (Hd _ _ _ Hi Hs) as [_ Hk]. by destruct (Hk _ _ _ Hc Hcn Hcs).
Qed.

Lemma count_none_le (b : board) n :
  Forall (λ row, length row = n) b → (count_none b ≤ length b * n)%nat.
Proof.
  induction 1 as [|row b Hrow _ IH]; [done|].
  rewrite count_none_cons. pose proof (length_filter (λ c : cell, c = None) row).
  simpl. lia.
Qed.

Lemma playable_rank n h i nd s :
  playable n h → h !! i = Some nd → state nd = Some s → (empty_cells s ≤ n * n)%nat.
Proof.
  intros Hp Hi Hs. destruct (Hp _ _ _ Hi Hs) as ((Hlen & Hrows) & _).
  pose proof (count_none_le _ _ Hrows) as Hle. unfold empty_cells.
  unfold board, cell in *. rewrite Hlen in Hle. done.
Qed.

(** One iteration on a store in shape, with a loop bound above the number
    of cells of the board: it returns, or raises the [IndexError] of
    [random.choice]. *)
Lemma run_outcome fuel root w :
  wf_heap (heap w) → playable (size (game w)) (heap w) →
  descending xxh64 (heap w) → positive (heap w) →
  is_Some (ident (heap w) root) →
  (size (game w) * size (game w) < fuel)%nat →
  ∃ w' r, @run _ (tictactoe_adapter xxh64) np_log fuel root w = (w', r)
    ∧ (r = Raise IndexError ∨ r = Ok tt)
    ∧ (r = Ok tt → positive (heap w')).
Proof.
  intros Hwf Hplay Hdesc Hpos Hroot Hfuel. unfold ident in Hroot.
  destruct (heap w !! root) as [rn|] eqn:Hr; [|by destruct Hroot]. simpl in Hroot.
  destruct (state rn) as [rs|] eqn:Hrs; [|by destruct Hroot]. clear Hroot.
  unfold run. rewrite bind_run.
  destruct (selection_outcome np_log empty_cells fuel root w rn rs Hwf Hpos Hr Hrs)
    as (w1 & r & Hsel & [[-> Hout]|[->|(pn & sel & ->)]]); rewrite Hsel.
  { exfalso. specialize (Hout (descending_ranked _ Hdesc)).
    pose proof (playable_rank _ _ _ _ _ Hplay Hr Hrs). lia. }
  { eexists _, _. split; [done|]. split; [by left|done]. }
  assert (Hg1 : size (game w1) = size (game w)).
  { by eapply (preserves_selection np_log (λ w, size (game w))). }
  pose proof (selection_lineage _ _ _ _ _ _ _ Hsel) as [path Hl].
  apply selection_cases in Hsel as [Hh1 Hcase].
  rewrite <- Hh1 in Hwf, Hplay, Hdesc, Hpos, Hr, Hl, Hcase. rewrite <- Hg1 in Hplay, Hfuel.
  clear Hh1 Hg1. revert Hwf Hplay Hdesc Hpos Hr Hl Hcase Hfuel. generalize w1. clear w.
  intros w Hwf Hplay Hdesc Hpos Hr Hl Hcase Hfuel.
  assert (Hback : ∀ w2 w3 winner reward,
    wf_heap (heap w2) → grows (heap w) (heap w2) → positive (heap w2) →
    descending xxh64 (heap w2) → playable (size (game w)) (heap w2) →
    is_Some (ident (heap w2) sel) → heap w3 = heap w2 →
    ∃ w' r, @backpropagation _ (tictactoe_adapter xxh64) fuel sel root winner reward w3
            = (w', r)
      ∧ (r = Raise IndexError ∨ r = Ok tt)
      ∧ (r = Ok tt → positive (heap w'))).
  { intros w2 w3 winner reward Hwf2 Hg2 Hpos2 Hdesc2 Hplay2 Hsel2 Hh3.
    rewrite <- Hh3 in Hwf2, Hg2, Hpos2, Hdesc2, Hplay2, Hsel2.
    destruct (Hg2 _ _ _ Hr Hrs) as (rn2 & Hr2 & Hrs2).
    pose proof (grows_lineage _ _ _ _ _ Hg2 Hl) as Hl2.
    destruct (@backpropagation_outcome _ (tictactoe_adapter xxh64) fuel sel root
                winner reward path w3) as (w' & r & Hb & Hres & Hok); [done|done| |done|].
    { unfold ident. rewrite Hr2. simpl. rewrite Hrs2. by eexists. }
    exists w', r. split; [done|]. split; [|by auto].
    destruct Hres as [->|[->|[-> Hout]]]; [by right|by left|]. exfalso.
    unfold ident in Hsel2.
    destruct (heap w3 !! sel) as [nd|] eqn:Hnd; [|by destruct Hsel2]. simpl in Hsel2.
    destruct (state nd) as [s|] eqn:Hs; [|by destruct Hsel2].
    pose proof (lineage_length empty_cells _ _ _ _ _ _ _ _
                  (descending_ranked _ Hdesc2) Hl2 Hr2 Hrs2 Hnd Hs).
    pose proof (playable_rank _ _ _ _ _ Hplay2 Hr2 Hrs2). lia. }
  destruct Hcase as [(n & t & Hn & Ht & Hdt)
                    |(owner & on & os & n & -> & Hon & Hos & Hdo & Hkid & Hn & Ht)].
  - rewrite bind_run, (expansion_run_evaluated _ _ _ _ _ Hn Ht).
    rewrite bind_run, (simulation_terminal _ _ _ _ _ Hn Ht Hdt).
    apply (Hback w w); [done|apply grows_refl|done..| |done].
    rewrite (ident_eq _ _ _ _ Hn Ht). by eexists.
  - destruct (expansion_tictactoe xxh64 owner sel w on os n Hwf Hplay Hon Hos Hdo Hkid Hn Ht)
      as (w2 & s & Hexp & Hsel2 & Hwf2 & Hplay2 & Hobs2 & Hsq2 & Hturn2 & _ & Hcount & Hdesc2).
    pose proof (expansion_grows _ _ _ _ _ Hexp) as Hg2.
    pose proof (expansion_positive _ _ _ _ _ Hpos Hexp) as Hpos2.
    assert (Hid2 : is_Some (ident (heap w2) sel)).
    { unfold ident. rewrite Hsel2. by eexists. }
    rewrite bind_run, Hexp. rewrite bind_run. unfold simulation.
    rewrite bind_run, (read_run _ _ _ Hsel2). cbn [state set_state_parent].
    rewrite bind_run. cbn [try_attr ret].
    destruct (done s) eqn:Hds.
    + assert (simulation_loop fuel (observation s) (reward s) true (player s) w2
              = (w2, Ok (player s, reward s))) as -> by by destruct fuel.
      apply (Hback w2 w2); auto.
    + destruct (Hturn2 eq_refl) as (q & -> & Hq & Hcur & Hfin).
      rewrite <- Hobs2.
      destruct (simulation_loop_tictactoe xxh64 fuel (reward s) q w2)
        as (w3 & res & -> & Hh3 & _ & Hg3 & _ & Hres); [done|done|by right|done|].
      destruct Hres as [[-> Hout]|(winner & reward & -> & _)].
      * exfalso. rewrite Hobs2 in Hout.
        pose proof (playable_rank _ _ _ _ _ Hplay Hon Hos) as Hle.
        unfold empty_cells in Hle. lia.
      * apply (Hback w2 w3); auto.
Qed.

Lemma run_n_outcome k fuel root : ∀ w,
  wf_heap (heap w) → playable (size (game w)) (heap w) →
  descending xxh64 (heap w) → positive (heap w) →
  is_Some (ident (heap w) root) →
  (size (game w) * size (game w) < fuel)%nat →
  ∃ w' r, @run_n _ (tictactoe_adapter xxh64) np_log k fuel root w = (w', r)
    ∧ (r = Raise IndexError ∨ r = Ok tt)
    ∧ (r = Ok tt →
       wf_heap (heap w') ∧ playable (size (game w)) (heap w')
       ∧ descending xxh64 (heap w') ∧ positive (heap w')).
Proof.
  induction k as [|k IH]; intros w Hwf Hplay Hdesc Hpos Hroot Hfuel; simpl.
  { exists w, (Ok tt). split; [done|]. split; [by right|done]. }
  rewrite bind_run.
  destruct (run_outcome fuel root w Hwf Hplay Hdesc Hpos Hroot Hfuel)
    as (w1 & r1 & Hrun & Hr1 & Hok1).
  destruct (run_tictactoe xxh64 np_log fuel root w Hwf Hplay)
    as (w1' & r1' & Hrun' & _ & Hok1').
  rewrite Hrun in Hrun'. injection Hrun' as <- <-.
  rewrite Hrun. destruct Hr1 as [->| ->].
  { eexists _, _. split; [done|]. split; [by left|done]. }
  destruct (Hok1' tt eq_refl) as (Hwf1 & Hplay1 & Hdesc1).
  assert (Hg1 : size (game w1) = size (game w)) by by eapply run_size.
  rewrite <- Hg1 in Hplay1, Hfuel.
  destruct (IH w1) as (w' & r & Hrest & Hr & Hok); [done|done|by apply Hdesc1|by apply Hok1| |done|].
  { destruct Hroot as [z Hz].
    rewrite (grows_ident _ _ _ _ (run_grows _ _ _ _ _ _ Hrun) Hz). by eexists. }
  exists w', r. rewrite <- Hg1. done.
Qed.

(** X20. How a call of [act] ends on TicTacToe. For an engine playing
    ["X"] or ["O"], a board of the game's size, and a store and a tree in
    the shape the engine gives them, with the stored boards as the engine
    stored them: [act] ends, and it ends either with a move or with
    [IndexError], the exception of [random.choice] on an empty list. It
    raises nothing else ([GameError], [AttributeError],
    [ZeroDivisionError], [OverflowError]), and no loop of an iteration
    takes more rounds than the board has cells. When [act] returns a move,
    the store and the tree are in that shape again at that moment. *)
Theorem act_raises_only_IndexError k fuel obs w p :
  wf_heap (heap w) → playable (size (game w)) (heap w) →
  descending xxh64 (heap w) → positive (heap w) → tree_keyed w →
  self_player w = Some p → p ∈ players →
  length obs = size (game w) → Forall (λ row, length row = size (game w)) obs →
  (size (game w) * size (game w) < fuel)%nat →
  ∃ w' r, @act _ (tictactoe_adapter xxh64) np_log k fuel obs w = (w', r)
    ∧ (r = Raise IndexError
       ∨ ∃ a, r = Ok a
           ∧ size (game w') = size (game w)
           ∧ wf_heap (heap w') ∧ playable (size (game w')) (heap w')
           ∧ descending xxh64 (heap w') ∧ positive (heap w') ∧ tree_keyed w').
Proof.
  intros Hwf Hplay Hdesc Hpos Hkeyed Hself Hp Hlen Hrows Hfuel.
  destruct (@act _ (tictactoe_adapter xxh64) np_log k fuel obs w) as [w' r] eqn:Hact.
  exists w', r. split; [done|].
  assert (Hsize : size (game w') = size (game w)) by by eapply act_size.
  rewrite Hsize. unfold act in Hact. rewrite bind_run in Hact.
  destruct (@root_for_total _ (tictactoe_adapter xxh64) obs w) as (w1 & root & Hroot).
  rewrite Hroot in Hact.
  destruct (root_for_tictactoe xxh64 obs w p Hwf Hplay Hself Hp Hlen Hrows)
    as (w1' & r1 & Hroot' & _ & Hok1).
  rewrite Hroot in Hroot'. injection Hroot' as <- <-.
  destruct (Hok1 root eq_refl) as (Hwf1 & Hplay1 & Hdesc1).
  assert (Hg1 : size (game w1) = size (game w)).
  { eapply (preserves_root_for (λ w, size (game w))); done. }
  pose proof (root_for_positive _ _ _ _ Hpos Hroot) as Hpos1.
  pose proof (root_for_evaluated _ _ _ _ Hkeyed Hroot) as Hev1.
  destruct (root_for_tree _ _ _ _ Hkeyed Hroot) as (Hk1 & _ & _).
  rewrite bind_run in Hact. rewrite <- Hg1 in Hplay1, Hfuel.
  destruct (run_n_outcome k fuel root w1 Hwf1 Hplay1 (Hdesc1 Hdesc) Hpos1 Hev1 Hfuel)
    as (w2 & r2 & Hrun & Hr2 & Hok2).
  rewrite Hrun in Hact. destruct Hr2 as [->| ->].
  { injection Hact as <- <-. by left. }
  destruct (Hok2 eq_refl) as (Hwf2 & Hplay2 & Hdesc2 & Hpos2).
  destruct (run_n_tree _ _ _ _ _ _ _ Hk1 Hrun) as [Hk2 _].
  assert (Hev2 : is_Some (ident (heap w2) root)).
  { destruct Hev1 as [z Hz].
    rewrite (grows_ident _ _ _ _ (run_n_grows _ _ _ _ _ _ _ Hrun) Hz). by eexists. }
  unfold ident in Hev2.
  destruct (heap w2 !! root) as [rn|] eqn:Hrn; [|by destruct Hev2]. simpl in Hev2.
  destruct (state rn) as [rs|] eqn:Hrs; [|by destruct Hev2].
  destruct (play_outcome root w2 rn rs Hwf2 Hrn Hrs) as (w3 & res & Hplayed & Hres).
  rewrite Hplayed in Hact. injection Hact as <- <-.
  destruct Hres as [->|[a ->]]; [by left|]. right. exists a.
  pose proof (play_heap _ _ _ _ Hplayed) as Hh. rewrite Hh, <- Hg1.
  do 6 (split; [done|]).
  apply (tree_keyed_grows w2 w3); [|rewrite Hh; apply grows_refl|exact Hk2].
  by eapply (preserves_play tree).
Qed.

End TicTacToeOutcomes.

Lemma act_raises_only_IndexError_witness :
  ∃ w' r, @act _ demo_game demo_log 6 50 (np_full 2) demo_world = (w', r)
    ∧ (r = Raise IndexError
       ∨ ∃ a, r = Ok a
           ∧ size (game w') = size (game demo_world)
           ∧ wf_heap (heap w') ∧ playable (size (game w')) (heap w')
           ∧ descending positional_digest (heap w') ∧ positive (heap w')
           ∧ tree_keyed w').
Proof.
  apply (act_raises_only_IndexError positional_digest demo_log 6 50 (np_full 2)
           demo_world "X"%string).
  - apply wf_heap_nil.
  - intros i nd s Hi. change (heap demo_world) with (@nil Node) in Hi.
    by rewrite lookup_nil in Hi.
  - intros i nd s Hi. change (heap demo_world) with (@nil Node) in Hi.
    by rewrite lookup_nil in Hi.
  - intros i n Hi. change (heap demo_world) with (@nil Node) in Hi.
    by rewrite lookup_nil in Hi.
  - intros k i Hk. change (tree demo_world) with (∅ : gmap Z nat) in Hk.
    by rewrite lookup_empty in Hk.
  - reflexivity.
  - apply elem_of_cons. by left.
  - reflexivity.
  - repeat constructor.
  - simpl. lia.
Defined.

(** ** A root whose array the caller has written into *)

Section CallerWrites.
Variable xxh64 : list (list pyval) → Z.
Variable np_log : float → float.
Implicit Types (w : @World TicTacToe) (h : list Node).

Lemma array_written_lookup {G} holders b (w : @World G) i :
  heap (array_written holders b w) !! i
  = (λ n, if decide (i ∈ holders) then set_array b n else n) <$> heap w !! i.
Proof. unfold array_written, set_heap. cbn [heap]. by rewrite list_lookup_imap. Qed.

Lemma array_written_other {G} holders b (w : @World G) i n :
  i ∉ holders → heap w !! i = Some n →
  heap (array_written holders b w) !! i = Some n.
Proof.
  intros Hi Hn. rewrite array_written_lookup, Hn. simpl. by rewrite decide_False.
Qed.

Lemma array_written_holder {G} holders b (w : @World G) i n :
  i ∈ holders → heap w !! i = Some n →
  heap (array_written holders b w) !! i = Some (set_array b n).
Proof.
  intros Hi Hn. rewrite array_written_lookup, Hn. simpl. by rewrite decide_True.
Qed.

(** An iteration from a root that is not fully expanded and that reads,
    at the cell of each child it has not evaluated yet, a token: whichever
    child [selection] draws, [expansion] resets the game to what the root
    reads and [step] refuses the child's move. *)
Lemma run_on_written_root fuel root w rn rs p :
  heap w !! root = Some rn → state rn = Some rs →
  done rs = false → player rs = Some p → p ∈ players →
  (∀ c, c ∈ next_nodes rs → is_Some (heap w !! c)) →
  (∃ c cn, c ∈ next_nodes rs ∧ heap w !! c = Some cn ∧ state cn = None) →
  (∀ c cn, c ∈ next_nodes rs → heap w !! c = Some cn → state cn = None →
     ∃ i j t, action cn = Some [i; j]
       ∧ np_getitem2 (observation rs) i j = Ok (Some t) ∧ t ≠ ""%string) →
  ∃ w', @run _ (tictactoe_adapter xxh64) np_log (S fuel) root w
        = (w', Raise (GameError "This movement has already been made.")).
Proof.
  intros Hr Hrs Hd Hp Hpin Hkids (c0 & cn0 & Hc0 & Hcn0 & Hnone0) Hcells.
  unfold run, selection. cbn [selection_loop].
  rewrite !bind_run, (read_run _ _ _ Hr), bind_run, Hrs. cbn [try_attr ret]. rewrite Hd.
  unfold is_expanded.
  rewrite !bind_run, (read_run _ _ _ Hr), bind_run, Hrs. cbn [try_attr ret].
  destruct (for_each_read_run (λ _, is_evaluated) (next_nodes rs) w Hkids)
    as (ys & Hys & Hall).
  rewrite bind_run, Hys. cbn [mret M_ret ret].
  assert (Hexp : forallb id ys = false).
  { apply not_true_is_false. intros Hb. rewrite forallb_forall in Hb.
    apply list_elem_of_lookup in Hc0 as [k Hk].
    destruct (Forall2_lookup_l _ _ _ _ _ Hall Hk) as (y & Hy & cn & Hcn & ->).
    assert (cn = cn0) as -> by congruence.
    assert (Hin : In (is_evaluated cn0) ys)
      by (by eapply list_elem_of_In, list_elem_of_lookup_2).
    specialize (Hb _ Hin). unfold id, is_evaluated in Hb. rewrite Hnone0 in Hb.
    apply bool_decide_eq_true in Hb. by destruct Hb. }
  rewrite Hexp. cbn [mret M_ret ret].
  rewrite bind_run, (read_run _ _ _ Hr), bind_run, Hrs. cbn [try_attr ret]. rewrite Hd.
  destruct (for_each_read_run (λ a x, (a, is_evaluated x)) (next_nodes rs) w Hkids)
    as (flags & Hflags & Hfl).
  rewrite bind_run, Hflags, bind_run.
  set (cands := fst <$> filter (λ af : nat * bool, af.2 = false) flags).
  assert (Hcands : ∀ x, x ∈ cands →
            x ∈ next_nodes rs ∧ ∃ xn, heap w !! x = Some xn ∧ state xn = None).
  { intros x ([a e] & -> & [He Hin]%list_elem_of_filter)%list_elem_of_fmap.
    simpl in He. subst e. apply list_elem_of_lookup in Hin as [k Hk].
    destruct (Forall2_lookup_r _ _ _ _ _ Hfl Hk) as (a' & Ha' & xn & Hxn & [= <- He]).
    split; [by eapply list_elem_of_lookup_2|]. exists xn. split; [done|].
    unfold is_evaluated in He. symmetry in He. apply bool_decide_eq_false in He.
    destruct (state xn); [|done]. destruct He. by eexists. }
  assert (Hne : cands ≠ []).
  { apply list_elem_of_lookup in Hc0 as [k Hk].
    destruct (Forall2_lookup_l _ _ _ _ _ Hfl Hk) as (y & Hy & cn & Hcn & ->).
    assert (cn = cn0) as -> by congruence.
    assert (Hin : c0 ∈ cands).
    { apply list_elem_of_fmap. exists (c0, is_evaluated cn0). split; [done|].
      apply list_elem_of_filter. split; [|by eapply list_elem_of_lookup_2].
      simpl. unfold is_evaluated. apply bool_decide_eq_false. rewrite Hnone0.
      by intros [? ?]. }
    intros Hnil. rewrite Hnil in Hin. by apply elem_of_nil in Hin. }
  destruct (drawn_nonempty (tape w) cands Hne) as [x Hx].
  rewrite (random_choice_run _ _ _ Hx). cbn [mret M_ret ret].
  destruct (Hcands x (drawn_elem _ _ _ Hx)) as (Hxin & xn & Hxn & Hxnone).
  destruct (Hcells x xn Hxin Hxn Hxnone) as (i & j & t & Hact & Hcell & Ht).
  set (w1 := set_tape (tail (tape w)) w).
  assert (Hxn1 : heap w1 !! x = Some xn) by done.
  assert (Hr1 : heap w1 !! root = Some rn) by done.
  enough (∃ w', @expansion _ (tictactoe_adapter xxh64) (Some root) x w1
                = (w', Raise (GameError "This movement has already been made.")))
    as [w' Hexpn] by (exists w'; by rewrite bind_run, Hexpn).
  unfold expansion.
  rewrite bind_run, (read_run _ _ _ Hxn1), Hxnone.
  rewrite bind_run. cbn [try_attr ret]. rewrite bind_run, (read_run _ _ _ Hr1).
  rewrite bind_run, Hrs. cbn [try_attr ret]. rewrite Hp.
  rewrite bind_run. unfold with_game at 1. cbn [g_reset tictactoe_adapter].
  unfold reset. rewrite bind_run. cbn [get]. rewrite bind_run. cbn [put mret M_ret ret].
  rewrite bind_run. unfold with_game at 1.
  cbn [g_step tictactoe_adapter set_game game]. rewrite Hact.
  unfold step. rewrite bind_run. cbn [get current_player observation_space].
  rewrite (bool_decide_eq_true_2 _ Hpin). cbn [negb].
  rewrite bool_decide_eq_false_2 by (by intros [? ?]).
  rewrite Hcell. cbn [truthy].
  assert ((t =? "")%string = false) as -> by by apply String.eqb_neq.
  cbn [negb raise]. by eexists.
Qed.

(** X21. The array of a root belongs to the caller. Let a root that is not
    fully expanded be registered under the key of a board, and let the
    caller have written into the array that the root's state holds (as
    run.py does: the array that [reset()] returned is the game's own, and
    every [step] of the episode writes into it), so that it now reads a
    token at the cell of each child of the root that is not evaluated yet.
    Then [act], called with another array that reads the board of the key
    (the next episode's empty board), finds that root and raises
    [GameError] in its first iteration: [expansion] resets the game to what
    the root's array reads now and plays the child's move on it. *)
Theorem act_on_written_array_raises_GameError k fuel obs b root rn rs p w :
  wf_heap (heap w) → self_player w = Some p → p ∈ players →
  tree w !! TicTacToe.state xxh64 obs (Some p) = Some root →
  heap w !! root = Some rn → state rn = Some rs →
  done rs = false → player rs = Some p →
  (∃ c cn, c ∈ next_nodes rs ∧ heap w !! c = Some cn ∧ state cn = None) →
  (∀ c cn, c ∈ next_nodes rs → heap w !! c = Some cn → state cn = None →
     ∃ i j t, action cn = Some [i; j]
       ∧ np_getitem2 b i j = Ok (Some t) ∧ t ≠ ""%string) →
  ∃ w', @act _ (tictactoe_adapter xxh64) np_log (S k) (S fuel) obs
          (array_written [root] b w)
        = (w', Raise (GameError "This movement has already been made.")).
Proof.
  intros Hwf Hself Hpin Htree Hr Hrs Hd Hp Hopen Hcells.
  set (wa := array_written [root] b w).
  assert (Hkids : ∀ c, c ∈ next_nodes rs → (c < length (heap w))%nat).
  { intros c Hc. apply (wf_bound _ Hwf root). by rewrite (kids_eq _ _ _ _ Hr Hrs). }
  assert (Hnot : ∀ c cn, c ∈ next_nodes rs → heap w !! c = Some cn →
            state cn = None → c ≠ root).
  { intros c cn _ Hcn Hnone ->. congruence. }
  destruct (@root_for_total _ (tictactoe_adapter xxh64) obs wa) as (w1 & root' & Hroot).
  pose proof Hroot as Hw1. apply root_for_world in Hw1. cbv zeta in Hw1.
  change (tree wa) with (tree w) in Hw1. change (self_player wa) with (self_player w) in Hw1.
  cbn [g_state tictactoe_adapter] in Hw1. rewrite Hself, Htree in Hw1.
  destruct Hw1 as [[[= <-] Hw1]|[? _]]; [|done].
  unfold act. rewrite bind_run, Hroot. cbn [run_n]. rewrite !bind_run.
  assert (Hold : ∀ i n, heap wa !! i = Some n → heap w1 !! i = Some n).
  { intros i n Hi. rewrite Hw1. unfold set_heap. cbn [heap].
    rewrite lookup_app_l; [done|]. by eapply lookup_lt_Some. }
  set (rs' := mkState (identifier rs) b (reward rs) (done rs) (player rs) (next_nodes rs)).
  assert (Hr1 : heap w1 !! root = Some (set_array b rn)).
  { apply Hold. apply array_written_holder; [|done]. apply list_elem_of_singleton. done. }
  assert (Hrs1 : state (set_array b rn) = Some rs').
  { unfold set_array. cbn [state]. by rewrite Hrs. }
  assert (Hsame : ∀ c cn, c ∈ next_nodes rs → heap w !! c = Some cn → state cn = None →
            heap w1 !! c = Some cn).
  { intros c cn Hc Hcn Hnone. apply Hold, array_written_other; [|done].
    intros ->%list_elem_of_singleton. by eapply Hnot. }
  assert (Hback : ∀ c cn, c ∈ next_nodes rs → heap w1 !! c = Some cn → state cn = None →
            heap w !! c = Some cn).
  { intros c cn Hc Hcn Hnone.
    destruct (lookup_lt_is_Some_2 (heap w) c (Hkids c Hc)) as [cn0 Hcn0].
    destruct (decide (c = root)) as [->|Hne].
    - rewrite Hr1 in Hcn. injection Hcn as <-. by rewrite Hrs1 in Hnone.
    - rewrite (Hold c cn0) in Hcn; [congruence|].
      apply array_written_other; [|done]. by intros ->%list_elem_of_singleton. }
  destruct (run_on_written_root fuel root w1 (set_array b rn) rs' p) as [w' Hrun];
    [done|done|done|done|done| | | |].
  - intros c Hc. apply lookup_lt_is_Some_2. rewrite Hw1. unfold set_heap. cbn [heap].
    rewrite length_app. unfold wa, array_written, set_heap. cbn [heap].
    rewrite length_imap. specialize (Hkids c Hc). lia.
  - destruct Hopen as (c & cn & Hc & Hcn & Hnone). exists c, cn. eauto.
  - intros c cn Hc Hcn Hnone. cbn [observation rs']. eauto.
  - rewrite Hrun. by eexists.
Qed.

End CallerWrites.

Lemma first_episode_world_wf : wf_heap (heap first_episode_world).
Proof.
  assert (∃ w2, @run_n _ demo_game demo_log 3 50 4 rooted_world = (w2, Ok tt)
                ∧ heap w2 = heap first_episode_world) as (w2 & Hrun & <-).
  { eexists. split; vm_compute; reflexivity. }
  eapply run_n_wf; [exact rooted_world_wf|exact Hrun].
Qed.

Lemma act_on_written_array_raises_GameError_witness :
  (@act _ demo_game demo_log 3 50 (np_full 2) demo_world
   = (first_episode_world, Ok (Some [0; 0])))
  ∧ ((λ g, observation_space g.1)
       (step (Some "X"%string) (Some [0; 1])
          (step (Some "O"%string) (Some [1; 0])
             (step (Some "X"%string) (Some [0; 0]) (init 2)).1).1)
     = episode_board)
  ∧ ∃ w', @act _ demo_game demo_log 6 50 (np_full 2)
            (array_written [4%nat] episode_board first_episode_world)
          = (w', Raise (GameError "This movement has already been made.")).
Proof.
  split; [vm_compute; reflexivity|]. split; [reflexivity|].
  apply (act_on_written_array_raises_GameError positional_digest demo_log 5 49
           (np_full 2) episode_board 4
           (default (Node_init None None None) (heap first_episode_world !! 4%nat))
           (default (mkState 0 [] 0 false None [])
              (heap first_episode_world !! 4%nat ≫= state))
           "X"%string first_episode_world).
  - exact first_episode_world_wf.
  - reflexivity.
  - apply elem_of_cons. by left.
  - vm_compute. reflexivity.
  - reflexivity.
  - reflexivity.
  - reflexivity.
  - reflexivity.
  - exists 2%nat. eexists. split; [|split; reflexivity].
    vm_compute. apply elem_of_cons. right. apply elem_of_cons. right.
    apply elem_of_cons. by left.
  - intros c cn Hc Hcn Hnone.
    assert (Hkids : c ∈ [0; 1; 2; 3]%nat) by exact Hc.
    assert (c = 2%nat) as ->.
    { repeat (apply elem_of_cons in Hkids as [->|Hkids]); try done.
      - vm_compute in Hcn. injection Hcn as <-. discriminate Hnone.
      - vm_compute in Hcn. injection Hcn as <-. discriminate Hnone.
      - vm_compute in Hcn. injection Hcn as <-. discriminate Hnone.
      - by apply elem_of_nil in Hkids. }
    vm_compute in Hcn. injection Hcn as <-.
    exists 1, 0, "O"%string. split; [reflexivity|]. split; [reflexivity|discriminate].
Defined.
